(** * Sliced PME force: slice bookkeeping, grid sizes and parameter updates

    A shallow embedding of the host-side logic of the nonbonded-slicing
    plugin:

    - [SlicedPmeForce.cpp]: the force object (particles, exceptions,
      global and switching parameters);
    - [OpenCLVkFFT3D.h]: the legal FFT grid size search;
    - [CudaPmeSlicingKernels.cpp]: the host side of the CUDA kernel
      (initialisation, per-step parameter refresh, parameter copy).

    Conventions.  A C++ [int] is a [Z] in the range of a 32-bit [int].
    Where the source computes with [int]s that can leave that range
    (the slice arithmetic [j*(j+1)/2+i], the number of slices, the
    counters of the grid size search) every intermediate result is
    normalised with [CInt.wrap], as the two's-complement targets of the
    plugin do it; the definitions over the unbounded integers that the
    specification speaks of ([pairIndex], [pairCount]) are kept beside
    them, with the range in which the two agree.  Positions in vectors
    are below the size of a vector and are not normalised.  Integer
    division is C++ truncation, [Z.quot].  A [std::vector] is a [list]
    read with [!!] and written with [Vec.set]; a [std::map] is a
    [gmap].  Floating-point values are elements of an abstract type
    with its own addition, multiplication, comparison and narrowing to
    single precision: no law of arithmetic is assumed for them, sums
    are taken in the order in which the loops of the source take them,
    and a value stored in a [float] is the narrowed value. *)

From Stdlib Require Import ZArith Zdivisibility Lia.
From stdpp Require Import base tactics option list gmap strings.

Local Open Scope Z_scope.

(** ** C++ [int] *)

Module CInt.

Definition INT_MAX : Z := 2147483647.
Definition INT_MIN : Z := -2147483648.

Definition in_range (z : Z) : Prop := INT_MIN <= z <= INT_MAX.

(** Two's-complement normalisation of a mathematical integer. *)
Definition wrap (z : Z) : Z := (z + 2147483648) mod 4294967296 - 2147483648.

Lemma wrap_in_range z : in_range z -> wrap z = z.
Proof.
  unfold in_range, wrap, INT_MIN, INT_MAX. intros H.
  rewrite Z.mod_small by lia. lia.
Qed.

Lemma wrap_range z : in_range (wrap z).
Proof.
  unfold in_range, wrap, INT_MIN, INT_MAX.
  pose proof (Z.mod_pos_bound (z + 2147483648) 4294967296 ltac:(lia)). lia.
Qed.

(** One step past [INT_MAX] is [INT_MIN]. *)
Lemma wrap_past_max : wrap (INT_MAX + 1) = INT_MIN.
Proof. reflexivity. Qed.

End CInt.

(** ** The slice index map

    [addSwitchingParameter] and [setSwitchingParameter] compute

      int i = std::min(subset1, subset2);
      int j = std::max(subset1, subset2);
      int slice = j*(j+1)/2+i;                                        *)

Module SliceIndexMap.

(** The slice of a pair of subsets, as the [int] expression computes
    it. *)
Definition sliceIndex (subset1 subset2 : Z) : Z :=
  let i := Z.min subset1 subset2 in
  let j := Z.max subset1 subset2 in
  CInt.wrap (Z.quot (CInt.wrap (j * CInt.wrap (j + 1))) 2 + i).

(** [numSlices = numSubsets*(numSubsets+1)/2], an [int] as well. *)
Definition numSlices (numSubsets : Z) : Z :=
  Z.quot (CInt.wrap (numSubsets * CInt.wrap (numSubsets + 1))) 2.

(** The numbers of the specification, over the integers: the "linear
    index [j*(j+1)/2 + i] where [i = min(i,j)], [j = max(i,j)]" of a
    pair, and the number [S*(S+1)/2] of unordered pairs of [S]
    subsets. *)
Definition pairIndex (subset1 subset2 : Z) : Z :=
  let i := Z.min subset1 subset2 in
  let j := Z.max subset1 subset2 in
  Z.quot (j * (j + 1)) 2 + i.

Definition pairCount (S : Z) : Z := Z.quot (S * (S + 1)) 2.

Lemma half_even_product j : 0 <= j -> 2 * Z.quot (j * (j + 1)) 2 = j * (j + 1).
Proof.
  intros Hj. rewrite Z.quot_div_nonneg by nia.
  assert (Hm : (j * (j + 1)) mod 2 = 0).
  { destruct (Z.even j) eqn:E.
    - apply Z.even_spec in E. destruct E as [k ->].
      replace (2 * k * (2 * k + 1)) with ((k * (2 * k + 1)) * 2) by ring.
      apply Z.mod_mul. lia.
    - assert (O : Z.odd j = true) by (rewrite <- Z.negb_even, E; reflexivity).
      apply Z.odd_spec in O. destruct O as [k ->].
      replace ((2 * k + 1) * (2 * k + 1 + 1)) with (((2 * k + 1) * (k + 1)) * 2) by ring.
      apply Z.mod_mul. lia. }
  pose proof (Z.div_mod (j * (j + 1)) 2 ltac:(lia)). lia.
Qed.

(** *** The map over the integers *)

Lemma pairIndex_sym a b : pairIndex a b = pairIndex b a.
Proof. unfold pairIndex. rewrite (Z.min_comm a b), (Z.max_comm a b). reflexivity. Qed.

Lemma pairIndex_ordered i j :
  0 <= i <= j -> 2 * pairIndex i j = j * (j + 1) + 2 * i.
Proof.
  intros H. unfold pairIndex.
  rewrite Z.min_l, Z.max_r by lia.
  pose proof (half_even_product j ltac:(lia)). lia.
Qed.

Lemma pairIndex_min_max a b :
  pairIndex a b = pairIndex (Z.min a b) (Z.max a b).
Proof.
  unfold pairIndex.
  rewrite (Z.min_l (Z.min a b) (Z.max a b)) by lia.
  rewrite (Z.max_r (Z.min a b) (Z.max a b)) by lia. reflexivity.
Qed.

Lemma pairIndex_bounds S a b :
  0 <= a < S -> 0 <= b < S -> 0 <= pairIndex a b < pairCount S.
Proof.
  intros Ha Hb. rewrite pairIndex_min_max.
  pose proof (pairIndex_ordered (Z.min a b) (Z.max a b) ltac:(lia)) as E.
  pose proof (half_even_product S ltac:(lia)) as ES.
  unfold pairCount. nia.
Qed.

Lemma pairIndex_ordered_inj i j i' j' :
  0 <= i <= j -> 0 <= i' <= j' ->
  pairIndex i j = pairIndex i' j' -> i = i' /\ j = j'.
Proof.
  intros H H' E.
  pose proof (pairIndex_ordered i j H) as E1.
  pose proof (pairIndex_ordered i' j' H') as E2.
  assert (j = j') by nia. subst j'. lia.
Qed.

Lemma pairIndex_inj S i j i' j' :
  0 <= i < S -> 0 <= j < S -> 0 <= i' < S -> 0 <= j' < S ->
  pairIndex i j = pairIndex i' j' ->
  Z.min i j = Z.min i' j' /\ Z.max i j = Z.max i' j'.
Proof.
  intros Hi Hj Hi' Hj' E.
  rewrite (pairIndex_min_max i j), (pairIndex_min_max i' j') in E.
  apply pairIndex_ordered_inj in E; lia.
Qed.

(** Every index below [pairCount S] is the index of an ordered pair:
    induction on the number of subsets, peeling off the last row of the
    triangle. *)
Lemma pairIndex_onto_nat (n : nat) k :
  0 <= k < pairCount (Z.of_nat n) ->
  exists i j, 0 <= i <= j /\ j < Z.of_nat n /\ pairIndex i j = k.
Proof.
  induction n as [|n IH]; intros Hk.
  - change (pairCount (Z.of_nat 0)) with 0 in Hk. lia.
  - pose proof (half_even_product (Z.of_nat n) ltac:(lia)) as En.
    pose proof (half_even_product (Z.of_nat (S n)) ltac:(lia)) as ESn.
    unfold pairCount in *.
    destruct (Z_lt_dec k (Z.quot (Z.of_nat n * (Z.of_nat n + 1)) 2)) as [Hlt|Hge].
    + destruct (IH ltac:(lia)) as (i & j & Hij & Hj & E).
      exists i, j. repeat split; lia.
    + exists (k - Z.quot (Z.of_nat n * (Z.of_nat n + 1)) 2), (Z.of_nat n).
      assert (Hi : 0 <= k - Z.quot (Z.of_nat n * (Z.of_nat n + 1)) 2 <= Z.of_nat n) by nia.
      repeat split; try lia.
      pose proof (pairIndex_ordered _ _ Hi). lia.
Qed.

Lemma pairIndex_onto S k :
  0 <= S -> 0 <= k < pairCount S ->
  exists i j, 0 <= i <= j /\ j < S /\ pairIndex i j = k.
Proof.
  intros HS Hk.
  destruct (pairIndex_onto_nat (Z.to_nat S) k) as (i & j & ? & ? & ?).
  { rewrite Z2Nat.id by lia. exact Hk. }
  exists i, j. rewrite Z2Nat.id in * by lia. auto.
Qed.

(** *** The [int] computation *)

Lemma sliceIndex_sym a b : sliceIndex a b = sliceIndex b a.
Proof. unfold sliceIndex. rewrite (Z.min_comm a b), (Z.max_comm a b). reflexivity. Qed.

Lemma sliceIndex_min_max a b :
  sliceIndex a b = sliceIndex (Z.min a b) (Z.max a b).
Proof.
  unfold sliceIndex.
  rewrite (Z.min_l (Z.min a b) (Z.max a b)) by lia.
  rewrite (Z.max_r (Z.min a b) (Z.max a b)) by lia. reflexivity.
Qed.

(** With subset ids up to [46340], that is with up to [46341] subsets,
    no intermediate value of the slice computation leaves the range of
    an [int]: the computed slice is the index of the pair. *)
Lemma sliceIndex_exact S a b :
  S <= 46341 -> 0 <= a < S -> 0 <= b < S ->
  sliceIndex a b = pairIndex a b.
Proof.
  intros HS Ha Hb. unfold sliceIndex.
  pose proof (pairIndex_bounds S a b Ha Hb) as Hk.
  pose proof (half_even_product S ltac:(lia)) as ES.
  pose proof (half_even_product (Z.max a b) ltac:(lia)) as EM.
  unfold pairCount in Hk.
  rewrite (CInt.wrap_in_range (Z.max a b + 1))
    by (unfold CInt.in_range, CInt.INT_MIN, CInt.INT_MAX; lia).
  rewrite (CInt.wrap_in_range (Z.max a b * (Z.max a b + 1)))
    by (unfold CInt.in_range, CInt.INT_MIN, CInt.INT_MAX; nia).
  apply CInt.wrap_in_range.
  unfold CInt.in_range, CInt.INT_MIN, CInt.INT_MAX.
  change (Z.max a b * (Z.max a b + 1) ÷ 2 + Z.min a b) with (pairIndex a b).
  nia.
Qed.

(** The number of slices needs the product [S*(S+1)] itself: it is
    the number of pairs up to [46340] subsets. *)
Lemma numSlices_exact S : 0 <= S <= 46340 -> numSlices S = pairCount S.
Proof.
  intros HS. unfold numSlices, pairCount.
  rewrite (CInt.wrap_in_range (S + 1))
    by (unfold CInt.in_range, CInt.INT_MIN, CInt.INT_MAX; lia).
  rewrite (CInt.wrap_in_range (S * (S + 1)))
    by (unfold CInt.in_range, CInt.INT_MIN, CInt.INT_MAX; nia).
  reflexivity.
Qed.

Lemma sliceIndex_bounds S a b :
  S <= 46340 -> 0 <= a < S -> 0 <= b < S -> 0 <= sliceIndex a b < numSlices S.
Proof.
  intros HS Ha Hb.
  rewrite (sliceIndex_exact S a b) by lia. rewrite numSlices_exact by lia.
  apply pairIndex_bounds; assumption.
Qed.


(** What C2 says of the slice index map for [S] subsets: it is
    symmetric, sends the pairs of subset ids below [S] into
    [[0, S*(S+1)/2)], takes the same value on two pairs only when they
    are the same unordered pair, and reaches every index of that
    range. *)
Definition pairs_onto_slices (S : Z) : Prop :=
  (forall i j, sliceIndex i j = sliceIndex j i) /\
  (forall i j, 0 <= i < S -> 0 <= j < S -> 0 <= sliceIndex i j < pairCount S) /\
  (forall i j i' j', 0 <= i < S -> 0 <= j < S -> 0 <= i' < S -> 0 <= j' < S ->
     sliceIndex i j = sliceIndex i' j' ->
     Z.min i j = Z.min i' j' /\ Z.max i j = Z.max i' j') /\
  (forall k, 0 <= k < pairCount S ->
     exists i j, 0 <= i < S /\ 0 <= j < S /\ sliceIndex i j = k).

(** C2, as the code has it.  For every subset count [S] from [1] to
    [46341] the slice index map, computed in [int] as the code computes
    it, is symmetric and a bijection between the unordered pairs of
    [[0, S)] and [[0, S*(S+1)/2)]; and up to [46340] subsets the
    number of slices the code computes is the number [S*(S+1)/2] of
    these pairs. *)
Theorem sliceIndex_bijection (S : Z) (HS : 1 <= S <= 46341) :
  pairs_onto_slices S /\ (S <= 46340 -> numSlices S = pairCount S).
Proof.
  split; [|intros H; apply numSlices_exact; lia].
  split; [exact sliceIndex_sym|].
  split; [|split].
  - intros i j Hi Hj. rewrite (sliceIndex_exact S) by lia.
    apply pairIndex_bounds; assumption.
  - intros i j i' j' Hi Hj Hi' Hj' E.
    rewrite (sliceIndex_exact S i j), (sliceIndex_exact S i' j') in E by lia.
    apply (pairIndex_inj S); assumption.
  - intros k Hk.
    destruct (pairIndex_onto S k ltac:(lia) Hk) as (i & j & Hij & Hj & E).
    exists i, j. rewrite (sliceIndex_exact S) by lia. repeat split; lia || exact E.
Qed.

Lemma sliceIndex_bijection_witness :
  pairs_onto_slices 3 /\ (3 <= 46340 -> numSlices 3 = pairCount 3).
Proof. apply (sliceIndex_bijection 3). lia. Defined.

(** C2 as the specification words it, for every [S >= 1], does not
    hold of the [int] expression.  With [46342] subsets the product
    [46341*46342] is past [INT_MAX] and the pair [(0, 46341)] gets a
    negative slice; with [65537] subsets the pairs [(0, 65536)] and
    [(128, 255)] get the same slice. *)
Lemma sliceIndex_bijection_counterexample :
  1 <= 46342 /\ sliceIndex 0 46341 = -1073716337 /\ ~ pairs_onto_slices 46342 /\
  1 <= 65537 /\ sliceIndex 0 65536 = 32768 /\ sliceIndex 128 255 = 32768 /\
  ~ pairs_onto_slices 65537.
Proof.
  assert (E1 : sliceIndex 0 46341 = -1073716337) by (vm_compute; reflexivity).
  assert (E2 : sliceIndex 0 65536 = 32768) by (vm_compute; reflexivity).
  assert (E3 : sliceIndex 128 255 = 32768) by (vm_compute; reflexivity).
  split; [lia|]. split; [exact E1|]. split.
  { intros (_ & B & _). specialize (B 0 46341 ltac:(lia) ltac:(lia)). lia. }
  split; [lia|]. split; [exact E2|]. split; [exact E3|].
  intros (_ & _ & I & _).
  destruct (I 0 65536 128 255) as [Hmin _]; lia.
Qed.

End SliceIndexMap.

(** ** Legal FFT grid sizes

    [OpenCLVkFFT3D::findLegalDimension(minimum, maxPrimeFactor)]:

      if (minimum < 1) return 1;
      while (true) {
          int unfactored = minimum;
          for (int factor = 2; factor <= maxPrimeFactor; factor++)
              while (unfactored > 1 && unfactored%factor == 0)
                  unfactored /= factor;
          if (unfactored == 1) return minimum;
          minimum++;
      }                                                                *)

Module OpenCLVkFFT3D.

(** The innermost [while]: divide [factor] out of [unfactored].  The
    loop runs at most [unfactored] times when [factor >= 2]
    ([divideOut_exit]), which is the fuel [stripFactor] gives it; with
    [unfactored <= 1] it does not run at all. *)
Fixpoint divideOut (fuel : nat) (unfactored factor : Z) : Z :=
  match fuel with
  | O => unfactored
  | S fuel' =>
      if (1 <? unfactored) && (Z.rem unfactored factor =? 0)
      then divideOut fuel' (Z.quot unfactored factor) factor
      else unfactored
  end.

Definition stripFactor (unfactored factor : Z) : Z :=
  divideOut (Z.to_nat unfactored) unfactored factor.

(** The [for] loop over [factor]: test, body, [factor++], for [fuel]
    rounds; [None] when they did not reach the exit of the loop.  The
    counter is an [int]: one step past [INT_MAX] it is [INT_MIN]. *)
Fixpoint forFactors (fuel : nat) (factor unfactored maxPrimeFactor : Z) : option Z :=
  match fuel with
  | O => None
  | S fuel' =>
      if factor <=? maxPrimeFactor
      then forFactors fuel' (CInt.wrap (factor + 1)) (stripFactor unfactored factor)
                      maxPrimeFactor
      else Some unfactored
  end.

(** The value of [unfactored] after the [for] loop.  When the test
    [factor <= maxPrimeFactor] can fail it fails in round
    [maxPrimeFactor] at the latest (in the first round when
    [maxPrimeFactor < 2]), and this is the fuel the loop gets
    ([unfactoredPart_residue]).  With [maxPrimeFactor = INT_MAX] no
    [int] fails the test and the loop has no exit ([forFactors_no_exit]):
    the result is [None]. *)
Definition unfactoredPart (minimum maxPrimeFactor : Z) : option Z :=
  forFactors (Z.to_nat (Z.max 1 maxPrimeFactor)) 2 minimum maxPrimeFactor.

(** The [while (true)] loop; [None] when [fuel] rounds did not reach a
    [return], or when the [for] loop of a round does not end.
    [minimum++] is on an [int]. *)
Fixpoint search (fuel : nat) (minimum maxPrimeFactor : Z) : option Z :=
  match fuel with
  | O => None
  | S fuel' =>
      match unfactoredPart minimum maxPrimeFactor with
      | None => None
      | Some unfactored =>
          if unfactored =? 1
          then Some minimum
          else search fuel' (CInt.wrap (minimum + 1)) maxPrimeFactor
      end
  end.

Definition findLegalDimension (fuel : nat) (minimum maxPrimeFactor : Z) : option Z :=
  if minimum <? 1 then Some 1 else search fuel minimum maxPrimeFactor.

(** A legal size: no prime factor above [maxPrimeFactor]. *)
Definition legal (maxPrimeFactor n : Z) : Prop :=
  forall p, Z.prime p -> (p | n) -> p <= maxPrimeFactor.

Example findLegalDimension_100 : findLegalDimension 1 100 7 = Some 100.
Proof. vm_compute. reflexivity. Qed.

Example findLegalDimension_101 : findLegalDimension 5 101 7 = Some 105.
Proof. vm_compute. reflexivity. Qed.

Example findLegalDimension_101_5 : findLegalDimension 8 101 5 = Some 108.
Proof. vm_compute. reflexivity. Qed.

Example findLegalDimension_nonpositive : findLegalDimension 0 (-5) 7 = Some 1.
Proof. reflexivity. Qed.

(** *** The inner loop *)

Lemma rem_zero_divide u f : 0 < f -> (Z.rem u f = 0 <-> (f | u)).
Proof. intros Hf. apply Z.rem_divide. lia. Qed.

Lemma quot_of_multiple u f : 0 < f -> (f | u) -> u = f * Z.quot u f.
Proof.
  intros Hf [k ->]. rewrite Z.quot_mul by lia. ring.
Qed.

Lemma divideOut_props fuel : forall u f,
  2 <= f -> 1 <= u ->
  let r := divideOut fuel u f in
  1 <= r <= u /\ (r | u) /\
  (forall p, Z.prime p -> (p | u) -> (p | r) \/ (p | f)) /\
  ((Z.to_nat u <= fuel)%nat -> r = 1 \/ ~ (f | r)).
Proof.
  induction fuel as [|fuel IH]; intros u f Hf Hu; simpl.
  - repeat split; try lia; auto using Z.divide_refl.
  - destruct ((1 <? u) && (Z.rem u f =? 0)) eqn:C.
    + apply andb_true_iff in C as [C1 C2].
      apply Z.ltb_lt in C1. apply Z.eqb_eq in C2.
      apply rem_zero_divide in C2; [|lia].
      pose proof (quot_of_multiple u f ltac:(lia) C2) as Eq.
      assert (Hq : 1 <= Z.quot u f < u) by nia.
      destruct (IH (Z.quot u f) f Hf ltac:(lia)) as (Hr & Hd & Hp & Hx).
      repeat split; try lia.
      * apply Z.divide_trans with (Z.quot u f); [exact Hd|].
        exists f. lia.
      * intros p Pp Hpu. rewrite Eq in Hpu.
        apply (Z.divide_prime_mul _ _ _ Pp) in Hpu.
        destruct Hpu as [Hpf|Hpq]; [right; exact Hpf|].
        apply Hp; assumption.
      * intros Hfuel. apply Hx. lia.
    + repeat split; try lia; auto using Z.divide_refl.
      intros _. apply andb_false_iff in C as [C|C].
      * apply Z.ltb_ge in C. left. lia.
      * apply Z.eqb_neq in C. right. intros D. apply C.
        apply rem_zero_divide; [lia|exact D].
Qed.

Lemma stripFactor_props u f :
  2 <= f -> 1 <= u ->
  1 <= stripFactor u f <= u /\ (stripFactor u f | u) /\
  (forall p, Z.prime p -> (p | u) -> (p | stripFactor u f) \/ (p | f)) /\
  (stripFactor u f = 1 \/ ~ (f | stripFactor u f)).
Proof.
  intros Hf Hu. unfold stripFactor.
  destruct (divideOut_props (Z.to_nat u) u f Hf Hu) as (H1 & H2 & H3 & H4).
  repeat split; try lia; auto.
Qed.

(** The source's loop has left when [stripFactor] returns: its
    condition is false on the result. *)
Lemma divideOut_exit u f :
  2 <= f -> 1 <= u ->
  (1 <? stripFactor u f) && (Z.rem (stripFactor u f) f =? 0) = false.
Proof.
  intros Hf Hu.
  destruct (stripFactor_props u f Hf Hu) as (H1 & _ & _ & [E|N]).
  - rewrite E. reflexivity.
  - apply andb_false_iff. right. apply Z.eqb_neq. intros R. apply N.
    apply rem_zero_divide; [lia|exact R].
Qed.

(** *** Prime divisors *)

Lemma small_divisor_or_none n (k : nat) :
  (exists d, 1 < d < Z.of_nat k /\ (d | n)) \/
  (forall d, 1 < d < Z.of_nat k -> ~ (d | n)).
Proof.
  induction k as [|k [(d & Hd & Hdn)|IH]].
  - right. intros d Hd. lia.
  - left. exists d. split; [lia|exact Hdn].
  - destruct (Z.BoolSpec_divide (Z.of_nat k) n) as [D|D].
    + destruct (Z_lt_dec 1 (Z.of_nat k)) as [Hk|Hk].
      * left. exists (Z.of_nat k). split; [lia|exact D].
      * right. intros d Hd. lia.
    + right. intros d Hd.
      destruct (Z.eq_dec d (Z.of_nat k)) as [->|Hne]; [exact D|].
      apply IH. lia.
Qed.

Lemma prime_divisor_exists_nat (m : nat) : forall n,
  1 < n -> (Z.to_nat n <= m)%nat -> exists p, Z.prime p /\ (p | n).
Proof.
  induction m as [|m IH]; intros n Hn Hm; [lia|].
  destruct (small_divisor_or_none n (Z.to_nat n)) as [(d & Hd & Hdn)|Hnone].
  - destruct (IH d ltac:(lia) ltac:(lia)) as (p & Pp & Hpd).
    exists p. split; [exact Pp|]. apply Z.divide_trans with d; assumption.
  - exists n. split; [|apply Z.divide_refl].
    split; [exact Hn|]. intros d Hd. apply Hnone. lia.
Qed.

Lemma prime_divisor_exists n : 1 < n -> exists p, Z.prime p /\ (p | n).
Proof. intros Hn. apply (prime_divisor_exists_nat (Z.to_nat n)); lia. Qed.

Lemma legal_1 mpf : legal mpf 1.
Proof.
  intros p Pp Hp. pose proof (Z.prime_ge_2 p Pp).
  apply Z.divide_1_r in Hp. lia.
Qed.

Lemma legal_pow2 mpf k : 2 <= mpf -> 0 <= k -> legal mpf (2 ^ k).
Proof.
  intros Hm Hk p Pp Hp.
  apply (Z.divide_prime_pp p 2 k Pp Z.prime_2 Hk) in Hp. lia.
Qed.


Lemma stripFactor_small u f : u <= 1 -> stripFactor u f = u.
Proof.
  intros Hu. unfold stripFactor.
  destruct (Z.to_nat u) as [|n] eqn:E; [reflexivity|].
  simpl. assert (u = 1) by lia. subst u. reflexivity.
Qed.

(** *** The [for] loop: what is left of [n] after the trial divisions *)

(** [count] rounds of the body of the [for] loop, from [factor] on,
    and what is left of [n] after the rounds for the factors
    [2 .. maxPrimeFactor]. *)
Fixpoint trialDivisions (count : nat) (factor unfactored : Z) : Z :=
  match count with
  | O => unfactored
  | S count' => trialDivisions count' (factor + 1) (stripFactor unfactored factor)
  end.

Definition residue (n maxPrimeFactor : Z) : Z :=
  trialDivisions (Z.to_nat (maxPrimeFactor - 1)) 2 n.

(** The [for] loop ends when [maxPrimeFactor] is below [INT_MAX], with
    these rounds behind it. *)
Lemma forFactors_trialDivisions mpf (count : nat) : forall (fuel : nat) f u,
  mpf < CInt.INT_MAX -> 2 <= f -> f + Z.of_nat count = mpf + 1 ->
  (count < fuel)%nat ->
  forFactors fuel f u mpf = Some (trialDivisions count f u).
Proof.
  induction count as [|count IH]; intros fuel f u Hmpf Hf Hc Hfuel;
    (destruct fuel as [|fuel]; [lia|]); cbn [forFactors trialDivisions].
  - destruct (Z.leb_spec f mpf); [lia|reflexivity].
  - destruct (Z.leb_spec f mpf); [|lia].
    rewrite CInt.wrap_in_range
      by (unfold CInt.in_range, CInt.INT_MIN, CInt.INT_MAX in *; lia).
    apply IH; lia.
Qed.

Lemma unfactoredPart_residue n mpf :
  mpf < CInt.INT_MAX -> unfactoredPart n mpf = Some (residue n mpf).
Proof.
  intros Hmpf. unfold unfactoredPart, residue.
  destruct (Z_lt_dec mpf 2) as [Hsmall|Hbig].
  - replace (Z.to_nat (Z.max 1 mpf)) with 1%nat by lia.
    replace (Z.to_nat (mpf - 1)) with 0%nat by lia.
    cbn [forFactors trialDivisions].
    destruct (Z.leb_spec 2 mpf); [lia|reflexivity].
  - apply forFactors_trialDivisions; lia.
Qed.

(** With [maxPrimeFactor = INT_MAX] the test of the [for] loop holds
    of every [int]: whatever the fuel, the loop has not ended. *)
Lemma forFactors_no_exit mpf (fuel : nat) : forall f u,
  CInt.INT_MAX <= mpf -> f <= CInt.INT_MAX -> forFactors fuel f u mpf = None.
Proof.
  induction fuel as [|fuel IH]; intros f u Hmpf Hf; [reflexivity|].
  cbn [forFactors]. destruct (Z.leb_spec f mpf); [|lia].
  apply IH; [exact Hmpf|]. apply CInt.wrap_range.
Qed.

Lemma unfactoredPart_no_exit n mpf :
  CInt.INT_MAX <= mpf -> unfactoredPart n mpf = None.
Proof.
  intros Hmpf. apply forFactors_no_exit; [exact Hmpf|].
  unfold CInt.INT_MAX. lia.
Qed.

Lemma unfactoredPart_Some n mpf u :
  unfactoredPart n mpf = Some u -> mpf < CInt.INT_MAX /\ u = residue n mpf.
Proof.
  intros Hu. destruct (Z_lt_dec mpf CInt.INT_MAX) as [Hlt|Hge].
  - rewrite (unfactoredPart_residue n mpf Hlt) in Hu. split; [exact Hlt|congruence].
  - rewrite unfactoredPart_no_exit in Hu by lia. discriminate.
Qed.

(** Nothing is divided out of a number below [2]. *)
Lemma trialDivisions_small (count : nat) : forall f u,
  u <= 1 -> trialDivisions count f u = u.
Proof.
  induction count as [|count IH]; intros f u Hu; [reflexivity|].
  cbn [trialDivisions]. rewrite stripFactor_small by exact Hu. apply IH. exact Hu.
Qed.

Lemma residue_small n mpf : n <= 1 -> residue n mpf = n.
Proof. apply trialDivisions_small. Qed.

Lemma trialDivisions_props n mpf count : forall f u,
  2 <= f -> f + Z.of_nat count <= mpf + 1 ->
  1 <= u -> (u | n) ->
  (forall p, Z.prime p -> (p | n) -> (p | u) \/ p <= mpf) ->
  (u = 1 \/ forall g, 2 <= g < f -> ~ (g | u)) ->
  let r := trialDivisions count f u in
  1 <= r /\ (r | n) /\
  (forall p, Z.prime p -> (p | n) -> (p | r) \/ p <= mpf) /\
  (r = 1 \/ forall g, 2 <= g < f + Z.of_nat count -> ~ (g | r)).
Proof.
  induction count as [|count IH]; intros f u Hf Hc Hu Hun Hleg Hno; simpl.
  - repeat split; auto. destruct Hno as [->|Hno]; [left; reflexivity|right].
    intros g Hg. apply Hno. lia.
  - destruct (stripFactor_props u f Hf Hu) as (Hs1 & Hsu & Hsp & Hsx).
    specialize (IH (f + 1) (stripFactor u f)).
    destruct IH as (R1 & R2 & R3 & R4); try lia.
    + apply Z.divide_trans with u; assumption.
    + intros p Pp Hpn. destruct (Hleg p Pp Hpn) as [Hpu|Hle]; [|right; exact Hle].
      destruct (Hsp p Pp Hpu) as [Hps|Hpf]; [left; exact Hps|right].
      apply Z.divide_pos_le in Hpf; lia.
    + destruct Hsx as [E|Hnf]; [left; exact E|].
      destruct Hno as [->|Hno].
      { left. lia. }
      right. intros g Hg Hgs.
      destruct (Z.eq_dec g f) as [->|Hne]; [exact (Hnf Hgs)|].
      apply (Hno g ltac:(lia)). apply Z.divide_trans with (stripFactor u f); assumption.
    + repeat split; auto. destruct R4 as [E|R4]; [left; exact E|right].
      intros g Hg. apply R4. lia.
Qed.

(** The test of the outer loop decides legality. *)
Lemma residue_legal n mpf :
  1 <= n -> (residue n mpf = 1 <-> legal mpf n).
Proof.
  intros Hn. unfold residue.
  destruct (Z_lt_dec mpf 2) as [Hsmall|Hbig].
  - replace (Z.to_nat (mpf - 1)) with 0%nat by lia. simpl. split.
    + intros ->. apply legal_1.
    + intros L. destruct (Z.eq_dec n 1) as [E|Hne]; [exact E|exfalso].
      destruct (prime_divisor_exists n ltac:(lia)) as (p & Pp & Hp).
      pose proof (L p Pp Hp). pose proof (Z.prime_ge_2 p Pp). lia.
  - destruct (trialDivisions_props n mpf (Z.to_nat (mpf - 1)) 2 n) as (R1 & R2 & R3 & R4);
      try lia; auto using Z.divide_refl.
    { right. intros g Hg. lia. }
    split.
    + intros E p Pp Hp. destruct (R3 p Pp Hp) as [Hpr|Hle]; [|exact Hle].
      rewrite E in Hpr. pose proof (Z.prime_ge_2 p Pp).
      apply Z.divide_1_r in Hpr. lia.
    + intros L.
      set (r := trialDivisions (Z.to_nat (mpf - 1)) 2 n) in *.
      destruct R4 as [E|R4]; [exact E|].
      destruct (Z.eq_dec r 1) as [E|Hne]; [exact E|exfalso].
      destruct (prime_divisor_exists r ltac:(lia)) as (p & Pp & Hp).
      pose proof (Z.prime_ge_2 p Pp).
      assert (Hpn : (p | n)) by (apply Z.divide_trans with r; assumption).
      pose proof (L p Pp Hpn).
      apply (R4 p); [lia|exact Hp].
Qed.

(** *** The outer loop *)

Lemma search_round fuel m mpf :
  mpf < CInt.INT_MAX ->
  search (S fuel) m mpf =
    if residue m mpf =? 1 then Some m else search fuel (CInt.wrap (m + 1)) mpf.
Proof.
  intros Hmpf. cbn [search]. rewrite unfactoredPart_residue by exact Hmpf. reflexivity.
Qed.

(** Over sizes that do not pass the test the search runs on, as long
    as it has fuel and the counter stays below [INT_MAX]. *)
Lemma search_skip mpf (n : nat) : forall (fuel : nat) m,
  mpf < CInt.INT_MAX -> CInt.INT_MIN <= m -> m + Z.of_nat n <= CInt.INT_MAX ->
  (forall k, m <= k < m + Z.of_nat n -> residue k mpf <> 1) ->
  search fuel m mpf =
    if (fuel <=? n)%nat then None else search (fuel - n) (m + Z.of_nat n) mpf.
Proof.
  induction n as [|n IH]; intros fuel m Hmpf Hlo Hhi Hfail.
  - destruct fuel as [|fuel]; [reflexivity|].
    cbn [Nat.leb]. rewrite Nat.sub_0_r. f_equal. lia.
  - destruct fuel as [|fuel]; [reflexivity|].
    rewrite search_round by exact Hmpf.
    destruct (Z.eqb_spec (residue m mpf) 1) as [E|_].
    { exfalso. apply (Hfail m); [lia|exact E]. }
    rewrite CInt.wrap_in_range
      by (unfold CInt.in_range, CInt.INT_MIN, CInt.INT_MAX in *; lia).
    rewrite (IH fuel (m + 1)); try lia.
    + cbn [Nat.leb Nat.sub]. replace (m + 1 + Z.of_nat n) with (m + Z.of_nat (S n)) by lia.
      reflexivity.
    + intros k Hk. apply Hfail. lia.
Qed.

(** The search returns the first size at or above [m] that passes the
    test, as soon as the fuel reaches it, and nothing else. *)
Lemma search_first fuel m mpf t :
  mpf < CInt.INT_MAX -> CInt.INT_MIN <= m -> m <= t <= CInt.INT_MAX ->
  residue t mpf = 1 ->
  (forall k, m <= k < t -> residue k mpf <> 1) ->
  search fuel m mpf = if (fuel <=? Z.to_nat (t - m))%nat then None else Some t.
Proof.
  intros Hmpf Hlo Ht Et Hfail.
  rewrite (search_skip mpf (Z.to_nat (t - m)) fuel m); try lia.
  2:{ intros k Hk. apply Hfail. lia. }
  destruct (Nat.leb_spec fuel (Z.to_nat (t - m))) as [|Hlt]; [reflexivity|].
  destruct (fuel - Z.to_nat (t - m))%nat as [|rest] eqn:E; [lia|].
  rewrite search_round by exact Hmpf.
  replace (m + Z.of_nat (Z.to_nat (t - m))) with t by lia.
  rewrite Et. reflexivity.
Qed.

(** A search that runs out of sizes below [INT_MAX] goes on from
    [INT_MIN], through the sizes below [1], which the test refuses, and
    returns [1]. *)
Lemma search_wraps fuel m mpf :
  mpf < CInt.INT_MAX -> 1 <= m <= CInt.INT_MAX ->
  (forall k, m <= k <= CInt.INT_MAX -> residue k mpf <> 1) ->
  search fuel m mpf =
    if (fuel <=? Z.to_nat (4294967297 - m))%nat then None else Some 1.
Proof.
  intros Hmpf Hm Hfail. unfold CInt.INT_MAX in *.
  rewrite (search_skip mpf (Z.to_nat (2147483647 - m)) fuel m);
    unfold CInt.INT_MIN, CInt.INT_MAX; try lia.
  2:{ intros k Hk. apply Hfail. lia. }
  replace (m + Z.of_nat (Z.to_nat (2147483647 - m))) with 2147483647 by lia.
  destruct (Nat.leb_spec fuel (Z.to_nat (2147483647 - m))) as [Hle|Hlt].
  { destruct (Nat.leb_spec fuel (Z.to_nat (4294967297 - m))); [reflexivity|lia]. }
  destruct (fuel - Z.to_nat (2147483647 - m))%nat as [|rest] eqn:E; [lia|].
  rewrite search_round by exact Hmpf.
  destruct (Z.eqb_spec (residue 2147483647 mpf) 1) as [E1|_].
  { exfalso. apply (Hfail 2147483647); [lia|exact E1]. }
  change (CInt.wrap (2147483647 + 1)) with (-2147483648).
  rewrite (search_first rest (-2147483648) mpf 1);
    unfold CInt.INT_MIN, CInt.INT_MAX; try lia.
  - destruct (Nat.leb_spec rest (Z.to_nat (1 - -2147483648)));
      destruct (Nat.leb_spec fuel (Z.to_nat (4294967297 - m))); try reflexivity; lia.
  - apply residue_small. lia.
  - intros k Hk. rewrite residue_small by lia. lia.
Qed.

(** What a result of the search is. *)
Lemma search_Some (fuel : nat) : forall m mpf r,
  search fuel m mpf = Some r -> CInt.in_range m ->
  mpf < CInt.INT_MAX /\ CInt.in_range r /\ residue r mpf = 1 /\
  ((m <= r /\ forall k, m <= k < r -> residue k mpf <> 1) \/
   (r < m /\ (forall k, m <= k <= CInt.INT_MAX -> residue k mpf <> 1) /\
    forall k, CInt.INT_MIN <= k < r -> residue k mpf <> 1)).
Proof.
  induction fuel as [|fuel IH]; intros m mpf r H Hm; [discriminate|].
  cbn [search] in H.
  destruct (unfactoredPart m mpf) as [u|] eqn:Eu; [|discriminate].
  apply unfactoredPart_Some in Eu as [Hmpf ->].
  split; [exact Hmpf|].
  destruct (Z.eqb_spec (residue m mpf) 1) as [E|NE].
  - injection H as <-. split; [exact Hm|]. split; [exact E|].
    left. split; [lia|]. intros k Hk. lia.
  - destruct (IH _ _ _ H (CInt.wrap_range _)) as (_ & Hr & Er & Hcases).
    split; [exact Hr|]. split; [exact Er|].
    unfold CInt.in_range, CInt.INT_MIN, CInt.INT_MAX in *.
    destruct (Z.eq_dec m 2147483647) as [->|Hne].
    + change (CInt.wrap (2147483647 + 1)) with (-2147483648) in Hcases.
      right. destruct Hcases as [[_ Hfail]|[Hlt _]]; [|lia].
      assert (r <> 2147483647) by (intros ->; contradiction).
      split; [lia|]. split; [|exact Hfail].
      intros k Hk. replace k with 2147483647 by lia. exact NE.
    + rewrite CInt.wrap_in_range in Hcases
        by (unfold CInt.in_range, CInt.INT_MIN, CInt.INT_MAX; lia).
      assert (r <> m) by (intros ->; contradiction).
      destruct Hcases as [[Hle Hfail]|(Hlt & Hhigh & Hlow)].
      * left. split; [lia|]. intros k Hk.
        destruct (Z.eq_dec k m) as [->|Hk']; [exact NE|]. apply Hfail. lia.
      * right. split; [lia|]. split; [|exact Hlow].
        intros k Hk. destruct (Z.eq_dec k m) as [->|Hk']; [exact NE|]. apply Hhigh. lia.
Qed.

(** Among finitely many candidates there is a first that passes. *)
Lemma first_passing mpf (n : nat) : forall m,
  residue (m + Z.of_nat n) mpf = 1 ->
  exists t, m <= t <= m + Z.of_nat n /\ residue t mpf = 1 /\
            forall k, m <= k < t -> residue k mpf <> 1.
Proof.
  induction n as [|n IH]; intros m H.
  - exists m. replace (m + Z.of_nat 0) with m in H by lia.
    split; [lia|split; [exact H|]]. intros k Hk. lia.
  - destruct (Z.eq_dec (residue m mpf) 1) as [E|NE].
    + exists m. split; [lia|split; [exact E|]]. intros k Hk. lia.
    + destruct (IH (m + 1)) as (t & Ht & Et & Hb).
      { replace (m + 1 + Z.of_nat n) with (m + Z.of_nat (S n)) by lia. exact H. }
      exists t. split; [lia|split; [exact Et|]].
      intros k Hk. destruct (Z.eq_dec k m) as [->|Hne]; [exact NE|].
      apply Hb. lia.
Qed.

(** A power of two lies in [[m, 2m)]. *)
Lemma pow2_above m : 1 <= m -> exists k, 0 <= k /\ m <= 2 ^ k < 2 * m.
Proof.
  intros Hm. destruct (Z.eq_dec m 1) as [->|Hne].
  - exists 0. simpl. lia.
  - pose proof (Z.log2_up_spec m ltac:(lia)) as [Hlo Hhi].
    pose proof (Z.log2_up_pos m ltac:(lia)) as Hpos.
    exists (Z.log2_up m). split; [lia|]. split; [exact Hhi|].
    replace (Z.log2_up m) with (Z.succ (Z.pred (Z.log2_up m))) by lia.
    rewrite Z.pow_succ_r by lia. lia.
Qed.

Lemma legal_target m mpf :
  1 <= m -> 2 <= mpf \/ m = 1 ->
  exists T, m <= T < 2 * m /\ legal mpf T.
Proof.
  intros Hm [Hmpf| ->].
  - destruct (pow2_above m Hm) as (k & Hk & Hb).
    exists (2 ^ k). split; [exact Hb|]. apply legal_pow2; assumption.
  - exists 1. split; [lia|]. apply legal_1.
Qed.

(** The smallest legal size in a range that holds one. *)
Lemma first_legal minimum mpf m :
  1 <= minimum <= m -> legal mpf m ->
  exists t, minimum <= t <= m /\ residue t mpf = 1 /\
            forall k, minimum <= k < t -> residue k mpf <> 1.
Proof.
  intros Hm L. apply residue_legal in L; [|lia].
  destruct (first_passing mpf (Z.to_nat (m - minimum)) minimum) as (t & Ht & Et & Hb).
  { rewrite Z2Nat.id by lia. replace (minimum + (m - minimum)) with m by ring. exact L. }
  rewrite Z2Nat.id in Ht by lia. exists t. split; [lia|]. split; assumption.
Qed.

Lemma findLegalDimension_general (minimum maxPrimeFactor : Z) :
  1 <= minimum -> maxPrimeFactor < CInt.INT_MAX ->
  (exists m, minimum <= m <= CInt.INT_MAX /\ legal maxPrimeFactor m) ->
  exists r,
    (forall fuel, (Z.to_nat (r - minimum) < fuel)%nat ->
       findLegalDimension fuel minimum maxPrimeFactor = Some r) /\
    (forall fuel r',
       findLegalDimension fuel minimum maxPrimeFactor = Some r' -> r' = r) /\
    minimum <= r <= CInt.INT_MAX /\ legal maxPrimeFactor r /\
    (forall m, minimum <= m -> legal maxPrimeFactor m -> r <= m).
Proof.
  intros Hmin Hmpf (T & HT & LT).
  destruct (first_legal minimum maxPrimeFactor T ltac:(lia) LT) as (t & Ht & Et & Hb).
  assert (Hnot : (minimum <? 1) = false) by (apply Z.ltb_ge; lia).
  assert (Hsearch : forall fuel,
            search fuel minimum maxPrimeFactor =
              if (fuel <=? Z.to_nat (t - minimum))%nat then None else Some t).
  { intros fuel. apply search_first; try assumption; unfold CInt.INT_MIN; lia. }
  exists t. unfold findLegalDimension. rewrite Hnot.
  split; [|split; [|split; [lia|split]]].
  - intros fuel Hfuel. rewrite Hsearch.
    destruct (Nat.leb_spec fuel (Z.to_nat (t - minimum))); [lia|reflexivity].
  - intros fuel r'. rewrite Hsearch.
    destruct (fuel <=? Z.to_nat (t - minimum))%nat; [discriminate|congruence].
  - apply residue_legal; [lia|exact Et].
  - intros m Hm Lm. destruct (Z_lt_dec m t) as [Hlt|Hge]; [exfalso|lia].
    apply (Hb m); [lia|]. apply residue_legal; [lia|exact Lm].
Qed.

(** Up to [minimum = 2^30] a legal size is in reach: a power of two
    below [2*minimum]. *)
Lemma legal_in_reach minimum maxPrimeFactor :
  1 <= minimum <= 2 ^ 30 -> 2 <= maxPrimeFactor ->
  exists m, minimum <= m < 2 * minimum /\ m <= CInt.INT_MAX /\ legal maxPrimeFactor m.
Proof.
  intros Hmin Hmpf.
  destruct (legal_target minimum maxPrimeFactor ltac:(lia) (or_introl Hmpf)) as (T & HT & LT).
  exists T. split; [exact HT|]. split; [|exact LT].
  change (2 ^ 30) with 1073741824 in Hmin. unfold CInt.INT_MAX. lia.
Qed.

(** When no size from [minimum] to [INT_MAX] is legal, the counter
    wraps around and the function returns [1]. *)
Lemma findLegalDimension_wraps (minimum maxPrimeFactor : Z) :
  1 <= minimum <= CInt.INT_MAX -> maxPrimeFactor < CInt.INT_MAX ->
  (forall m, minimum <= m <= CInt.INT_MAX -> ~ legal maxPrimeFactor m) ->
  forall fuel, (Z.to_nat (4294967297 - minimum) < fuel)%nat ->
    findLegalDimension fuel minimum maxPrimeFactor = Some 1.
Proof.
  intros Hmin Hmpf Hnone fuel Hfuel. unfold findLegalDimension.
  destruct (Z.ltb_spec minimum 1); [lia|].
  rewrite search_wraps; try assumption.
  - destruct (Nat.leb_spec fuel (Z.to_nat (4294967297 - minimum))); [lia|reflexivity].
  - intros k Hk E. apply (Hnone k Hk). apply residue_legal; [lia|exact E].
Qed.

(** [INT_MAX = 2^31 - 1] has no divisor from [2] to [7]. *)
Lemma INT_MAX_not_legal_7 : ~ legal 7 2147483647.
Proof.
  intros L.
  destruct (prime_divisor_exists 2147483647 ltac:(lia)) as (p & Pp & Hp).
  pose proof (L p Pp Hp) as Hle. pose proof (Z.prime_ge_2 p Pp) as Hge.
  apply Z.mod_divide in Hp; [|lia].
  assert (Hcases : p = 2 \/ p = 3 \/ p = 4 \/ p = 5 \/ p = 6 \/ p = 7) by lia.
  destruct Hcases as [->|[->|[->|[->|[->| ->]]]]]; vm_compute in Hp; discriminate.
Qed.

(** C3, as the code has it.  For every [minimum >= 1] and every
    [maxPrimeFactor] below [INT_MAX] such that some integer from
    [minimum] to [INT_MAX] has no prime factor above [maxPrimeFactor],
    [findLegalDimension] returns the smallest integer at or above
    [minimum] all of whose prime factors are at most [maxPrimeFactor];
    there is such an integer whenever [maxPrimeFactor >= 2] and
    [minimum <= 2^30].  In particular [findLegalDimension(100, 7)] is
    [100] and [findLegalDimension(101, 7)] is [105 = 3*5*7].  When there
    is no such integer, the counter passes [INT_MAX] and the function
    returns [1]. *)
Theorem findLegalDimension_smallest_legal :
  (forall minimum maxPrimeFactor : Z,
     1 <= minimum -> maxPrimeFactor < CInt.INT_MAX ->
     (exists m, minimum <= m <= CInt.INT_MAX /\ legal maxPrimeFactor m) ->
     exists r,
       (forall fuel, (Z.to_nat (r - minimum) < fuel)%nat ->
          findLegalDimension fuel minimum maxPrimeFactor = Some r) /\
       (forall fuel r',
          findLegalDimension fuel minimum maxPrimeFactor = Some r' -> r' = r) /\
       minimum <= r <= CInt.INT_MAX /\ legal maxPrimeFactor r /\
       (forall m, minimum <= m -> legal maxPrimeFactor m -> r <= m)) /\
  (forall minimum maxPrimeFactor : Z,
     1 <= minimum <= 2 ^ 30 -> 2 <= maxPrimeFactor ->
     exists m, minimum <= m < 2 * minimum /\ m <= CInt.INT_MAX /\
               legal maxPrimeFactor m) /\
  (forall minimum maxPrimeFactor : Z,
     1 <= minimum <= CInt.INT_MAX -> maxPrimeFactor < CInt.INT_MAX ->
     (forall m, minimum <= m <= CInt.INT_MAX -> ~ legal maxPrimeFactor m) ->
     forall fuel, (Z.to_nat (4294967297 - minimum) < fuel)%nat ->
       findLegalDimension fuel minimum maxPrimeFactor = Some 1) /\
  findLegalDimension 1 100 7 = Some 100 /\
  findLegalDimension 5 101 7 = Some 105.
Proof.
  split; [exact findLegalDimension_general|].
  split; [exact legal_in_reach|].
  split; [exact findLegalDimension_wraps|].
  split; vm_compute; reflexivity.
Qed.

Lemma findLegalDimension_smallest_legal_witness :
  exists r,
    (forall fuel, (Z.to_nat (r - 24) < fuel)%nat -> findLegalDimension fuel 24 7 = Some r) /\
    (forall fuel r', findLegalDimension fuel 24 7 = Some r' -> r' = r) /\
    24 <= r <= CInt.INT_MAX /\ legal 7 r /\
    (forall m, 24 <= m -> legal 7 m -> r <= m).
Proof.
  apply (proj1 findLegalDimension_smallest_legal 24 7); [lia|unfold CInt.INT_MAX; lia|].
  exists 32. split; [unfold CInt.INT_MAX; lia|].
  apply (legal_pow2 7 5); lia.
Defined.

(** C3 as the specification words it does not hold.  The smallest
    legal size from [101] with primes up to [7] is [105], not [108].
    From [INT_MAX] with primes up to [7] the next legal size is
    [2^31], which is no [int]: the code returns [1].  And with
    [maxPrimeFactor = INT_MAX] the [for] loop of the first round never
    ends: nothing is returned, even for [minimum = 1]. *)
Lemma findLegalDimension_counterexample :
  findLegalDimension 5 101 7 = Some 105 /\
  (forall fuel, findLegalDimension fuel 101 7 <> Some 108) /\
  (forall fuel, (Z.to_nat (4294967297 - 2147483647) < fuel)%nat ->
     findLegalDimension fuel 2147483647 7 = Some 1) /\
  (forall fuel, findLegalDimension fuel 1 2147483647 = None).
Proof.
  split; [vm_compute; reflexivity|]. split; [|split].
  - intros fuel H.
    destruct (findLegalDimension_general 101 7 ltac:(lia) ltac:(unfold CInt.INT_MAX; lia))
      as (r & Hr & Huniq & _).
    { exists 105. split; [unfold CInt.INT_MAX; lia|].
      apply residue_legal; [lia|]. vm_compute. reflexivity. }
    pose proof (Huniq fuel 108 H) as E1.
    pose proof (Huniq 5%nat 105 ltac:(vm_compute; reflexivity)) as E2.
    lia.
  - apply findLegalDimension_wraps; unfold CInt.INT_MAX; try lia.
    intros m Hm. replace m with 2147483647 by lia. exact INT_MAX_not_legal_7.
  - intros fuel. unfold findLegalDimension.
    destruct (Z.ltb_spec 1 1); [lia|].
    destruct fuel as [|fuel]; [reflexivity|]. cbn [search].
    rewrite unfactoredPart_no_exit; [reflexivity|]. unfold CInt.INT_MAX. lia.
Qed.

End OpenCLVkFFT3D.

(** ** Numbers and vectors *)

(** The floating-point values of the source.  [real] holds the values
    of a [double]; a [float] is kept as the [double] of the same value,
    and [rfloat] is the conversion from [double] to [float] that an
    assignment to a [float] variable or to an element of a
    [vector<float>] makes.  No law is assumed of the operations. *)
Class Scalar := {
  real : Type;
  r0 : real;                      (* 0.0 *)
  r1 : real;                      (* 1.0 *)
  radd : real -> real -> real;    (* + *)
  rmul : real -> real -> real;    (* * *)
  rneq : real -> real -> bool;    (* != *)
  rfloat : real -> real;          (* (float) x *)
  rofint : Z -> real              (* (float) n, of an int n *)
}.

(** [floatVector(v)]: the elements narrowed to [float]. *)
Definition floatVector `{Scalar} (v : list real) : list real := rfloat <$> v.


(** Rounding of an integer to [bits] significant bits, to nearest and
    to even on a tie: the value of an integer in a binary
    floating-point format (the exponent range left aside).  [chop]
    drops the [n] low bits one by one, keeping the last dropped bit
    ([guard]) and whether a bit below it was set ([sticky]); the rest is
    rounded up when more than half a unit was dropped, or exactly half
    and the rest is odd. *)
Fixpoint chop (n : nat) (p : positive) (guard sticky : bool) : positive :=
  match n with
  | O =>
      if guard && (sticky || (match p with xO _ => false | _ => true end))
      then Pos.succ p else p
  | S n' =>
      match p with
      | xO p' => chop n' p' false (sticky || guard)
      | xI p' => chop n' p' true (sticky || guard)
      | xH => p
      end
  end.

Definition round_pos (bits : nat) (p : positive) : positive :=
  Pos.shiftl_nat (chop (Pos.size_nat p - bits) p false false) (Pos.size_nat p - bits).

Definition round_to (bits : nat) (z : Z) : Z :=
  match z with
  | Z0 => Z0
  | Zpos p => Zpos (round_pos bits p)
  | Zneg p => Zneg (round_pos bits p)
  end.

(** Integer-valued floating-point numbers, used to run the model on
    concrete inputs: a [double] has 53 significant bits, a [float]
    24. *)
#[export] Instance ZScalar : Scalar := {|
  real := Z; r0 := 0; r1 := 1;
  radd := fun a b => round_to 53 (a + b);
  rmul := fun a b => round_to 53 (a * b);
  rneq := fun a b => negb (Z.eqb a b);
  rfloat := round_to 24;
  rofint := round_to 24
|}.

Example round_to_float :
  round_to 24 16777216 = 16777216 /\ round_to 24 16777217 = 16777216 /\
  round_to 24 16777219 = 16777220 /\ round_to 24 (-16785409) = -16785408 /\
  round_to 24 5 = 5 /\ round_to 24 0 = 0.
Proof. repeat split; vm_compute; reflexivity. Qed.

Module Vec.
Section Vec.
Context {A : Type}.

(** [0 <= index && index < v.size()] *)
Definition valid_index (index : Z) (v : list A) : bool :=
  (0 <=? index) && (index <? Z.of_nat (length v)).

(** [v[index]]; [None] outside the vector, where C++ leaves the
    behaviour undefined. *)
Definition get (v : list A) (index : Z) : option A :=
  if valid_index index v then v !! Z.to_nat index else None.

(** [v[index] = x]; outside the vector nothing is written. *)
Definition set (v : list A) (index : Z) (x : A) : list A :=
  if valid_index index v then <[Z.to_nat index := x]> v else v.

(** [v.size()] as an [int]. *)
Definition size (v : list A) : Z := Z.of_nat (length v).

(** [for (i = 0; i < xs.size(); i++) v[i] = xs[i];] *)
Fixpoint fill (v xs : list A) : list A :=
  match xs, v with
  | x :: xs', _ :: v' => x :: fill v' xs'
  | _, _ => v
  end.

(** [for (j = 0; j < n; j++) v[j] = f(v[j]);] *)
Fixpoint update_prefix (f : A -> A) (n : nat) (v : list A) : list A :=
  match n, v with
  | S n', x :: v' => f x :: update_prefix f n' v'
  | _, _ => v
  end.

(** Position of the first element satisfying [p], or [v.size()]:
    [std::find(...) - v.begin()]. *)
Fixpoint find_index (p : A -> bool) (v : list A) : Z :=
  match v with
  | [] => 0
  | x :: v' => if p x then 0 else 1 + find_index p v'
  end.

Lemma valid_index_spec index v :
  valid_index index v = true <-> 0 <= index < Z.of_nat (length v).
Proof. unfold valid_index. rewrite andb_true_iff, Z.leb_le, Z.ltb_lt. tauto. Qed.

Lemma length_set v index x : length (set v index x) = length v.
Proof. unfold set. destruct (valid_index index v); [apply length_insert|reflexivity]. Qed.

Lemma get_of_nat v (i : nat) : get v (Z.of_nat i) = v !! i.
Proof.
  unfold get. destruct (valid_index (Z.of_nat i) v) eqn:E.
  - rewrite Nat2Z.id. reflexivity.
  - symmetry. apply lookup_ge_None.
    destruct (Nat.le_gt_cases (length v) i) as [|Hlt]; [assumption|exfalso].
    assert (valid_index (Z.of_nat i) v = true) by (apply valid_index_spec; lia).
    congruence.
Qed.

Lemma get_Some v index x :
  get v index = Some x -> 0 <= index < Z.of_nat (length v) /\ v !! Z.to_nat index = Some x.
Proof.
  unfold get. destruct (valid_index index v) eqn:E; [|discriminate].
  apply valid_index_spec in E. auto.
Qed.

Lemma get_in_range v index :
  0 <= index < Z.of_nat (length v) -> exists x, get v index = Some x.
Proof.
  intros H. unfold get.
  assert (E : valid_index index v = true) by (apply valid_index_spec; exact H).
  rewrite E. apply lookup_lt_is_Some. lia.
Qed.

Lemma get_out_of_range v index :
  ~ (0 <= index < Z.of_nat (length v)) -> get v index = None.
Proof.
  intros H. unfold get. destruct (valid_index index v) eqn:E; [|reflexivity].
  apply valid_index_spec in E. contradiction.
Qed.

Lemma get_set_eq v index x :
  0 <= index < Z.of_nat (length v) -> get (set v index x) index = Some x.
Proof.
  intros H. unfold get, set.
  assert (E : valid_index index v = true) by (apply valid_index_spec; exact H).
  rewrite E.
  assert (E' : valid_index index (<[Z.to_nat index := x]> v) = true).
  { apply valid_index_spec. rewrite length_insert. exact H. }
  rewrite E'. apply list_lookup_insert_eq. lia.
Qed.

Lemma get_set_ne v index index' x :
  index <> index' -> get (set v index x) index' = get v index'.
Proof.
  intros Hne. unfold get, set.
  destruct (valid_index index v) eqn:E; [|reflexivity].
  unfold valid_index. rewrite length_insert.
  destruct ((0 <=? index') && (index' <? Z.of_nat (length v))) eqn:E'; [|reflexivity].
  apply andb_true_iff in E' as [E1 E2]. apply Z.leb_le in E1.
  apply valid_index_spec in E.
  apply list_lookup_insert_ne. lia.
Qed.

Lemma length_fill v xs : length (fill v xs) = length v.
Proof.
  revert v. induction xs as [|x xs IH]; intros [|y v]; simpl; auto.
Qed.

Lemma lookup_fill v xs (i : nat) :
  (length xs <= length v)%nat -> (i < length xs)%nat -> fill v xs !! i = xs !! i.
Proof.
  revert v i. induction xs as [|x xs IH]; intros [|y v] i Hl Hi; simpl in *; try lia.
  destruct i as [|i]; [reflexivity|]. simpl. apply IH; lia.
Qed.

Lemma length_update_prefix f n v : length (update_prefix f n v) = length v.
Proof.
  revert v. induction n as [|n IH]; intros [|x v]; simpl; auto.
Qed.

Lemma lookup_update_prefix f n v (i : nat) :
  (i < n)%nat -> update_prefix f n v !! i = f <$> v !! i.
Proof.
  revert v i. induction n as [|n IH]; intros [|x v] i Hi; simpl; try lia; try reflexivity.
  destruct i as [|i]; [reflexivity|]. simpl. apply IH. lia.
Qed.

End Vec.
End Vec.

(** ** The force object ([SlicedPmeForce.cpp]) *)

Module SlicedPmeForce.
Import SliceIndexMap.
Section Force.
Context `{Scalar}.

Record ParticleInfo := { charge : real; subset : Z }.

Record ExceptionInfo := { particle1 : Z; particle2 : Z; chargeProd : real }.

Record GlobalParameterInfo := { name : string; defaultValue : real }.

Record SwitchingParameterInfo :=
  { globalParamIndex : Z; subset1 : Z; subset2 : Z; slice : Z }.

Record ParticleOffsetInfo :=
  { po_parameter : Z; po_particle : Z; po_chargeScale : real }.

Record ExceptionOffsetInfo :=
  { eo_parameter : Z; eo_exception : Z; eo_chargeProdScale : real }.

(** Modelled from the spec: the constructor
    [SwitchingParameterInfo(globalParamIndex, subset1, subset2)] is
    declared in [SlicedPmeForce.h], which is not among the sources.  It
    keeps its arguments and records the slice of the pair: "Slice:
    unordered pair [{i, j}] of subset ids, represented canonically as
    linear index [j*(j+1)/2 + i] where [i = min(i,j)], [j = max(i,j)]",
    an [int] computed as [addSwitchingParameter] computes the slice it
    compares with this field. *)
Definition mkSwitchingParameterInfo (g s1 s2 : Z) : SwitchingParameterInfo :=
  {| globalParamIndex := g; subset1 := s1; subset2 := s2;
     slice := sliceIndex s1 s2 |}.

(** The members the modelled methods read or write.  The cutoff, the
    tolerance, the PME parameters and the flags are plain values with
    accessors and are left out. *)
Record Force := {
  numSubsets : Z;
  particles : list ParticleInfo;
  exceptions : list ExceptionInfo;
  exceptionMap : gmap (Z * Z) Z;
  globalParameters : list GlobalParameterInfo;
  switchingParameters : list SwitchingParameterInfo;
  switchingParameter : list real;
  particleOffsets : list ParticleOffsetInfo;
  exceptionOffsets : list ExceptionOffsetInfo
}.

Definition with_particles (f : Force) (v : list ParticleInfo) : Force :=
  {| numSubsets := numSubsets f; particles := v; exceptions := exceptions f;
     exceptionMap := exceptionMap f; globalParameters := globalParameters f;
     switchingParameters := switchingParameters f;
     switchingParameter := switchingParameter f;
     particleOffsets := particleOffsets f; exceptionOffsets := exceptionOffsets f |}.

Definition with_exceptions (f : Force) (v : list ExceptionInfo)
    (m : gmap (Z * Z) Z) : Force :=
  {| numSubsets := numSubsets f; particles := particles f; exceptions := v;
     exceptionMap := m; globalParameters := globalParameters f;
     switchingParameters := switchingParameters f;
     switchingParameter := switchingParameter f;
     particleOffsets := particleOffsets f; exceptionOffsets := exceptionOffsets f |}.

Definition with_globalParameters (f : Force) (v : list GlobalParameterInfo) : Force :=
  {| numSubsets := numSubsets f; particles := particles f; exceptions := exceptions f;
     exceptionMap := exceptionMap f; globalParameters := v;
     switchingParameters := switchingParameters f;
     switchingParameter := switchingParameter f;
     particleOffsets := particleOffsets f; exceptionOffsets := exceptionOffsets f |}.

Definition with_switchingParameters (f : Force) (v : list SwitchingParameterInfo) : Force :=
  {| numSubsets := numSubsets f; particles := particles f; exceptions := exceptions f;
     exceptionMap := exceptionMap f; globalParameters := globalParameters f;
     switchingParameters := v;
     switchingParameter := switchingParameter f;
     particleOffsets := particleOffsets f; exceptionOffsets := exceptionOffsets f |}.

Definition with_particleOffsets (f : Force) (v : list ParticleOffsetInfo) : Force :=
  {| numSubsets := numSubsets f; particles := particles f; exceptions := exceptions f;
     exceptionMap := exceptionMap f; globalParameters := globalParameters f;
     switchingParameters := switchingParameters f;
     switchingParameter := switchingParameter f;
     particleOffsets := v; exceptionOffsets := exceptionOffsets f |}.

Definition with_exceptionOffsets (f : Force) (v : list ExceptionOffsetInfo) : Force :=
  {| numSubsets := numSubsets f; particles := particles f; exceptions := exceptions f;
     exceptionMap := exceptionMap f; globalParameters := globalParameters f;
     switchingParameters := switchingParameters f;
     switchingParameter := switchingParameter f;
     particleOffsets := particleOffsets f; exceptionOffsets := v |}.

(** What a call throws. *)
Inductive Error :=
  | InvalidNumberOfSubsets            (* "Invalid number of subsets" *)
  | SubsetOutOfRange                  (* "Subset out of range" *)
  | IndexOutOfRange                   (* ASSERT_VALID_INDEX *)
  | ExceptionAlreadyExists (p1 p2 : Z)
      (* "SlicedPmeForce: There is already an exception for particles p1 and p2" *)
  | NoGlobalParameter (parameter : string)
      (* "There is no global parameter called 'parameter'" *)
  | SwitchingParameterAlreadyDefined
      (* "A switching parameter has already been defined for this slice" *).

(** How a call on a force object ends: it returns a value, or it
    throws; either way the object is left in the state [after]. *)
Inductive outcome (A : Type) :=
  | Returned (after : Force) (value : A)
  | Thrown (after : Force) (e : Error).
Arguments Returned {A}.
Arguments Thrown {A}.

Definition after {A} (o : outcome A) : Force :=
  match o with Returned f _ => f | Thrown f _ => f end.

(** [ASSERT_VALID_SUBSET(subset)]:
    [if (subset < 0 || subset >= numSubsets) throwException(...)]. *)
Definition invalid_subset (f : Force) (subset : Z) : bool :=
  (subset <? 0) || (numSubsets f <=? subset).

(** The constructor: either an object or the exception it throws.

      if (numSubsets <= 0) throw OpenMMException("Invalid number of subsets");
      for (int j = 0; j < numSubsets*(numSubsets+1)/2; j++)
          switchingParameter.push_back(1.0);

    The bound of the loop is an [int] expression; the loop does not
    run when it is not positive. *)
Definition push_back_times {A} (n : Z) (x : A) (v : list A) : list A :=
  v ++ replicate (Z.to_nat n) x.

Definition construct (numSubsets : Z) : Error + Force :=
  if numSubsets <=? 0 then inl InvalidNumberOfSubsets
  else inr {| numSubsets := numSubsets;
              particles := []; exceptions := []; exceptionMap := ∅;
              globalParameters := []; switchingParameters := [];
              switchingParameter :=
                push_back_times
                  (Z.quot (CInt.wrap (numSubsets * CInt.wrap (numSubsets + 1))) 2) r1 [];
              particleOffsets := []; exceptionOffsets := [] |}.

Definition getNumParticles (f : Force) : Z := Vec.size (particles f).
Definition getNumExceptions (f : Force) : Z := Vec.size (exceptions f).
Definition getNumSubsets (f : Force) : Z := numSubsets f.

Definition addParticle (f : Force) (charge : real) (subset : Z) : outcome Z :=
  if invalid_subset f subset then Thrown f SubsetOutOfRange
  else
    let f' := with_particles f (particles f ++ [{| charge := charge; subset := subset |}]) in
    Returned f' (Vec.size (particles f') - 1).

Definition getParticleSubset (f : Force) (index : Z) : outcome Z :=
  match Vec.get (particles f) index with
  | None => Thrown f IndexOutOfRange
  | Some p => Returned f (subset p)
  end.

Definition setParticleSubset (f : Force) (index subset : Z) : outcome unit :=
  match Vec.get (particles f) index with
  | None => Thrown f IndexOutOfRange
  | Some p =>
      if invalid_subset f subset then Thrown f SubsetOutOfRange
      else Returned
             (with_particles f
                (Vec.set (particles f) index {| charge := charge p; subset := subset |}))
             tt
  end.

Definition getParticleCharge (f : Force) (index : Z) : outcome real :=
  match Vec.get (particles f) index with
  | None => Thrown f IndexOutOfRange
  | Some p => Returned f (charge p)
  end.

Definition setParticleCharge (f : Force) (index : Z) (q : real) : outcome unit :=
  match Vec.get (particles f) index with
  | None => Thrown f IndexOutOfRange
  | Some p =>
      Returned
        (with_particles f
           (Vec.set (particles f) index {| charge := q; subset := subset p |}))
        tt
  end.

(** The two look-ups at the head of [addException]: the entry of
    [exceptionMap] for [(particle1, particle2)], else the one for
    [(particle2, particle1)]. *)
Definition findException (f : Force) (particle1 particle2 : Z) : option (Z * Z * Z) :=
  match exceptionMap f !! (particle1, particle2) with
  | Some index => Some (particle1, particle2, index)
  | None =>
      match exceptionMap f !! (particle2, particle1) with
      | Some index => Some (particle2, particle1, index)
      | None => None
      end
  end.

Definition addException (f : Force) (particle1 particle2 : Z) (chargeProd : real)
    (replace : bool) : outcome Z :=
  let info := {| particle1 := particle1; particle2 := particle2;
                 chargeProd := chargeProd |} in
  match findException f particle1 particle2 with
  | Some (k1, k2, index) =>
      if negb replace then Thrown f (ExceptionAlreadyExists particle1 particle2)
      else
        let v := Vec.set (exceptions f) index info in
        let m := delete (k1, k2) (exceptionMap f) in
        Returned (with_exceptions f v (<[(particle1, particle2) := index]> m)) index
  | None =>
      let v := exceptions f ++ [info] in
      let newIndex := Vec.size v - 1 in
      Returned (with_exceptions f v (<[(particle1, particle2) := newIndex]> (exceptionMap f)))
               newIndex
  end.

Definition getExceptionParameters (f : Force) (index : Z) : outcome (Z * Z * real) :=
  match Vec.get (exceptions f) index with
  | None => Thrown f IndexOutOfRange
  | Some e => Returned f (particle1 e, particle2 e, chargeProd e)
  end.

Definition setExceptionParameters (f : Force) (index particle1 particle2 : Z)
    (chargeProd : real) : outcome unit :=
  match Vec.get (exceptions f) index with
  | None => Thrown f IndexOutOfRange
  | Some _ =>
      Returned
        (with_exceptions f
           (Vec.set (exceptions f) index
              {| particle1 := particle1; particle2 := particle2;
                 chargeProd := chargeProd |})
           (exceptionMap f))
        tt
  end.

Definition addGlobalParameter (f : Force) (name : string) (defaultValue : real) : outcome Z :=
  let f' := with_globalParameters f
              (globalParameters f ++ [{| name := name; defaultValue := defaultValue |}]) in
  Returned f' (Vec.size (globalParameters f') - 1).

(** [getGlobalParameterIndex]: the first index with that name, or the
    exception. *)
Definition getGlobalParameterIndex (f : Force) (parameter : string) : Error + Z :=
  let i := Vec.find_index (fun g => bool_decide (name g = parameter)) (globalParameters f) in
  if i <? Vec.size (globalParameters f) then inr i
  else inl (NoGlobalParameter parameter).

Definition addSwitchingParameter (f : Force) (parameter : string) (subset1 subset2 : Z)
    : outcome Z :=
  if invalid_subset f subset1 then Thrown f SubsetOutOfRange
  else if invalid_subset f subset2 then Thrown f SubsetOutOfRange
  else
    let i := Z.min subset1 subset2 in
    let j := Z.max subset1 subset2 in
    let slice' := CInt.wrap (Z.quot (CInt.wrap (j * CInt.wrap (j + 1))) 2 + i) in
    if existsb (fun sp => slice sp =? slice') (switchingParameters f)
    then Thrown f SwitchingParameterAlreadyDefined
    else
      match getGlobalParameterIndex f parameter with
      | inl e => Thrown f e
      | inr g =>
          let f' := with_switchingParameters f
                      (switchingParameters f ++ [mkSwitchingParameterInfo g subset1 subset2]) in
          Returned f' (Vec.size (switchingParameters f') - 1)
      end.

Definition getNumSwitchingParameters (f : Force) : Z := Vec.size (switchingParameters f).

(** [getSwitchingParameter(index, parameter, subset1, subset2)]: the
    name of the global parameter and the two subsets as stored. *)
Definition getSwitchingParameter (f : Force) (index : Z) : outcome (string * Z * Z) :=
  match Vec.get (switchingParameters f) index with
  | None => Thrown f IndexOutOfRange
  | Some sp =>
      match Vec.get (globalParameters f) (globalParamIndex sp) with
      | None => Thrown f IndexOutOfRange
      | Some g => Returned f (name g, subset1 sp, subset2 sp)
      end
  end.

Definition setSwitchingParameter (f : Force) (index : Z) (parameter : string)
    (subset1 subset2 : Z) : outcome unit :=
  match Vec.get (switchingParameters f) index with
  | None => Thrown f IndexOutOfRange
  | Some old =>
      if invalid_subset f subset1 then Thrown f SubsetOutOfRange
      else if invalid_subset f subset2 then Thrown f SubsetOutOfRange
      else
        let i := Z.min subset1 subset2 in
        let j := Z.max subset1 subset2 in
        let slice' := CInt.wrap (Z.quot (CInt.wrap (j * CInt.wrap (j + 1))) 2 + i) in
        match getGlobalParameterIndex f parameter with
        | inl e => Thrown f e
        | inr g =>
            if negb (slice old =? slice')
               && existsb (fun sp => slice sp =? slice') (switchingParameters f)
            then Thrown f SwitchingParameterAlreadyDefined
            else Returned
                   (with_switchingParameters f
                      (Vec.set (switchingParameters f) index
                         (mkSwitchingParameterInfo g subset1 subset2)))
                   tt
        end
  end.

Definition addParticleChargeOffset (f : Force) (parameter : string) (particleIndex : Z)
    (chargeScale : real) : outcome Z :=
  match getGlobalParameterIndex f parameter with
  | inl e => Thrown f e
  | inr g =>
      let f' := with_particleOffsets f
                  (particleOffsets f ++
                   [{| po_parameter := g; po_particle := particleIndex;
                       po_chargeScale := chargeScale |}]) in
      Returned f' (Vec.size (particleOffsets f') - 1)
  end.

Definition addExceptionChargeOffset (f : Force) (parameter : string) (exceptionIndex : Z)
    (chargeProdScale : real) : outcome Z :=
  match getGlobalParameterIndex f parameter with
  | inl e => Thrown f e
  | inr g =>
      let f' := with_exceptionOffsets f
                  (exceptionOffsets f ++
                   [{| eo_parameter := g; eo_exception := exceptionIndex;
                       eo_chargeProdScale := chargeProdScale |}]) in
      Returned f' (Vec.size (exceptionOffsets f') - 1)
  end.

(** *** Calls and reachable states *)

Inductive call :=
  | AddParticle (q : real) (s : Z)
  | SetParticleSubset (index s : Z)
  | SetParticleCharge (index : Z) (q : real)
  | AddException (p1 p2 : Z) (q : real) (replace : bool)
  | SetExceptionParameters (index p1 p2 : Z) (q : real)
  | AddGlobalParameter (parameter : string) (d : real)
  | AddSwitchingParameter (parameter : string) (s1 s2 : Z)
  | SetSwitchingParameter (index : Z) (parameter : string) (s1 s2 : Z)
  | AddParticleChargeOffset (parameter : string) (index : Z) (q : real)
  | AddExceptionChargeOffset (parameter : string) (index : Z) (q : real).

(** The object after a call, whether the call returned or threw. *)
Definition perform (f : Force) (c : call) : Force :=
  match c with
  | AddParticle q s => after (addParticle f q s)
  | SetParticleSubset i s => after (setParticleSubset f i s)
  | SetParticleCharge i q => after (setParticleCharge f i q)
  | AddException p1 p2 q r => after (addException f p1 p2 q r)
  | SetExceptionParameters i p1 p2 q => after (setExceptionParameters f i p1 p2 q)
  | AddGlobalParameter n d => after (addGlobalParameter f n d)
  | AddSwitchingParameter n s1 s2 => after (addSwitchingParameter f n s1 s2)
  | SetSwitchingParameter i n s1 s2 => after (setSwitchingParameter f i n s1 s2)
  | AddParticleChargeOffset n i q => after (addParticleChargeOffset f n i q)
  | AddExceptionChargeOffset n i q => after (addExceptionChargeOffset f n i q)
  end.

Inductive reachable : Force -> Prop :=
  | reachable_construct n f : construct n = inr f -> reachable f
  | reachable_call f c : reachable f -> reachable (perform f c).

Definition subsets_in_range (f : Force) : Prop :=
  Forall (fun p => 0 <= subset p < numSubsets f) (particles f).

Definition slice_bound (f : Force) (k : Z) : Prop :=
  exists sp, sp ∈ switchingParameters f /\ slice sp = k.

Definition declared (f : Force) (parameter : string) : Prop :=
  exists g, g ∈ globalParameters f /\ name g = parameter.

(** *** The constructor *)

Lemma invalid_subset_spec f s :
  invalid_subset f s = true <-> s < 0 \/ numSubsets f <= s.
Proof. unfold invalid_subset. rewrite orb_true_iff, Z.ltb_lt, Z.leb_le. tauto. Qed.

Lemma invalid_subset_false f s :
  invalid_subset f s = false <-> 0 <= s < numSubsets f.
Proof.
  rewrite <- not_true_iff_false, invalid_subset_spec. lia.
Qed.

Lemma construct_Some n f :
  construct n = inr f ->
  1 <= n /\ numSubsets f = n /\ particles f = [] /\ exceptions f = [] /\
  switchingParameters f = [] /\
  switchingParameter f = replicate (Z.to_nat (numSlices n)) r1.
Proof.
  unfold construct. destruct (Z.leb_spec n 0); [discriminate|].
  intros [= <-]. simpl. repeat split; try reflexivity. lia.
Qed.



(** *** Particles *)

Lemma addParticle_spec f q s :
  (invalid_subset f s = true /\ addParticle f q s = Thrown f SubsetOutOfRange) \/
  (invalid_subset f s = false /\
   addParticle f q s =
     Returned (with_particles f (particles f ++ [{| charge := q; subset := s |}]))
              (Vec.size (particles f))).
Proof.
  unfold addParticle. destruct (invalid_subset f s); [left; auto|right].
  split; [reflexivity|]. f_equal. simpl. unfold Vec.size.
  rewrite length_app. simpl. lia.
Qed.

Lemma setParticleSubset_spec f index s :
  match Vec.get (particles f) index with
  | None => setParticleSubset f index s = Thrown f IndexOutOfRange
  | Some p =>
      (invalid_subset f s = true /\ setParticleSubset f index s = Thrown f SubsetOutOfRange) \/
      (invalid_subset f s = false /\
       setParticleSubset f index s =
         Returned (with_particles f
                     (Vec.set (particles f) index {| charge := charge p; subset := s |})) tt)
  end.
Proof.
  unfold setParticleSubset. destruct (Vec.get (particles f) index); [|reflexivity].
  destruct (invalid_subset f s); auto.
Qed.

Lemma Forall_vec_set {A} (P : A -> Prop) v index x :
  Forall P v -> P x -> Forall P (Vec.set v index x).
Proof.
  intros Hv Hx. unfold Vec.set. destruct (Vec.valid_index index v); [|exact Hv].
  apply Forall_insert; assumption.
Qed.

Lemma subsets_in_range_perform f c :
  subsets_in_range f -> subsets_in_range (perform f c).
Proof.
  unfold subsets_in_range. intros Hf. destruct c; simpl.
  - destruct (addParticle_spec f q s) as [[_ ->]|[Hs ->]]; [exact Hf|]. simpl.
    apply Forall_app. split; [exact Hf|].
    constructor; [|constructor]. simpl. apply invalid_subset_false. exact Hs.
  - pose proof (setParticleSubset_spec f index s) as E.
    destruct (Vec.get (particles f) index) as [p|]; [|rewrite E; exact Hf].
    destruct E as [[_ ->]|[Hs ->]]; [exact Hf|]. simpl.
    apply Forall_vec_set; [exact Hf|]. simpl. apply invalid_subset_false. exact Hs.
  - unfold setParticleCharge.
    destruct (Vec.get (particles f) index) as [p|] eqn:E; [|exact Hf]. simpl.
    apply Forall_vec_set; [exact Hf|]. simpl.
    apply Vec.get_Some in E as [_ E].
    rewrite Forall_lookup in Hf. exact (Hf _ _ E).
  - unfold addException. destruct (findException f p1 p2) as [[[k1 k2] i]|];
      [destruct (negb replace)|]; exact Hf.
  - unfold setExceptionParameters.
    destruct (Vec.get (exceptions f) index); exact Hf.
  - exact Hf.
  - unfold addSwitchingParameter.
    destruct (invalid_subset f s1); [exact Hf|].
    destruct (invalid_subset f s2); [exact Hf|].
    destruct (existsb _ _); [exact Hf|].
    destruct (getGlobalParameterIndex f parameter); exact Hf.
  - unfold setSwitchingParameter.
    destruct (Vec.get (switchingParameters f) index); [|exact Hf].
    destruct (invalid_subset f s1); [exact Hf|].
    destruct (invalid_subset f s2); [exact Hf|].
    destruct (getGlobalParameterIndex f parameter); [exact Hf|].
    destruct (_ && _); exact Hf.
  - unfold addParticleChargeOffset.
    destruct (getGlobalParameterIndex f parameter); exact Hf.
  - unfold addExceptionChargeOffset.
    destruct (getGlobalParameterIndex f parameter); exact Hf.
Qed.

Lemma reachable_subsets_in_range f : reachable f -> subsets_in_range f.
Proof.
  induction 1 as [n f Hc|f c _ IH].
  - apply construct_Some in Hc as (_ & _ & Hp & _).
    unfold subsets_in_range. rewrite Hp. constructor.
  - apply subsets_in_range_perform. exact IH.
Qed.

(** C9, as the code has it.  [addParticle(charge, subset)] throws
    "Subset out of range" exactly when [subset < 0] or
    [subset >= numSubsets]; [setParticleSubset(index, subset)] checks the
    index first, so it throws "Subset out of range" exactly when the
    index is valid and the subset is out of range (an invalid index is
    answered with the index error, whatever the subset).  A call that
    throws leaves the force as it was, and every particle of a force
    built through the interface has its subset in [[0, numSubsets)]. *)
Theorem subset_validation (f : Force) :
  (forall q s,
     (addParticle f q s = Thrown f SubsetOutOfRange <-> s < 0 \/ numSubsets f <= s) /\
     (forall f' e, addParticle f q s = Thrown f' e -> f' = f /\ e = SubsetOutOfRange)) /\
  (forall index s,
     (setParticleSubset f index s = Thrown f SubsetOutOfRange <->
        0 <= index < getNumParticles f /\ (s < 0 \/ numSubsets f <= s)) /\
     (~ 0 <= index < getNumParticles f ->
        setParticleSubset f index s = Thrown f IndexOutOfRange) /\
     (forall f' e, setParticleSubset f index s = Thrown f' e -> f' = f)) /\
  (reachable f -> forall p, p ∈ particles f -> 0 <= subset p < numSubsets f).
Proof.
  split; [|split].
  - intros q s. rewrite <- invalid_subset_spec.
    destruct (addParticle_spec f q s) as [[Hs E]|[Hs E]]; rewrite E, Hs; split.
    + tauto.
    + intros f' e [= <- <-]. auto.
    + split; [discriminate|discriminate].
    + intros f' e [=].
  - intros index s. rewrite <- invalid_subset_spec.
    pose proof (setParticleSubset_spec f index s) as E.
    unfold getNumParticles, Vec.size.
    destruct (Vec.get (particles f) index) as [p|] eqn:G.
    + apply Vec.get_Some in G as [Hi _].
      destruct E as [[Hs E]|[Hs E]]; rewrite E, Hs.
      * split; [tauto|]. split; [tauto|]. intros f' e [= <- _]. reflexivity.
      * split; [split; [discriminate|intros [_ [=]]]|].
        split; [tauto|]. intros f' e [=].
    + rewrite E.
      assert (Hi : ~ 0 <= index < Z.of_nat (length (particles f))).
      { intros Hi. apply Vec.get_in_range in Hi as [x Hx]. congruence. }
      split; [split; [discriminate|tauto]|].
      split; [reflexivity|]. intros f' e [= <- _]. reflexivity.
  - intros Hr p Hp. apply reachable_subsets_in_range in Hr.
    unfold subsets_in_range in Hr. rewrite Forall_forall in Hr. auto.
Qed.

(** *** Switching parameters *)

Lemma getGlobalParameterIndex_undeclared f parameter :
  ~ declared f parameter ->
  getGlobalParameterIndex f parameter = inl (NoGlobalParameter parameter).
Proof.
  intros Hnd. unfold getGlobalParameterIndex, Vec.size.
  assert (E : forall v : list GlobalParameterInfo,
             (forall g, g ∈ v -> name g <> parameter) ->
             Vec.find_index (fun g => bool_decide (name g = parameter)) v
             = Z.of_nat (length v)).
  { induction v as [|g v IH]; intros Hv; simpl; [reflexivity|].
    rewrite bool_decide_eq_false_2 by (apply Hv; left).
    rewrite IH by (intros g' Hg'; apply Hv; right; exact Hg'). lia. }
  rewrite E.
  - rewrite Z.ltb_irrefl. reflexivity.
  - intros g Hg Hn. apply Hnd. exists g. auto.
Qed.

Lemma slice_bound_existsb f k :
  slice_bound f k <-> existsb (fun sp => slice sp =? k) (switchingParameters f) = true.
Proof.
  unfold slice_bound. rewrite existsb_exists. split.
  - intros (sp & Hin & E). exists sp. split; [apply list_elem_of_In; exact Hin|].
    apply Z.eqb_eq. exact E.
  - intros (sp & Hin & E). exists sp. split; [apply list_elem_of_In; exact Hin|].
    apply Z.eqb_eq. exact E.
Qed.

(** C7.  [addSwitchingParameter(parameter, subset1, subset2)] throws when
    the slice of [{subset1, subset2}] already has a switching parameter,
    and throws when [parameter] is not the name of a declared global
    parameter (for valid subsets: with the messages of these two
    failures); whenever it throws, the force, and with it the list of
    switching parameters, is left as it was. *)
Theorem addSwitchingParameter_failures (f : Force) (parameter : string) (s1 s2 : Z) :
  (slice_bound f (sliceIndex s1 s2) ->
     exists e, addSwitchingParameter f parameter s1 s2 = Thrown f e) /\
  (~ declared f parameter ->
     exists e, addSwitchingParameter f parameter s1 s2 = Thrown f e) /\
  (0 <= s1 < numSubsets f -> 0 <= s2 < numSubsets f ->
   slice_bound f (sliceIndex s1 s2) ->
     addSwitchingParameter f parameter s1 s2 = Thrown f SwitchingParameterAlreadyDefined) /\
  (0 <= s1 < numSubsets f -> 0 <= s2 < numSubsets f ->
   ~ slice_bound f (sliceIndex s1 s2) -> ~ declared f parameter ->
     addSwitchingParameter f parameter s1 s2 = Thrown f (NoGlobalParameter parameter)) /\
  (forall f' e, addSwitchingParameter f parameter s1 s2 = Thrown f' e ->
     f' = f /\ switchingParameters f' = switchingParameters f).
Proof.
  unfold addSwitchingParameter. fold (sliceIndex s1 s2).
  rewrite !slice_bound_existsb.
  destruct (invalid_subset f s1) eqn:V1.
  { apply invalid_subset_spec in V1.
    split; [eauto|]. split; [eauto|]. split; [intros; lia|]. split; [intros; lia|].
    intros f' e [= <- _]. auto. }
  destruct (invalid_subset f s2) eqn:V2.
  { apply invalid_subset_spec in V2.
    split; [eauto|]. split; [eauto|]. split; [intros; lia|]. split; [intros; lia|].
    intros f' e [= <- _]. auto. }
  destruct (existsb _ _) eqn:B.
  { split; [eauto|]. split; [eauto|]. split; [reflexivity|].
    split; [intros _ _ N; exfalso; apply N; reflexivity|].
    intros f' e [= <- _]. auto. }
  split; [discriminate|]. split.
  { intros Hnd. rewrite (getGlobalParameterIndex_undeclared f parameter Hnd).
    eexists. reflexivity. }
  split; [discriminate|]. split.
  { intros _ _ _ Hnd. rewrite (getGlobalParameterIndex_undeclared f parameter Hnd).
    reflexivity. }
  intros f' e. destruct (getGlobalParameterIndex f parameter); [|discriminate].
  intros [= <- _]. auto.
Qed.

(** *** Exceptions *)

Definition same_pair (e e' : ExceptionInfo) : Prop :=
  (particle1 e = particle1 e' /\ particle2 e = particle2 e') \/
  (particle1 e = particle2 e' /\ particle2 e = particle1 e').

(** An exception for the unordered pair [{p1, p2}] is in the list. *)
Definition exception_for (f : Force) (p1 p2 : Z) : Prop :=
  exists (i : nat) e, exceptions f !! i = Some e /\
    ((particle1 e = p1 /\ particle2 e = p2) \/ (particle1 e = p2 /\ particle2 e = p1)).

(** [exceptionMap] and [exceptions] tell the same story: every entry of
    the map points at an exception with that pair, and every exception
    is entered under its pair. *)
Definition registry_agrees (f : Force) : Prop :=
  (forall p1 p2 i, exceptionMap f !! (p1, p2) = Some i ->
     exists e, Vec.get (exceptions f) i = Some e /\ particle1 e = p1 /\ particle2 e = p2) /\
  (forall (i : nat) e, exceptions f !! i = Some e ->
     exceptionMap f !! (particle1 e, particle2 e) = Some (Z.of_nat i)).

Definition one_exception_per_pair (f : Force) : Prop :=
  forall (i j : nat) e e',
    exceptions f !! i = Some e -> exceptions f !! j = Some e' -> same_pair e e' -> i = j.

Lemma findException_Some f p1 p2 k1 k2 index :
  findException f p1 p2 = Some (k1, k2, index) ->
  exceptionMap f !! (k1, k2) = Some index /\
  ((k1 = p1 /\ k2 = p2) \/
   (k1 = p2 /\ k2 = p1 /\ exceptionMap f !! (p1, p2) = None)).
Proof.
  unfold findException.
  destruct (exceptionMap f !! (p1, p2)) as [i|] eqn:E1.
  - intros [= <- <- <-]. auto.
  - destruct (exceptionMap f !! (p2, p1)) as [i|] eqn:E2; [|discriminate].
    intros [= <- <- <-]. auto.
Qed.

Lemma findException_None f p1 p2 :
  findException f p1 p2 = None ->
  exceptionMap f !! (p1, p2) = None /\ exceptionMap f !! (p2, p1) = None.
Proof.
  unfold findException.
  destruct (exceptionMap f !! (p1, p2)); [discriminate|].
  destruct (exceptionMap f !! (p2, p1)); [discriminate|]. auto.
Qed.

Lemma findException_exception_for f p1 p2 :
  registry_agrees f ->
  (exception_for f p1 p2 <-> findException f p1 p2 <> None).
Proof.
  intros [A1 A2]. split.
  - intros (i & e & Hi & Hp) Hnone.
    apply findException_None in Hnone as [N1 N2].
    apply A2 in Hi. destruct Hp as [[<- <-]|[<- <-]]; congruence.
  - destruct (findException f p1 p2) as [[[k1 k2] index]|] eqn:E; [|congruence].
    intros _. apply findException_Some in E as [Hm Hk].
    destruct (A1 _ _ _ Hm) as (e & He & <- & <-).
    apply Vec.get_Some in He as [_ He].
    exists (Z.to_nat index), e. split; [exact He|]. tauto.
Qed.

(** What one call does, case by case. *)
Lemma addException_cases f p1 p2 q (replace : bool) :
  match findException f p1 p2 with
  | Some (k1, k2, index) =>
      if replace
      then addException f p1 p2 q replace =
             Returned
               (with_exceptions f
                  (Vec.set (exceptions f) index
                     {| particle1 := p1; particle2 := p2; chargeProd := q |})
                  (<[(p1, p2) := index]> (delete (k1, k2) (exceptionMap f))))
               index
      else addException f p1 p2 q replace = Thrown f (ExceptionAlreadyExists p1 p2)
  | None =>
      addException f p1 p2 q replace =
        Returned
          (with_exceptions f
             (exceptions f ++ [{| particle1 := p1; particle2 := p2; chargeProd := q |}])
             (<[(p1, p2) := Vec.size (exceptions f)]> (exceptionMap f)))
          (Vec.size (exceptions f))
  end.
Proof.
  unfold addException.
  destruct (findException f p1 p2) as [[[k1 k2] index]|].
  - destruct replace; reflexivity.
  - unfold Vec.size. rewrite length_app. simpl.
    replace (Z.of_nat (length (exceptions f) + 1) - 1)
      with (Z.of_nat (length (exceptions f))) by lia.
    reflexivity.
Qed.

(** On a force whose registry agrees with its list, a call keeps it
    that way, and keeps the pairs distinct. *)
Lemma addException_keeps_registry f p1 p2 q (replace : bool) :
  registry_agrees f -> one_exception_per_pair f ->
  registry_agrees (after (addException f p1 p2 q replace)) /\
  one_exception_per_pair (after (addException f p1 p2 q replace)).
Proof.
  intros [A1 A2] U.
  pose proof (addException_cases f p1 p2 q replace) as C.
  destruct (findException f p1 p2) as [[[k1 k2] index]|] eqn:E.
  - destruct replace; rewrite C; simpl; [|split; [split|]; assumption].
    apply findException_Some in E as [Hm Hk].
    destruct (A1 _ _ _ Hm) as (old & Hold & Ho1 & Ho2).
    apply Vec.get_Some in Hold as [Hrange Hold].
    assert (Hv : Vec.valid_index index (exceptions f) = true)
      by (apply Vec.valid_index_spec; exact Hrange).
    unfold registry_agrees, one_exception_per_pair, Vec.get, Vec.set. simpl.
    rewrite Hv.
    assert (Hv' : forall x, Vec.valid_index x
                   (<[Z.to_nat index := {| particle1 := p1; particle2 := p2;
                                           chargeProd := q |}]> (exceptions f))
                 = Vec.valid_index x (exceptions f)).
    { intros x. unfold Vec.valid_index. rewrite length_insert. reflexivity. }
    split; [split|].
    + intros a b i Hi. rewrite Hv'.
      destruct (decide ((p1, p2) = (a, b))) as [[= <- <-]|Hne].
      * rewrite lookup_insert_eq in Hi. injection Hi as <-. rewrite Hv.
        eexists. split; [apply list_lookup_insert_eq; lia|]. auto.
      * rewrite lookup_insert_ne in Hi by exact Hne.
        destruct (decide ((k1, k2) = (a, b))) as [Heq|Hne'].
        { rewrite Heq, lookup_delete_eq in Hi. discriminate. }
        rewrite lookup_delete_ne in Hi by exact Hne'.
        destruct (A1 _ _ _ Hi) as (e & He & He1 & He2).
        unfold Vec.get in He.
        destruct (Vec.valid_index i (exceptions f)) eqn:Vi; [|discriminate].
        exists e. split; [|auto].
        rewrite list_lookup_insert_ne; [exact He|].
        intros Hidx. rewrite Hidx in Hold. rewrite Hold in He.
        injection He as <-. congruence.
    + intros i e Hi.
      destruct (decide (Z.to_nat index = i)) as [<-|Hne].
      * rewrite list_lookup_insert_eq in Hi by lia. injection Hi as <-. simpl.
        rewrite lookup_insert_eq. f_equal. lia.
      * rewrite list_lookup_insert_ne in Hi by exact Hne.
        pose proof (A2 _ _ Hi) as Hmi.
        assert (Hi_ne : Z.of_nat i <> index) by lia.
        rewrite lookup_insert_ne.
        2:{ intros [= E1 E2]. rewrite <- E1, <- E2 in Hmi.
            destruct Hk as [[-> ->]|(_ & _ & Hnone)]; congruence. }
        rewrite lookup_delete_ne; [exact Hmi|].
        intros [= E1 E2]. rewrite <- E1, <- E2 in Hmi. congruence.
    + intros i j e e' Hi Hj Hs.
      assert (Hold_pair : forall (n : nat) x, n <> Z.to_nat index ->
                exceptions f !! n = Some x ->
                ~ same_pair {| particle1 := p1; particle2 := p2; chargeProd := q |} x).
      { intros n x Hn Hx Hsp. apply Hn. apply (U n (Z.to_nat index) x old Hx Hold).
        unfold same_pair in *. simpl in Hsp. rewrite Ho1, Ho2.
        destruct Hk as [[-> ->]|(-> & -> & _)]; destruct Hsp as [[<- <-]|[<- <-]]; auto. }
      destruct (decide (Z.to_nat index = i)) as [<-|Hni];
        destruct (decide (Z.to_nat index = j)) as [<-|Hnj]; try reflexivity.
      * exfalso. rewrite list_lookup_insert_eq in Hi by lia. injection Hi as <-.
        rewrite list_lookup_insert_ne in Hj by exact Hnj.
        apply (Hold_pair j e'); auto.
      * exfalso. rewrite list_lookup_insert_eq in Hj by lia. injection Hj as <-.
        rewrite list_lookup_insert_ne in Hi by exact Hni.
        apply (Hold_pair i e); auto.
        unfold same_pair in *. simpl in *. destruct Hs as [[-> ->]|[-> ->]]; auto.
      * rewrite list_lookup_insert_ne in Hi by exact Hni.
        rewrite list_lookup_insert_ne in Hj by exact Hnj.
        exact (U _ _ _ _ Hi Hj Hs).
  - rewrite C. simpl.
    apply findException_None in E as [N1 N2].
    unfold registry_agrees, one_exception_per_pair. simpl.
    split; [split|].
    + intros a b i Hi.
      destruct (decide ((p1, p2) = (a, b))) as [[= <- <-]|Hne].
      * rewrite lookup_insert_eq in Hi. injection Hi as <-.
        unfold Vec.size. rewrite Vec.get_of_nat.
        rewrite lookup_app_r by lia. rewrite Nat.sub_diag. simpl. eauto.
      * rewrite lookup_insert_ne in Hi by exact Hne.
        destruct (A1 _ _ _ Hi) as (e & He & He1 & He2).
        apply Vec.get_Some in He as [Hr He].
        exists e. split; [|auto].
        replace i with (Z.of_nat (Z.to_nat i)) by lia.
        rewrite Vec.get_of_nat. rewrite lookup_app_l; [exact He|lia].
    + intros i e Hi.
      destruct (Nat.lt_ge_cases i (length (exceptions f))) as [Hlt|Hge].
      * rewrite lookup_app_l in Hi by exact Hlt.
        pose proof (A2 _ _ Hi) as Hmi.
        rewrite lookup_insert_ne; [exact Hmi|].
        intros [= E1 E2]. rewrite <- E1, <- E2 in Hmi. congruence.
      * rewrite lookup_app_r in Hi by exact Hge.
        destruct (i - length (exceptions f))%nat as [|n] eqn:En; [|destruct n; discriminate].
        simpl in Hi. injection Hi as <-. simpl.
        rewrite lookup_insert_eq. f_equal. unfold Vec.size. lia.
    + assert (Hfresh : forall (n : nat) x, exceptions f !! n = Some x ->
                ~ same_pair {| particle1 := p1; particle2 := p2; chargeProd := q |} x).
      { intros n x Hx Hsp. apply A2 in Hx. unfold same_pair in Hsp. simpl in Hsp.
        destruct Hsp as [[E1 E2]|[E1 E2]]; rewrite <- E1, <- E2 in Hx; congruence. }
      assert (Hlast : forall (n : nat) x,
                (exceptions f ++ [{| particle1 := p1; particle2 := p2; chargeProd := q |}])
                  !! n = Some x ->
                (n < length (exceptions f))%nat /\ exceptions f !! n = Some x \/
                n = length (exceptions f) /\
                x = {| particle1 := p1; particle2 := p2; chargeProd := q |}).
      { intros n x Hx.
        destruct (Nat.lt_ge_cases n (length (exceptions f))) as [Hlt|Hge].
        - left. rewrite lookup_app_l in Hx by exact Hlt. auto.
        - right. rewrite lookup_app_r in Hx by exact Hge.
          destruct (n - length (exceptions f))%nat as [|m] eqn:En;
            [|destruct m; discriminate].
          simpl in Hx. injection Hx as <-. split; [lia|reflexivity]. }
      intros i j e e' Hi Hj Hs.
      apply Hlast in Hi as [[Hil Hi]|[-> ->]]; apply Hlast in Hj as [[Hjl Hj]|[-> ->]].
      * exact (U _ _ _ _ Hi Hj Hs).
      * exfalso. apply (Hfresh i e Hi).
        unfold same_pair in *. simpl in *. destruct Hs as [[-> ->]|[-> ->]]; auto.
      * exfalso. exact (Hfresh j e' Hj Hs).
      * reflexivity.
Qed.

(** [addException] on a force whose registry agrees with its list:
    a second exception for a pair is refused, or overwrites the first in
    place when [replace] is set; a new pair is appended; the pairs stay
    distinct. *)
Lemma addException_on_agreeing f p1 p2 q (replace : bool) :
  registry_agrees f -> one_exception_per_pair f ->
  (exception_for f p1 p2 -> replace = false ->
     addException f p1 p2 q replace = Thrown f (ExceptionAlreadyExists p1 p2)) /\
  (exception_for f p1 p2 -> replace = true ->
     exists f' index old,
       addException f p1 p2 q replace = Returned f' index /\
       0 <= index /\
       exceptions f !! Z.to_nat index = Some old /\
       same_pair old {| particle1 := p1; particle2 := p2; chargeProd := q |} /\
       exceptions f' =
         <[Z.to_nat index := {| particle1 := p1; particle2 := p2; chargeProd := q |}]>
           (exceptions f) /\
       length (exceptions f') = length (exceptions f)) /\
  (~ exception_for f p1 p2 ->
     exists f',
       addException f p1 p2 q replace = Returned f' (Vec.size (exceptions f)) /\
       exceptions f' =
         exceptions f ++ [{| particle1 := p1; particle2 := p2; chargeProd := q |}]) /\
  one_exception_per_pair (after (addException f p1 p2 q replace)).
Proof.
  intros A U.
  pose proof (findException_exception_for f p1 p2 A) as Hex.
  pose proof (addException_cases f p1 p2 q replace) as C.
  split; [|split; [|split]].
  - intros He ->. apply Hex in He.
    destruct (findException f p1 p2) as [[[k1 k2] index]|]; [exact C|congruence].
  - intros He ->. apply Hex in He.
    destruct (findException f p1 p2) as [[[k1 k2] index]|] eqn:E; [|congruence].
    apply findException_Some in E as [Hm Hk].
    destruct (proj1 A _ _ _ Hm) as (old & Hold & Ho1 & Ho2).
    apply Vec.get_Some in Hold as [Hrange Hold].
    eexists _, index, old. split; [exact C|]. simpl.
    unfold Vec.set.
    assert (Hv : Vec.valid_index index (exceptions f) = true)
      by (apply Vec.valid_index_spec; exact Hrange).
    rewrite Hv. split; [lia|]. split; [exact Hold|].
    split; [|split; [reflexivity|apply length_insert]].
    unfold same_pair. simpl. rewrite Ho1, Ho2.
    destruct Hk as [[-> ->]|(-> & -> & _)]; auto.
  - intros Hne.
    destruct (findException f p1 p2) as [[[k1 k2] index]|] eqn:E.
    + exfalso. apply Hne, Hex. congruence.
    + eexists. split; [exact C|reflexivity].
  - apply addException_keeps_registry; assumption.
Qed.

Lemma construct_registry n f :
  construct n = inr f -> registry_agrees f /\ one_exception_per_pair f.
Proof.
  unfold construct. destruct (n <=? 0); [discriminate|]. intros [= <-].
  unfold registry_agrees, one_exception_per_pair. simpl.
  split; [split|]; intros *; try (rewrite lookup_empty); discriminate.
Qed.

(** Calls other than [setExceptionParameters]. *)
Definition adds_only (c : call) : Prop :=
  match c with SetExceptionParameters _ _ _ _ => False | _ => True end.

Lemma perform_other_exceptions f c :
  match c with
  | AddException _ _ _ _ | SetExceptionParameters _ _ _ _ => True
  | _ => exceptions (perform f c) = exceptions f /\
         exceptionMap (perform f c) = exceptionMap f
  end.
Proof.
  destruct c; simpl; try exact I.
  - unfold addParticle. destruct (invalid_subset f s); auto.
  - unfold setParticleSubset. destruct (Vec.get (particles f) index); [|auto].
    destruct (invalid_subset f s); auto.
  - unfold setParticleCharge. destruct (Vec.get (particles f) index); auto.
  - auto.
  - unfold addSwitchingParameter.
    destruct (invalid_subset f s1); [auto|].
    destruct (invalid_subset f s2); [auto|].
    destruct (existsb _ _); [auto|].
    destruct (getGlobalParameterIndex f parameter); auto.
  - unfold setSwitchingParameter.
    destruct (Vec.get (switchingParameters f) index); [|auto].
    destruct (invalid_subset f s1); [auto|].
    destruct (invalid_subset f s2); [auto|].
    destruct (getGlobalParameterIndex f parameter); [auto|].
    destruct (_ && _); auto.
  - unfold addParticleChargeOffset.
    destruct (getGlobalParameterIndex f parameter); auto.
  - unfold addExceptionChargeOffset.
    destruct (getGlobalParameterIndex f parameter); auto.
Qed.

(** A force on which [setExceptionParameters] was never called has a
    registry that agrees with its list, and one exception per pair. *)
Lemma registry_without_setExceptionParameters n f0 (cs : list call) :
  construct n = inr f0 -> Forall adds_only cs ->
  registry_agrees (fold_left perform cs f0) /\
  one_exception_per_pair (fold_left perform cs f0).
Proof.
  intros Hc Hcs. apply construct_registry in Hc. revert f0 Hc.
  induction Hcs as [|c cs Hc0 _ IH]; intros f0 [A U]; simpl; [auto|].
  apply IH.
  pose proof (perform_other_exceptions f0 c) as E.
  destruct c;
    lazymatch type of E with
    | True => idtac
    | _ => destruct E as [E1 E2];
           unfold registry_agrees, one_exception_per_pair;
           rewrite E1, E2; split; assumption
    end.
  - simpl. apply addException_keeps_registry; assumption.
  - destruct Hc0.
Qed.

(** *** The number of subsets is fixed *)

Lemma perform_numSubsets f c : numSubsets (perform f c) = numSubsets f.
Proof.
  destruct c; simpl.
  - unfold addParticle. destruct (invalid_subset f s); reflexivity.
  - unfold setParticleSubset. destruct (Vec.get (particles f) index); [|reflexivity].
    destruct (invalid_subset f s); reflexivity.
  - unfold setParticleCharge. destruct (Vec.get (particles f) index); reflexivity.
  - unfold addException. destruct (findException f p1 p2) as [[[k1 k2] i]|];
      [destruct (negb replace)|]; reflexivity.
  - unfold setExceptionParameters. destruct (Vec.get (exceptions f) index); reflexivity.
  - reflexivity.
  - unfold addSwitchingParameter.
    destruct (invalid_subset f s1); [reflexivity|].
    destruct (invalid_subset f s2); [reflexivity|].
    destruct (existsb _ _); [reflexivity|].
    destruct (getGlobalParameterIndex f parameter); reflexivity.
  - unfold setSwitchingParameter.
    destruct (Vec.get (switchingParameters f) index); [|reflexivity].
    destruct (invalid_subset f s1); [reflexivity|].
    destruct (invalid_subset f s2); [reflexivity|].
    destruct (getGlobalParameterIndex f parameter); [reflexivity|].
    destruct (_ && _); reflexivity.
  - unfold addParticleChargeOffset.
    destruct (getGlobalParameterIndex f parameter); reflexivity.
  - unfold addExceptionChargeOffset.
    destruct (getGlobalParameterIndex f parameter); reflexivity.
Qed.

Lemma reachable_numSubsets f : reachable f -> 1 <= numSubsets f.
Proof.
  induction 1 as [n f Hc|f c _ IH].
  - apply construct_Some in Hc as (Hn & -> & _). exact Hn.
  - rewrite perform_numSubsets. exact IH.
Qed.

(** *** Switching parameters: one per slice *)

Lemma find_index_bounds {A} (p : A -> bool) (v : list A) :
  0 <= Vec.find_index p v <= Z.of_nat (length v).
Proof. induction v as [|x v IH]; simpl; [lia|]. destruct (p x); lia. Qed.

Lemma length_vec_set {A} (v : list A) i x : Vec.size (Vec.set v i x) = Vec.size v.
Proof. unfold Vec.size. rewrite Vec.length_set. reflexivity. Qed.

Lemma size_snoc {A} (v : list A) x : Vec.size (v ++ [x]) = Vec.size v + 1.
Proof. unfold Vec.size. rewrite length_app. simpl. lia. Qed.

(** A switching parameter as the interface makes it: valid subsets,
    the slice of the two, the index of a declared parameter. *)
Definition switching_entry_ok (f : Force) (sp : SwitchingParameterInfo) : Prop :=
  0 <= subset1 sp < numSubsets f /\ 0 <= subset2 sp < numSubsets f /\
  slice sp = sliceIndex (subset1 sp) (subset2 sp) /\
  0 <= globalParamIndex sp < Vec.size (globalParameters f).

Definition switching_wf (f : Force) : Prop :=
  NoDup (slice <$> switchingParameters f) /\
  Forall (switching_entry_ok f) (switchingParameters f).

Lemma NoDup_insert_fresh {A} (l : list A) (i : nat) (x : A) :
  NoDup l -> x ∉ l -> NoDup (<[i:=x]> l).
Proof.
  intros Hl Hx. destruct (l !! i) as [y|] eqn:E.
  - rewrite <- (take_drop_middle l i y E) in Hl, Hx.
    rewrite insert_take_drop by (eapply lookup_lt_Some; exact E).
    apply NoDup_app in Hl as (H1 & H2 & H3). apply NoDup_cons in H3 as [H3 H4].
    apply NoDup_app. split; [exact H1|]. split.
    + intros z Hz Hz'. apply elem_of_cons in Hz' as [->|Hz'].
      * apply Hx. apply elem_of_app. left. exact Hz.
      * apply (H2 z Hz). right. exact Hz'.
    + apply NoDup_cons. split; [|exact H4].
      intros Hin. apply Hx. apply elem_of_app. right. right. exact Hin.
  - rewrite list_insert_ge; [exact Hl|]. apply lookup_ge_None. exact E.
Qed.

Lemma existsb_slice_false (sps : list SwitchingParameterInfo) k :
  existsb (fun sp => slice sp =? k) sps = false -> k ∉ slice <$> sps.
Proof.
  intros Hex Hin. apply list_elem_of_fmap in Hin as (sp & -> & Hin).
  assert (existsb (fun sp' => slice sp' =? slice sp) sps = true); [|congruence].
  apply existsb_exists. exists sp. split; [apply list_elem_of_In; exact Hin|].
  apply Z.eqb_refl.
Qed.

Lemma getGlobalParameterIndex_range f parameter g :
  getGlobalParameterIndex f parameter = inr g ->
  0 <= g < Vec.size (globalParameters f).
Proof.
  unfold getGlobalParameterIndex.
  pose proof (find_index_bounds (fun g => bool_decide (name g = parameter))
                                (globalParameters f)).
  destruct (Z.ltb_spec (Vec.find_index (fun g => bool_decide (name g = parameter))
                          (globalParameters f)) (Vec.size (globalParameters f)));
    [|discriminate].
  intros [= <-]. lia.
Qed.

Lemma new_entry_ok f g s1 s2 :
  invalid_subset f s1 = false -> invalid_subset f s2 = false ->
  0 <= g < Vec.size (globalParameters f) ->
  switching_entry_ok f (mkSwitchingParameterInfo g s1 s2).
Proof.
  intros V1 V2 Hg. apply invalid_subset_false in V1, V2.
  unfold switching_entry_ok. simpl.
  repeat split; lia.
Qed.

Lemma switching_wf_intro f f' :
  numSubsets f' = numSubsets f -> globalParameters f' = globalParameters f ->
  NoDup (slice <$> switchingParameters f') ->
  Forall (switching_entry_ok f) (switchingParameters f') ->
  switching_wf f'.
Proof.
  intros Hn Hg Hnd Hok. split; [exact Hnd|].
  eapply Forall_impl; [exact Hok|]. intros sp.
  unfold switching_entry_ok. rewrite Hn, Hg. tauto.
Qed.

Lemma switching_wf_perform f c : switching_wf f -> switching_wf (perform f c).
Proof.
  intros [Hnd Hok].
  destruct c; simpl.
  - unfold addParticle. destruct (invalid_subset f s); split; assumption.
  - unfold setParticleSubset. destruct (Vec.get (particles f) index); [|split; assumption].
    destruct (invalid_subset f s); split; assumption.
  - unfold setParticleCharge. destruct (Vec.get (particles f) index); split; assumption.
  - unfold addException. destruct (findException f p1 p2) as [[[k1 k2] i]|];
      [destruct (negb replace)|]; split; assumption.
  - unfold setExceptionParameters. destruct (Vec.get (exceptions f) index); split; assumption.
  - split; [exact Hnd|]. simpl.
    eapply Forall_impl; [exact Hok|]. intros sp (A & B & C & E).
    unfold switching_entry_ok. simpl. rewrite size_snoc. repeat split; try lia; assumption.
  - unfold addSwitchingParameter.
    destruct (invalid_subset f s1) eqn:V1; [split; assumption|].
    destruct (invalid_subset f s2) eqn:V2; [split; assumption|].
    fold (sliceIndex s1 s2).
    destruct (existsb _ _) eqn:B; [split; assumption|].
    destruct (getGlobalParameterIndex f parameter) as [e|g] eqn:G; [split; assumption|].
    apply (switching_wf_intro f); [reflexivity|reflexivity| |];
      cbn [after switchingParameters with_switchingParameters].
    + rewrite fmap_app. apply NoDup_app. split; [exact Hnd|]. split.
      * intros k Hk Hk'. apply list_elem_of_singleton in Hk'. subst k.
        apply (existsb_slice_false _ _ B). exact Hk.
      * apply NoDup_singleton.
    + apply Forall_app. split; [exact Hok|]. constructor; [|constructor].
      apply new_entry_ok; try assumption.
      apply (getGlobalParameterIndex_range f parameter). exact G.
  - unfold setSwitchingParameter.
    destruct (Vec.get (switchingParameters f) index) as [old|] eqn:Gold; [|split; assumption].
    destruct (invalid_subset f s1) eqn:V1; [split; assumption|].
    destruct (invalid_subset f s2) eqn:V2; [split; assumption|].
    fold (sliceIndex s1 s2).
    destruct (getGlobalParameterIndex f parameter) as [e|g] eqn:G; [split; assumption|].
    destruct (negb (slice old =? sliceIndex s1 s2) && _) eqn:B; [split; assumption|].
    apply Vec.get_Some in Gold as [Hr Gold].
    apply (switching_wf_intro f); [reflexivity|reflexivity| |];
      cbn [after switchingParameters with_switchingParameters]; unfold Vec.set;
      assert (V : Vec.valid_index index (switchingParameters f) = true)
        by (apply Vec.valid_index_spec; exact Hr);
      rewrite V.
    + rewrite list_fmap_insert. cbn [slice mkSwitchingParameterInfo].
      apply andb_false_iff in B as [B|B].
      * apply negb_false_iff, Z.eqb_eq in B. rewrite <- B.
        rewrite list_insert_id; [exact Hnd|].
        rewrite list_lookup_fmap, Gold. reflexivity.
      * apply NoDup_insert_fresh; [exact Hnd|]. apply existsb_slice_false. exact B.
    + apply Forall_insert; [exact Hok|].
      apply new_entry_ok; try assumption.
      apply (getGlobalParameterIndex_range f parameter). exact G.
  - unfold addParticleChargeOffset.
    destruct (getGlobalParameterIndex f parameter); split; assumption.
  - unfold addExceptionChargeOffset.
    destruct (getGlobalParameterIndex f parameter); split; assumption.
Qed.

Lemma reachable_switching f : reachable f -> switching_wf f.
Proof.
  induction 1 as [n f Hc|f c _ IH].
  - apply construct_Some in Hc as (_ & _ & _ & _ & Hs & _).
    unfold switching_wf. rewrite Hs. split; constructor.
  - apply switching_wf_perform. exact IH.
Qed.

End Force.

Arguments Returned {_ A}.
Arguments Thrown {_ A}.

(** *** Concrete runs, on integer charges *)

Definition build (n : Z) (cs : list (@call ZScalar)) : option (@Force ZScalar) :=
  match construct n with
  | inl _ => None
  | inr f => Some (fold_left perform cs f)
  end.




(** A force with two subsets and nothing else. *)
Definition two_subsets : @Force ZScalar :=
  {| numSubsets := 2; particles := []; exceptions := []; exceptionMap := ∅;
     globalParameters := []; switchingParameters := [];
     switchingParameter := [1; 1; 1];
     particleOffsets := []; exceptionOffsets := [] |}.

Example construct_two_subsets : construct 2 = inr two_subsets.
Proof. reflexivity. Qed.

(** ... and one particle of charge [5] in subset [1]. *)
Definition one_particle : @Force ZScalar :=
  perform two_subsets (AddParticle (5 : @real ZScalar) 1).

Lemma subset_validation_witness :
  reachable one_particle /\
  forall p, p ∈ particles one_particle -> 0 <= subset p < numSubsets one_particle.
Proof.
  assert (R : reachable one_particle).
  { apply reachable_call. apply (reachable_construct 2). reflexivity. }
  split; [exact R|].
  apply (subset_validation one_particle). exact R.
Defined.

(** C9 as the specification words it does not hold for
    [setParticleSubset]: on a force without particles the subset [-1] is
    out of range, but the call fails on its index check and the error is
    not "Subset out of range". *)
Lemma setParticleSubset_counterexample :
  -1 < 0 /\
  setParticleSubset two_subsets 0 (-1) = Thrown two_subsets IndexOutOfRange /\
  setParticleSubset two_subsets 0 (-1) <> Thrown two_subsets SubsetOutOfRange.
Proof. split; [lia|]. split; [reflexivity|discriminate]. Qed.

(** C5 on a force whose exception was moved to another pair with
    [setExceptionParameters]: the registry still holds the old pair, so
    a second exception for the new pair [{2, 3}] is accepted without
    [replace], and a first exception for the old pair [{0, 1}], which no
    exception of the list has any more, is refused. *)
Definition moved_exception : @Force ZScalar :=
  perform (perform two_subsets (AddException 0 1 (5 : @real ZScalar) false))
          (SetExceptionParameters 0 2 3 (5 : @real ZScalar)).

Theorem addException_after_setExceptionParameters :
  addException two_subsets 0 1 (5 : @real ZScalar) false
    = Returned (perform two_subsets (AddException 0 1 (5 : @real ZScalar) false)) 0 /\
  exceptions moved_exception = [{| particle1 := 2; particle2 := 3; chargeProd := 5 |}] /\
  exception_for moved_exception 2 3 /\
  (exists f', addException moved_exception 2 3 (7 : @real ZScalar) false = Returned f' 1 /\
              exceptions f' = [{| particle1 := 2; particle2 := 3; chargeProd := 5 |};
                               {| particle1 := 2; particle2 := 3; chargeProd := 7 |}]) /\
  ~ exception_for moved_exception 0 1 /\
  addException moved_exception 0 1 (7 : @real ZScalar) false
    = Thrown moved_exception (ExceptionAlreadyExists 0 1).
Proof.
  split; [reflexivity|]. split; [reflexivity|]. split.
  { exists 0%nat. eexists. split; [reflexivity|]. left. split; reflexivity. }
  split.
  { eexists. split; reflexivity. }
  split; [|reflexivity].
  intros (i & e & Hi & Hp).
  destruct i as [|i]; [|discriminate Hi].
  vm_compute in Hi. injection Hi as <-.
  destruct Hp as [[Hp _]|[Hp _]]; discriminate Hp.
Qed.

(** Two subsets, the global parameter [lambda], bound to the slice of
    subsets [0] and [1]. *)
Definition bound_force : @Force ZScalar :=
  perform (perform two_subsets (AddGlobalParameter "lambda" (1 : @real ZScalar)))
          (AddSwitchingParameter "lambda" 0 1).

Example bound_force_switchingParameters :
  switchingParameters bound_force =
  [{| globalParamIndex := 0; subset1 := 0; subset2 := 1; slice := 1 |}].
Proof. reflexivity. Qed.

Lemma addSwitchingParameter_failures_witness :
  (exists e, addSwitchingParameter bound_force "lambda" 1 0 = Thrown bound_force e) /\
  (exists e, addSwitchingParameter bound_force "mu" 1 1 = Thrown bound_force e).
Proof.
  split.
  - apply (proj1 (addSwitchingParameter_failures bound_force "lambda" 1 0)).
    apply slice_bound_existsb. reflexivity.
  - apply (proj1 (proj2 (addSwitchingParameter_failures bound_force "mu" 1 1))).
    intros (g & Hg & Hn). vm_compute in Hg.
    apply list_elem_of_In in Hg. simpl in Hg.
    destruct Hg as [<-|[]]. discriminate Hn.
Defined.

End SlicedPmeForce.

(** ** The CUDA kernel, host side ([CudaPmeSlicingKernels.cpp])

    [initialize], [execute] and [copyParametersToContext] of
    [CudaCalcSlicedPmeForceKernel], as far as they compute on the host:
    the slice tables, the cached parameter values, the self-energies and
    the checks of the parameter copy.  The device kernels they launch
    (charge spreading, FFT, convolution, force interpolation) are not
    part of the model; of the device memory only the buffers the host
    uploads are kept. *)

Module CudaCalcSlicedPmeForceKernel.
Module F := SlicedPmeForce.
Section Kernel.
Context `{Scalar}.

(** What the kernel asks of its [CudaContext], and the factor
    [-ONE_4PI_EPS0*alpha/sqrt(M_PI)], whose [alpha] comes from
    [SlicedPmeForceImpl::calcPMEParameters]. *)
Record Platform := {
  numAtoms : Z;
  paddedNumAtoms : Z;
  contextIndex : Z;
  numContexts : Z;
  useDoublePrecision : bool;
  selfEnergyScale : real
}.

Record Kernel := {
  cu_useDoublePrecision : bool;          (* cu.getUseDoublePrecision() *)
  numSubsets : Z;
  numSlices : Z;
  hasOffsets : bool;
  sliceCoupParamIndex : list Z;
  coupParamNames : list string;
  coupParamValues : list real;
  sliceLambdaVec : list real;
  sliceLambda : list real;               (* device *)
  subsetSelfEnergy : list real;
  ewaldSelfEnergy : real;
  exceptionPairs : list (Z * Z);
  paramNames : list string;
  paramValues : list real;
  recomputeParams : bool;
  baseParticleCharges : list real;       (* device *)
  subsets : list Z;                      (* device *)
  baseExceptionChargeProds : list real;  (* device *)
  pmeGrid1_isInitialized : bool
}.

(** *** Reading the force *)

(** [getCouplingParameter(i, param, s1, s2)], the kernel's name for
    [getSwitchingParameter]: the parameter's name and the two subsets. *)
Definition getCouplingParameter (f : F.Force) (sp : F.SwitchingParameterInfo)
    : option (string * Z * Z) :=
  match Vec.get (F.globalParameters f) (F.globalParamIndex sp) with
  | Some g => Some (F.name g, F.subset1 sp, F.subset2 sp)
  | None => None
  end.

Definition couplingParameters (f : F.Force) : list (string * Z * Z) :=
  omap (getCouplingParameter f) (F.switchingParameters f).

(** [set<int> exceptionsWithOffsets] *)
Definition exceptionsWithOffsets (f : F.Force) : gset Z :=
  list_to_set (F.eo_exception <$> F.exceptionOffsets f).

(** The exceptions with [chargeProd != 0.0] or with an offset, in
    index order, each with its index: [vector<int> exceptions] and what
    [getExceptionParameters] returns for its entries. *)
Fixpoint nonExcludedFrom (offsets : gset Z) (i : Z) (es : list F.ExceptionInfo)
    : list (Z * F.ExceptionInfo) :=
  match es with
  | [] => []
  | e :: es' =>
      let rest := nonExcludedFrom offsets (i + 1) es' in
      if rneq (F.chargeProd e) r0 || bool_decide (i ∈ offsets)
      then (i, e) :: rest else rest
  end.

Definition nonExcluded (f : F.Force) : list (Z * F.ExceptionInfo) :=
  nonExcludedFrom (exceptionsWithOffsets f) 0 (F.exceptions f).

(** The part of a list this context works on:
    [startIndex = contextIndex*size/numContexts],
    [endIndex = (contextIndex+1)*size/numContexts]. *)
Definition startIndex (cu : Platform) (size : Z) : Z :=
  Z.quot (contextIndex cu * size) (numContexts cu).

Definition endIndex (cu : Platform) (size : Z) : Z :=
  Z.quot ((contextIndex cu + 1) * size) (numContexts cu).

Definition share {A} (cu : Platform) (l : list A) : list A :=
  let size := Vec.size l in
  take (Z.to_nat (endIndex cu size - startIndex cu size))
       (drop (Z.to_nat (startIndex cu size)) l).

Definition pairOf (e : F.ExceptionInfo) : Z * Z := (F.particle1 e, F.particle2 e).

(** *** [initialize] *)

(** One round of the loop over the coupling parameters:

      int index = find(coupParamNames.begin(), coupParamNames.end(), param)
                  - coupParamNames.begin();
      if (index == coupParamNames.size()) {
          coupParamNames.push_back(param);
          coupParamValues.push_back(1.0);
      }
      sliceCoupParamIndex[s2*(s2+1)/2+s1] = index;                     *)
Definition bindCoupling (acc : list string * list real * list Z) (cp : string * Z * Z)
    : list string * list real * list Z :=
  let '(names, values, table) := acc in
  let '(param, s1, s2) := cp in
  let index := Vec.find_index (String.eqb param) names in
  let '(names', values') :=
    if index =? Vec.size names then (names ++ [param], values ++ [r1])
    else (names, values) in
  (names', values',
   Vec.set table (CInt.wrap (Z.quot (CInt.wrap (s2 * CInt.wrap (s2 + 1))) 2 + s1)) index).

(** [for (i = 0; i < n; i++) subsetSelfEnergy[subsetVec[i]] +=
    baseParticleChargeVec[i]*baseParticleChargeVec[i];]

    The charges are [float]s, so is their product; the sum is a
    [double]. *)
Definition addSquare (subsetVec : list Z) (charges : list real)
    (acc : list real) (i : nat) : list real :=
  match subsetVec !! i, charges !! i with
  | Some s, Some q =>
      match Vec.get acc s with
      | Some e => Vec.set acc s (radd e (rfloat (rmul q q)))
      | None => acc
      end
  | _, _ => acc
  end.

Definition accumulateSquares (n : Z) (subsetVec : list Z) (charges : list real)
    (selfEnergy : list real) : list real :=
  fold_left (addSquare subsetVec charges) (seq 0 (Z.to_nat n)) selfEnergy.

(** [for (j = 0; j < numSubsets; j++) subsetSelfEnergy[j] *= scale;] *)
Definition scaleSelfEnergy (cu : Platform) (numSubsets : Z) (selfEnergy : list real)
    : list real :=
  Vec.update_prefix (fun e => rmul e (selfEnergyScale cu)) (Z.to_nat numSubsets) selfEnergy.

(** [for (j = 0; j < numSubsets; j++) ewaldSelfEnergy += subsetSelfEnergy[j];] *)
Definition plainSelfEnergySum (numSubsets : Z) (selfEnergy : list real) : real :=
  fold_left radd (take (Z.to_nat numSubsets) selfEnergy) r0.

(** [for (j = 0; j < numSubsets; j++)
        ewaldSelfEnergy += sliceLambdaVec[j*(j+3)/2]*subsetSelfEnergy[j];] *)
Definition weightedTerm (lambdas selfEnergy : list real) (acc : real) (j : nat) : real :=
  match Vec.get lambdas
          (Z.quot (CInt.wrap (Z.of_nat j * CInt.wrap (Z.of_nat j + 3))) 2),
        selfEnergy !! j with
  | Some l, Some e => radd acc (rmul l e)
  | _, _ => acc
  end.

Definition weightedSelfEnergySum (numSubsets : Z) (lambdas selfEnergy : list real) : real :=
  fold_left (weightedTerm lambdas selfEnergy) (seq 0 (Z.to_nat numSubsets)) r0.

(** The names of the global parameters behind the charge offsets, in
    order of first use, for [paramNames]. *)
Definition offsetParameterName (f : F.Force) (g : Z) : string :=
  match Vec.get (F.globalParameters f) g with
  | Some p => F.name p
  | None => EmptyString
  end.

Definition addParamName (names : list string) (param : string) : list string :=
  if Vec.find_index (String.eqb param) names =? Vec.size names
  then names ++ [param] else names.

(** [exceptionIndex[exception]]: the position of the exception among
    the non-excluded ones ([0] when the map has no entry). *)
Definition exceptionIndex (f : F.Force) (exception : Z) : Z :=
  let i := Vec.find_index (fun ie => fst ie =? exception) (nonExcluded f) in
  if i =? Vec.size (nonExcluded f) then 0 else i.

Definition offsetParamNames (cu : Platform) (f : F.Force) : list string :=
  let size := Vec.size (nonExcluded f) in
  let fromParticles :=
    fold_left (fun names o => addParamName names (offsetParameterName f (F.po_parameter o)))
              (F.particleOffsets f) [] in
  fold_left
    (fun names o =>
       let index := exceptionIndex f (F.eo_exception o) in
       if (index <? startIndex cu size) || (endIndex cu size <=? index) then names
       else addParamName names (offsetParameterName f (F.eo_parameter o)))
    (F.exceptionOffsets f) fromParticles.

Definition selfEnergies (cu : Platform) (n numSubsets : Z) (subsetVec : list Z)
    (charges : list real) : list real :=
  let zero := replicate (Z.to_nat numSubsets) r0 in
  if contextIndex cu =? 0
  then scaleSelfEnergy cu numSubsets (accumulateSquares n subsetVec charges zero)
  else zero.

(** The particle data as the kernel uploads it:

      vector<float> baseParticleChargeVec(cu.getPaddedNumAtoms(), 0.0);
      vector<int> subsetVec(cu.getPaddedNumAtoms());
      for (int i = 0; i < numParticles; i++) {
          baseParticleChargeVec[i] = force.getParticleCharge(i);
          subsetVec[i] = force.getParticleSubset(i);
      }                                                                *)
Definition chargeVec (cu : Platform) (f : F.Force) : list real :=
  Vec.fill (replicate (Z.to_nat (paddedNumAtoms cu)) (rfloat r0))
           ((fun p => rfloat (F.charge p)) <$> F.particles f).

Definition subsetVecOf (cu : Platform) (f : F.Force) : list Z :=
  Vec.fill (replicate (Z.to_nat (paddedNumAtoms cu)) 0) (F.subset <$> F.particles f).

(** [vector<float> baseExceptionChargeProdsVec]: the charge products
    of the exceptions of the share, as [float]s. *)
Definition chargeProdVec (es : list (Z * F.ExceptionInfo)) : list real :=
  (fun ie => rfloat (F.chargeProd (snd ie))) <$> es.

(** What [sliceLambda.upload] is given: [sliceLambdaVec] in double
    precision, [floatVector(sliceLambdaVec)] otherwise. *)
Definition uploadLambdas (double : bool) (lambdas : list real) : list real :=
  if double then lambdas else floatVector lambdas.

(** [hasOffsets = (force.getNumParticleChargeOffsets() > 0 ||
    force.getNumExceptionChargeOffsets() > 0)] *)
Definition hasChargeOffsets (f : F.Force) : bool :=
  (0 <? Vec.size (F.particleOffsets f)) || (0 <? Vec.size (F.exceptionOffsets f)).

(** [initialize], as far as the host computes.  [numSlices] is the
    [int] the source computes; the tables are resized to it (where it
    is negative the [resize] of the source throws, and the tables of the
    model are empty). *)
Definition initialize (cu : Platform) (f : F.Force) : Kernel :=
  let numParticles := F.getNumParticles f in
  let numSubsets := F.getNumSubsets f in
  let numSlices := Z.quot (CInt.wrap (numSubsets * CInt.wrap (numSubsets + 1))) 2 in
  let baseParticleChargeVec := chargeVec cu f in
  let subsetVec := subsetVecOf cu f in
  let hasOffsets := hasChargeOffsets f in
  let '(names, values, table) :=
    fold_left bindCoupling (couplingParameters f)
              ([], [], replicate (Z.to_nat numSlices) (-1)) in
  let sliceLambdaVec := replicate (Z.to_nat numSlices) r1 in
  let subsetSelfEnergy := selfEnergies cu numParticles numSubsets subsetVec baseParticleChargeVec in
  let exceptions := share cu (nonExcluded f) in
  let names' := offsetParamNames cu f in
  {| cu_useDoublePrecision := useDoublePrecision cu;
     numSubsets := numSubsets;
     numSlices := numSlices;
     hasOffsets := hasOffsets;
     sliceCoupParamIndex := table;
     coupParamNames := names;
     coupParamValues := values;
     sliceLambdaVec := sliceLambdaVec;
     sliceLambda := uploadLambdas (useDoublePrecision cu) sliceLambdaVec;
     subsetSelfEnergy := subsetSelfEnergy;
     ewaldSelfEnergy :=
       if contextIndex cu =? 0 then plainSelfEnergySum numSubsets subsetSelfEnergy else r0;
     exceptionPairs := (fun ie => pairOf (snd ie)) <$> exceptions;
     paramNames := names';
     paramValues := replicate (length names') r0;
     recomputeParams := true;
     baseParticleCharges := baseParticleChargeVec;
     subsets := subsetVec;
     baseExceptionChargeProds := chargeProdVec exceptions;
     pmeGrid1_isInitialized := contextIndex cu =? 0 |}.

(** *** [execute] *)

(** The refresh of cached parameter values:

      for (int i = 0; i < names.size(); i++) {
          double value = context.getParameter(names[i]);
          if (value != values[i]) { values[i] = value; changed = true; }
      }                                                                *)
Fixpoint refresh (context : string -> real) (names : list string) (values : list real)
    : list real * bool :=
  match names, values with
  | n :: names', v :: values' =>
      let '(rest, changed) := refresh context names' values' in
      if rneq (context n) v then (context n :: rest, true) else (v :: rest, changed)
  | _, _ => (values, false)
  end.

(** [for (slice = 0; slice < numSlices; slice++) {
        int index = sliceCoupParamIndex[slice];
        if (index != -1) sliceLambdaVec[slice] = coupParamValues[index]; }] *)
Fixpoint relambda (values : list real) (n : nat) (table : list Z) (lambdas : list real)
    : list real :=
  match n, table, lambdas with
  | S n', index :: table', l :: lambdas' =>
      (if index =? -1 then l
       else match Vec.get values index with Some v => v | None => l end)
      :: relambda values n' table' lambdas'
  | _, _, _ => lambdas
  end.

Definition with_coupling (ks : Kernel) (values lambdas device : list real) (e : real)
    : Kernel :=
  {| cu_useDoublePrecision := cu_useDoublePrecision ks;
     numSubsets := numSubsets ks; numSlices := numSlices ks; hasOffsets := hasOffsets ks;
     sliceCoupParamIndex := sliceCoupParamIndex ks; coupParamNames := coupParamNames ks;
     coupParamValues := values; sliceLambdaVec := lambdas; sliceLambda := device;
     subsetSelfEnergy := subsetSelfEnergy ks; ewaldSelfEnergy := e;
     exceptionPairs := exceptionPairs ks; paramNames := paramNames ks;
     paramValues := paramValues ks; recomputeParams := recomputeParams ks;
     baseParticleCharges := baseParticleCharges ks; subsets := subsets ks;
     baseExceptionChargeProds := baseExceptionChargeProds ks;
     pmeGrid1_isInitialized := pmeGrid1_isInitialized ks |}.

Definition with_params (ks : Kernel) (values : list real) (recompute : bool) (e : real)
    : Kernel :=
  {| cu_useDoublePrecision := cu_useDoublePrecision ks;
     numSubsets := numSubsets ks; numSlices := numSlices ks; hasOffsets := hasOffsets ks;
     sliceCoupParamIndex := sliceCoupParamIndex ks; coupParamNames := coupParamNames ks;
     coupParamValues := coupParamValues ks; sliceLambdaVec := sliceLambdaVec ks;
     sliceLambda := sliceLambda ks;
     subsetSelfEnergy := subsetSelfEnergy ks; ewaldSelfEnergy := e;
     exceptionPairs := exceptionPairs ks; paramNames := paramNames ks;
     paramValues := values; recomputeParams := recompute;
     baseParticleCharges := baseParticleCharges ks; subsets := subsets ks;
     baseExceptionChargeProds := baseExceptionChargeProds ks;
     pmeGrid1_isInitialized := pmeGrid1_isInitialized ks |}.

(** "Update coupling parameters if needed." *)
Definition updateCoupling (ks : Kernel) (context : string -> real) : Kernel :=
  let '(values, coupParamChanged) :=
    refresh context (coupParamNames ks) (coupParamValues ks) in
  if coupParamChanged then
    let lambdas := relambda values (Z.to_nat (numSlices ks))
                            (sliceCoupParamIndex ks) (sliceLambdaVec ks) in
    with_coupling ks values lambdas (uploadLambdas (cu_useDoublePrecision ks) lambdas)
      (weightedSelfEnergySum (numSubsets ks) lambdas (subsetSelfEnergy ks))
  else
    with_coupling ks values (sliceLambdaVec ks) (sliceLambda ks) (ewaldSelfEnergy ks).

(** "Update particle and exception parameters." *)
Definition updateParams (ks : Kernel) (context : string -> real) : Kernel :=
  let '(values, paramChanged) := refresh context (paramNames ks) (paramValues ks) in
  let recompute := if paramChanged then true else recomputeParams ks in
  if recompute then
    with_params ks values false
      (weightedSelfEnergySum (numSubsets ks) (sliceLambdaVec ks) (subsetSelfEnergy ks))
  else with_params ks values false (ewaldSelfEnergy ks).

(** The kernel after the call, and the energy it returns. *)
Definition execute (ks : Kernel) (context : string -> real)
    (includeForces includeEnergy includeDirect includeReciprocal : bool) : Kernel * real :=
  let ks1 := updateCoupling ks context in
  let ks2 := updateParams ks1 context in
  let energy :=
    if pmeGrid1_isInitialized ks2 && includeReciprocal then
      if includeEnergy then
        if hasOffsets ks2 then r0 else ewaldSelfEnergy ks2
      else r0
    else r0 in
  (ks2, energy).

(** *** [AddEnergyPostComputation] *)

(** [includeEnergy && (groups&(1<<forceGroup)) != 0] *)
Definition addsEnergy (includeEnergy : bool) (groups forceGroup : Z) : bool :=
  includeEnergy && negb (Z.land groups (Z.shiftl 1 forceGroup) =? 0).

(** Modelled from the spec: the device kernel [addEnergy] that
    [AddEnergyPostComputation] launches is in the kernel sources, which
    are not among the files.  "Each slice's raw (unscaled) energy is
    accumulated into a per-slice energy buffer; the reported total
    reciprocal energy is [Σ_slice lambda(slice) * rawEnergy(slice)]": the
    kernel adds, slice after slice, the slice's entry of the lambda
    buffer times the slice's raw energy to the energy buffer. *)
Definition addEnergyKernel (pmeEnergy sliceLambda : list real) (energyBuffer : real) : real :=
  fold_left (fun acc le => radd acc (rmul (fst le) (snd le)))
            (zip sliceLambda pmeEnergy) energyBuffer.

(** [computeForceAndEnergy]: the energy buffer after the call, and the
    returned value [0.0]. *)
Definition computeForceAndEnergy (ks : Kernel) (forceGroup : Z) (pmeEnergy : list real)
    (energyBuffer : real) (includeForces includeEnergy : bool) (groups : Z) : real * real :=
  if addsEnergy includeEnergy groups forceGroup
  then (addEnergyKernel pmeEnergy (sliceLambda ks) energyBuffer, r0)
  else (energyBuffer, r0).

(** *** [copyParametersToContext] *)

Inductive KernelError :=
  | ParticlesChanged
      (* "updateParametersInContext: The number of particles has changed" *)
  | ExceptionsChanged
      (* "updateParametersInContext: The set of non-excluded exceptions has changed" *).

Definition with_particles (ks : Kernel) (charges : list real) (subsetVec : list Z) : Kernel :=
  {| cu_useDoublePrecision := cu_useDoublePrecision ks;
     numSubsets := numSubsets ks; numSlices := numSlices ks; hasOffsets := hasOffsets ks;
     sliceCoupParamIndex := sliceCoupParamIndex ks; coupParamNames := coupParamNames ks;
     coupParamValues := coupParamValues ks; sliceLambdaVec := sliceLambdaVec ks;
     sliceLambda := sliceLambda ks;
     subsetSelfEnergy := subsetSelfEnergy ks; ewaldSelfEnergy := ewaldSelfEnergy ks;
     exceptionPairs := exceptionPairs ks; paramNames := paramNames ks;
     paramValues := paramValues ks; recomputeParams := recomputeParams ks;
     baseParticleCharges := charges; subsets := subsetVec;
     baseExceptionChargeProds := baseExceptionChargeProds ks;
     pmeGrid1_isInitialized := pmeGrid1_isInitialized ks |}.

Definition with_copied (ks : Kernel) (chargeProds : list real) (selfEnergy : list real)
    : Kernel :=
  {| cu_useDoublePrecision := cu_useDoublePrecision ks;
     numSubsets := numSubsets ks; numSlices := numSlices ks; hasOffsets := hasOffsets ks;
     sliceCoupParamIndex := sliceCoupParamIndex ks; coupParamNames := coupParamNames ks;
     coupParamValues := coupParamValues ks; sliceLambdaVec := sliceLambdaVec ks;
     sliceLambda := sliceLambda ks;
     subsetSelfEnergy := selfEnergy; ewaldSelfEnergy := r0;
     exceptionPairs := exceptionPairs ks; paramNames := paramNames ks;
     paramValues := paramValues ks; recomputeParams := true;
     baseParticleCharges := baseParticleCharges ks; subsets := subsets ks;
     baseExceptionChargeProds := chargeProds;
     pmeGrid1_isInitialized := pmeGrid1_isInitialized ks |}.

(** The loop that records the exceptions: [true] when every exception
    of the share has the particles recorded at initialisation, in the
    same order. *)
Fixpoint samePairs (pairs : list (Z * Z)) (es : list (Z * F.ExceptionInfo)) : bool :=
  match es, pairs with
  | [], _ => true
  | ie :: es', pr :: pairs' =>
      if negb (fst pr =? F.particle1 (snd ie)) || negb (snd pr =? F.particle2 (snd ie))
      then false else samePairs pairs' es'
  | _ :: _, [] => false
  end.

(** The kernel after the call and, when the call threw, what it
    threw.  The particle data is uploaded before the exceptions are
    compared, so the second failure leaves it changed. *)
Definition copyParametersToContext (cu : Platform) (ks : Kernel) (f : F.Force)
    : Kernel * option KernelError :=
  if negb (F.getNumParticles f =? numAtoms cu) then (ks, Some ParticlesChanged)
  else
    let exceptions := share cu (nonExcluded f) in
    let numExceptions := Vec.size exceptions in
    if negb (numExceptions =? Vec.size (exceptionPairs ks)) then (ks, Some ExceptionsChanged)
    else
      let baseParticleChargeVec := chargeVec cu f in
      let subsetVec := subsetVecOf cu f in
      let ks1 := with_particles ks baseParticleChargeVec subsetVec in
      if negb (samePairs (exceptionPairs ks) exceptions) then (ks1, Some ExceptionsChanged)
      else
        let chargeProds :=
          if 0 <? numExceptions then chargeProdVec exceptions
          else baseExceptionChargeProds ks in
        let selfEnergy :=
          selfEnergies cu (numAtoms cu) (numSubsets ks) subsetVec baseParticleChargeVec in
        (with_copied ks1 chargeProds selfEnergy, None).

(** *** What the tables mean *)

(** The slice the kernel files a coupling parameter of subsets
    [(s1, s2)] under. *)
Definition kernelSlice (s1 s2 : Z) : Z :=
  CInt.wrap (Z.quot (CInt.wrap (s2 * CInt.wrap (s2 + 1))) 2 + s1).




(** The self-energy of a subset: the squares of the charges of its
    particles, charges and squares in single precision, added up in
    particle order, times the scale. *)
Definition sumSquaredCharges (j : Z) (ps : list F.ParticleInfo) : real :=
  fold_left (fun acc p =>
               if F.subset p =? j
               then radd acc (rfloat (rmul (rfloat (F.charge p)) (rfloat (F.charge p))))
               else acc)
            ps r0.

Definition selfEnergyOf (cu : Platform) (f : F.Force) (j : Z) : real :=
  rmul (sumSquaredCharges j (F.particles f)) (selfEnergyScale cu).

(** A sum over the first [n] indices, in increasing order from [0.0]. *)
Definition sumOver (n : Z) (term : Z -> real) : real :=
  fold_left (fun acc (j : nat) => radd acc (term (Z.of_nat j))) (seq 0 (Z.to_nat n)) r0.

(** The host tables are coherent. *)
Record coherent (ks : Kernel) : Prop := {
  coh_values : length (coupParamValues ks) = length (coupParamNames ks);
  coh_table : length (sliceCoupParamIndex ks) = Z.to_nat (numSlices ks);
  coh_lambdas : length (sliceLambdaVec ks) = Z.to_nat (numSlices ks);
  coh_index : forall (k : nat) index, sliceCoupParamIndex ks !! k = Some index ->
                index = -1 \/ 0 <= index < Z.of_nat (length (coupParamNames ks));
  coh_lambda : forall (k : nat) index, sliceCoupParamIndex ks !! k = Some index ->
                 sliceLambdaVec ks !! k =
                   if index =? -1 then Some r1 else Vec.get (coupParamValues ks) index;
  coh_device : sliceLambda ks = uploadLambdas (cu_useDoublePrecision ks) (sliceLambdaVec ks);
  coh_energy : recomputeParams ks = true \/
               ewaldSelfEnergy ks =
                 weightedSelfEnergySum (numSubsets ks) (sliceLambdaVec ks) (subsetSelfEnergy ks)
}.

(** *** The loops *)

Lemma refresh_length context names : forall values,
  length (fst (refresh context names values)) = length values.
Proof.
  induction names as [|n names IH]; intros [|v values]; simpl; try reflexivity.
  specialize (IH values). destruct (refresh context names values) as [rest changed].
  destruct (rneq (context n) v); simpl in *; congruence.
Qed.

Lemma refresh_unchanged context names : forall values,
  snd (refresh context names values) = false ->
  fst (refresh context names values) = values.
Proof.
  induction names as [|n names IH]; intros [|v values]; simpl; try reflexivity.
  specialize (IH values). destruct (refresh context names values) as [rest changed].
  destruct (rneq (context n) v); simpl in *; [discriminate|].
  intros ->. rewrite IH; reflexivity.
Qed.


Lemma relambda_length values n : forall table lambdas,
  length (relambda values n table lambdas) = length lambdas.
Proof.
  induction n as [|n IH]; intros [|index table] [|l lambdas]; simpl; auto.
Qed.

Lemma relambda_lookup values n : forall table lambdas (k : nat) index l,
  (k < n)%nat -> table !! k = Some index -> lambdas !! k = Some l ->
  relambda values n table lambdas !! k =
    Some (if index =? -1 then l
          else match Vec.get values index with Some v => v | None => l end).
Proof.
  induction n as [|n IH]; intros [|i0 table] [|l0 lambdas] k index l Hk Ht Hl;
    simpl in *; try lia; try discriminate.
  destruct k as [|k]; simpl in *.
  - injection Ht as <-. injection Hl as <-. reflexivity.
  - apply IH; [lia|exact Ht|exact Hl].
Qed.

Lemma fold_left_ext_in {A B} (g g' : A -> B -> A) (l : list B) : forall a,
  (forall a x, x ∈ l -> g a x = g' a x) -> fold_left g l a = fold_left g' l a.
Proof.
  induction l as [|x l IH]; intros a Hg; simpl; [reflexivity|].
  rewrite Hg by left. apply IH. intros a' y Hy. apply Hg. right. exact Hy.
Qed.




(** *** The coupling table after [initialize] *)

Lemma find_index_range {A} (p : A -> bool) (v : list A) :
  0 <= Vec.find_index p v <= Z.of_nat (length v).
Proof.
  induction v as [|x v IH]; simpl; [lia|]. destruct (p x); lia.
Qed.

Lemma find_index_found {A} (p : A -> bool) (v : list A) :
  Vec.find_index p v < Z.of_nat (length v) ->
  exists x, v !! Z.to_nat (Vec.find_index p v) = Some x /\ p x = true.
Proof.
  induction v as [|x v IH]; simpl; [lia|].
  destruct (p x) eqn:E; intros Hlt.
  - exists x. auto.
  - pose proof (find_index_range p v).
    destruct IH as (y & Hy & Py); [lia|]. exists y. split; [|exact Py].
    replace (Z.to_nat (1 + Vec.find_index p v)) with (S (Z.to_nat (Vec.find_index p v))) by lia.
    exact Hy.
Qed.

(** The name filed under a slice by a table and a list of names. *)
Definition boundIn (names : list string) (table : list Z) (slice : Z) : option string :=
  match Vec.get table slice with
  | Some index => if index =? -1 then None else Vec.get names index
  | None => None
  end.

(** The invariant of the loop over the coupling parameters. *)
Definition tableInv (acc : list string * list real * list Z) : Prop :=
  let '(names, values, table) := acc in
  length values = length names /\
  Forall (fun v => v = r1) values /\
  forall (k : nat) index, table !! k = Some index ->
    index = -1 \/ 0 <= index < Z.of_nat (length names).

Lemma bindCoupling_step names values table param s1 s2 :
  tableInv (names, values, table) ->
  let acc' := bindCoupling (names, values, table) (param, s1, s2) in
  tableInv acc' /\
  length (snd acc') = length table /\
  forall k, 0 <= k < Z.of_nat (length table) ->
    boundIn (fst (fst acc')) (snd acc') k =
      if kernelSlice s1 s2 =? k then Some param else boundIn names table k.
Proof.
  intros (Hlen & Hone & Hidx). unfold bindCoupling.
  set (index := Vec.find_index (String.eqb param) names).
  pose proof (find_index_range (String.eqb param) names) as Hrange. fold index in Hrange.
  fold (kernelSlice s1 s2).
  assert (Hname : exists names' values',
            (if index =? Vec.size names then (names ++ [param], values ++ [r1])
             else (names, values)) = (names', values') /\
            length values' = length names' /\ Forall (fun v => v = r1) values' /\
            (length names <= length names')%nat /\
            (forall (i : nat) x, names !! i = Some x -> names' !! i = Some x) /\
            0 <= index < Z.of_nat (length names') /\
            names' !! Z.to_nat index = Some param).
  { unfold Vec.size. destruct (Z.eqb_spec index (Z.of_nat (length names))) as [E|NE].
    - exists (names ++ [param]), (values ++ [r1]). split; [reflexivity|].
      rewrite !length_app. simpl. split; [lia|].
      split; [apply Forall_app; split; [exact Hone|repeat constructor]|].
      split; [lia|]. split; [intros i x Hx; apply lookup_app_l_Some; exact Hx|].
      split; [lia|]. rewrite E, Nat2Z.id.
      rewrite lookup_app_r by lia. rewrite Nat.sub_diag. reflexivity.
    - exists names, values. split; [reflexivity|]. split; [exact Hlen|].
      split; [exact Hone|]. split; [lia|]. split; [auto|]. split; [lia|].
      destruct (find_index_found (String.eqb param) names) as (x & Hx & Px); [fold index; lia|].
      fold index in Hx. apply String.eqb_eq in Px. subst x. exact Hx. }
  destruct Hname as (names' & values' & -> & Hlen' & Hone' & Hgrow & Hkeep & Hi & Hp).
  simpl. split; [|split].
  - split; [exact Hlen'|]. split; [exact Hone'|].
    intros k i Hk. unfold Vec.set in Hk.
    destruct (Vec.valid_index (kernelSlice s1 s2) table) eqn:V.
    + destruct (decide (Z.to_nat (kernelSlice s1 s2) = k)) as [<-|Hne].
      * apply Vec.valid_index_spec in V.
        rewrite list_lookup_insert_eq in Hk by lia. injection Hk as <-. right. exact Hi.
      * rewrite list_lookup_insert_ne in Hk by exact Hne.
        destruct (Hidx _ _ Hk) as [->|Hr]; [left; reflexivity|right; lia].
    + destruct (Hidx _ _ Hk) as [->|Hr]; [left; reflexivity|right; lia].
  - apply Vec.length_set.
  - intros k Hk. unfold boundIn.
    destruct (Z.eqb_spec (kernelSlice s1 s2) k) as [->|Hne].
    + rewrite Vec.get_set_eq by exact Hk.
      destruct (Z.eqb_spec index (-1)) as [E|_]; [lia|].
      unfold Vec.get.
      assert (V : Vec.valid_index index names' = true) by (apply Vec.valid_index_spec; exact Hi).
      rewrite V. exact Hp.
    + rewrite Vec.get_set_ne by exact Hne.
      destruct (Vec.get table k) as [i|] eqn:G; [|reflexivity].
      destruct (Z.eqb_spec i (-1)) as [_|Hi1]; [reflexivity|].
      apply Vec.get_Some in G as [_ G].
      destruct (Hidx _ _ G) as [->|Hr]; [contradiction|].
      unfold Vec.get.
      assert (V : Vec.valid_index i names = true) by (apply Vec.valid_index_spec; exact Hr).
      assert (V' : Vec.valid_index i names' = true) by (apply Vec.valid_index_spec; lia).
      rewrite V, V'.
      destruct (lookup_lt_is_Some_2 names (Z.to_nat i) ltac:(lia)) as [x Hx].
      rewrite Hx. apply Hkeep. exact Hx.
Qed.

(** The parameter a list of coupling parameters binds to a slice: the
    last one filed under it. *)
Definition lastBound (from : option string) (cps : list (string * Z * Z)) (slice : Z)
    : option string :=
  fold_left (fun acc cp =>
               let '(param, s1, s2) := cp in
               if kernelSlice s1 s2 =? slice then Some param else acc)
            cps from.

Lemma bindCoupling_fold cps : forall acc,
  tableInv acc ->
  let acc' := fold_left bindCoupling cps acc in
  tableInv acc' /\
  length (snd acc') = length (snd acc) /\
  forall k, 0 <= k < Z.of_nat (length (snd acc)) ->
    boundIn (fst (fst acc')) (snd acc') k =
      lastBound (boundIn (fst (fst acc)) (snd acc) k) cps k.
Proof.
  induction cps as [|[[param s1] s2] cps IH]; intros [[names values] table] Hinv; simpl.
  - auto.
  - destruct (bindCoupling_step names values table param s1 s2 Hinv) as (Hinv' & Hlen' & Hb).
    destruct (IH _ Hinv') as (Hinv'' & Hlen'' & Hb'').
    split; [exact Hinv''|]. split; [simpl in *; congruence|].
    intros k Hk. rewrite Hb'' by (rewrite Hlen'; exact Hk).
    rewrite Hb by exact Hk. reflexivity.
Qed.

Lemma tableInv_start n : tableInv ([], [], replicate n (-1)).
Proof.
  split; [reflexivity|]. split; [constructor|].
  intros k index Hk. apply lookup_replicate in Hk as [-> _]. left. reflexivity.
Qed.

(** *** [initialize] and [execute] keep the tables coherent *)

Definition couplingFold (f : F.Force) : list string * list real * list Z :=
  fold_left bindCoupling (couplingParameters f)
    ([], [], replicate (Z.to_nat (SliceIndexMap.numSlices (F.getNumSubsets f))) (-1)).

Lemma initialize_fields cu f :
  let ks := initialize cu f in
  numSubsets ks = F.getNumSubsets f /\
  numSlices ks = SliceIndexMap.numSlices (F.getNumSubsets f) /\
  coupParamNames ks = fst (fst (couplingFold f)) /\
  coupParamValues ks = snd (fst (couplingFold f)) /\
  sliceCoupParamIndex ks = snd (couplingFold f) /\
  sliceLambdaVec ks = replicate (Z.to_nat (numSlices ks)) r1 /\
  sliceLambda ks = uploadLambdas (cu_useDoublePrecision ks) (sliceLambdaVec ks) /\
  recomputeParams ks = true /\
  pmeGrid1_isInitialized ks = (contextIndex cu =? 0) /\
  exceptionPairs ks = (fun ie => pairOf (snd ie)) <$> share cu (nonExcluded f) /\
  subsetSelfEnergy ks =
    selfEnergies cu (F.getNumParticles f) (F.getNumSubsets f)
      (subsetVecOf cu f) (chargeVec cu f) /\
  cu_useDoublePrecision ks = useDoublePrecision cu /\
  hasOffsets ks = hasChargeOffsets f.
Proof.
  unfold initialize, couplingFold, SliceIndexMap.numSlices.
  destruct (fold_left bindCoupling _ _) as [[names values] table].
  simpl. repeat split; reflexivity.
Qed.

Lemma initialize_coherent cu f : coherent (initialize cu f).
Proof.
  destruct (initialize_fields cu f)
    as (Hsub & Hsl & Hn & Hv & Ht & Hl & Hd & Hr & _).
  destruct (bindCoupling_fold (couplingParameters f) _
              (tableInv_start (Z.to_nat (SliceIndexMap.numSlices (F.getNumSubsets f)))))
    as (Hinv & Hlen & _).
  fold (couplingFold f) in Hinv, Hlen.
  destruct (couplingFold f) as [[names values] table] eqn:E.
  simpl in *. destruct Hinv as (Hvl & Hone & Hidx).
  rewrite length_replicate in Hlen.
  constructor.
  - rewrite Hn, Hv. exact Hvl.
  - rewrite Ht, Hsl. exact Hlen.
  - rewrite Hl. apply length_replicate.
  - rewrite Ht, Hn. exact Hidx.
  - rewrite Ht, Hl, Hv. intros k index Hk.
    assert (Hk' : (k < Z.to_nat (numSlices (initialize cu f)))%nat).
    { rewrite Hsl, <- Hlen. eapply lookup_lt_Some. exact Hk. }
    rewrite lookup_replicate_2 by exact Hk'.
    destruct (Z.eqb_spec index (-1)) as [_|Hne]; [reflexivity|].
    destruct (Hidx _ _ Hk) as [->|Hrange]; [contradiction|].
    destruct (Vec.get_in_range values index ltac:(lia)) as [v Hg].
    rewrite Hg. f_equal. apply Vec.get_Some in Hg as [_ Hg].
    rewrite Forall_lookup in Hone. symmetry. exact (Hone _ _ Hg).
  - exact Hd.
  - left. exact Hr.
Qed.

Lemma execute_fields ks context a b c d :
  let ks' := fst (execute ks context a b c d) in
  cu_useDoublePrecision ks' = cu_useDoublePrecision ks /\
  numSubsets ks' = numSubsets ks /\
  numSlices ks' = numSlices ks /\
  hasOffsets ks' = hasOffsets ks /\
  sliceCoupParamIndex ks' = sliceCoupParamIndex ks /\
  coupParamNames ks' = coupParamNames ks /\
  coupParamValues ks' = fst (refresh context (coupParamNames ks) (coupParamValues ks)) /\
  subsetSelfEnergy ks' = subsetSelfEnergy ks /\
  exceptionPairs ks' = exceptionPairs ks /\
  pmeGrid1_isInitialized ks' = pmeGrid1_isInitialized ks /\
  recomputeParams ks' = false.
Proof.
  unfold execute, updateParams, updateCoupling. simpl.
  destruct (refresh context (coupParamNames ks) (coupParamValues ks)) as [values changed].
  destruct changed; simpl;
    match goal with |- context [refresh context ?n ?v] =>
      destruct (refresh context n v) as [values' changed'] end;
    destruct changed'; simpl;
    try destruct (recomputeParams ks); simpl; repeat split; reflexivity.
Qed.

(** After [execute] the tables are coherent and the cached total
    self-energy is up to date. *)
Lemma execute_coherent ks context a b c d :
  coherent ks ->
  let ks' := fst (execute ks context a b c d) in
  coherent ks' /\
  ewaldSelfEnergy ks' =
    weightedSelfEnergySum (numSubsets ks') (sliceLambdaVec ks') (subsetSelfEnergy ks').
Proof.
  intros C. destruct C as [Cv Ct Cl Ci Clam Cd Ce].
  unfold execute, updateParams, updateCoupling. simpl.
  pose proof (refresh_length context (coupParamNames ks) (coupParamValues ks)) as Hlen.
  pose proof (refresh_unchanged context (coupParamNames ks) (coupParamValues ks)) as Hsame.
  destruct (refresh context (coupParamNames ks) (coupParamValues ks)) as [values changed].
  simpl in Hlen, Hsame.
  assert (Hcoupling :
    coherent (if changed
              then with_coupling ks values
                     (relambda values (Z.to_nat (numSlices ks))
                        (sliceCoupParamIndex ks) (sliceLambdaVec ks))
                     (uploadLambdas (cu_useDoublePrecision ks)
                        (relambda values (Z.to_nat (numSlices ks))
                           (sliceCoupParamIndex ks) (sliceLambdaVec ks)))
                     (weightedSelfEnergySum (numSubsets ks)
                        (relambda values (Z.to_nat (numSlices ks))
                           (sliceCoupParamIndex ks) (sliceLambdaVec ks))
                        (subsetSelfEnergy ks))
              else with_coupling ks values (sliceLambdaVec ks) (sliceLambda ks)
                     (ewaldSelfEnergy ks))).
  { destruct changed.
    - constructor; simpl; try assumption; try congruence.
      + rewrite relambda_length. exact Cl.
      + intros k index Hk.
        assert (Hk' : (k < Z.to_nat (numSlices ks))%nat)
          by (rewrite <- Ct; eapply lookup_lt_Some; exact Hk).
        destruct (lookup_lt_is_Some_2 (sliceLambdaVec ks) k ltac:(lia)) as [l Hl].
        rewrite (relambda_lookup values _ _ _ k index l Hk' Hk Hl).
        pose proof (Clam k index Hk) as Hold. rewrite Hl in Hold.
        destruct (Z.eqb_spec index (-1)) as [_|Hne]; [exact Hold|].
        destruct (Ci _ _ Hk) as [->|Hrange]; [contradiction|].
        destruct (Vec.get_in_range values index ltac:(lia)) as [v Hg].
        rewrite Hg. reflexivity.
      + right. reflexivity.
    - rewrite (Hsame eq_refl).
      constructor; simpl; assumption. }
  set (ks1 := if changed then _ else _) in *.
  clearbody ks1. destruct Hcoupling as [Cv1 Ct1 Cl1 Ci1 Clam1 Cd1 Ce1].
  destruct (refresh context (paramNames ks1) (paramValues ks1)) as [values' changed'].
  destruct changed'; simpl.
  - split; [constructor; simpl; try assumption; right; reflexivity|reflexivity].
  - destruct (recomputeParams ks1) eqn:R; simpl.
    + split; [constructor; simpl; try assumption; right; reflexivity|reflexivity].
    + destruct Ce1 as [Ce1|Ce1]; [congruence|].
      split; [constructor; simpl; try assumption; right; exact Ce1|exact Ce1].
Qed.



(** *** The self-energies *)

Lemma sumSquaredCharges_snoc j ps p :
  sumSquaredCharges j (ps ++ [p]) =
    if F.subset p =? j
    then radd (sumSquaredCharges j ps)
              (rfloat (rmul (rfloat (F.charge p)) (rfloat (F.charge p))))
    else sumSquaredCharges j ps.
Proof. unfold sumSquaredCharges. rewrite fold_left_app. reflexivity. Qed.

(** After [m] rounds of the accumulation every entry holds the sum
    over the first [m] particles. *)
Lemma accumulateSquares_prefix (ps : list F.ParticleInfo) (subsetVec : list Z)
    (charges : list real) (N : nat) (m : nat) :
  (forall (i : nat) p, ps !! i = Some p ->
     subsetVec !! i = Some (F.subset p) /\ charges !! i = Some (rfloat (F.charge p)) /\
     0 <= F.subset p < Z.of_nat N) ->
  (m <= length ps)%nat ->
  let acc := fold_left (addSquare subsetVec charges) (seq 0 m) (replicate N r0) in
  length acc = N /\
  forall j : nat, (j < N)%nat ->
    acc !! j = Some (sumSquaredCharges (Z.of_nat j) (take m ps)).
Proof.
  intros Hps. induction m as [|m IH]; intros Hm; cbv zeta.
  - simpl. split; [apply length_replicate|]. intros j Hj.
    rewrite lookup_replicate_2 by exact Hj. reflexivity.
  - destruct (IH ltac:(lia)) as [Hlen Hacc]. clear IH.
    rewrite seq_S, fold_left_app. simpl.
    set (acc := fold_left (addSquare subsetVec charges) (seq 0 m) (replicate N r0)) in *.
    destruct (lookup_lt_is_Some_2 ps m ltac:(lia)) as [p Hp].
    destruct (Hps m p Hp) as (Hs & Hq & Hrange).
    rewrite (take_S_r ps m p Hp).
    unfold addSquare. rewrite Hs, Hq.
    destruct (Vec.get_in_range acc (F.subset p) ltac:(lia)) as [e He].
    rewrite He. split; [rewrite Vec.length_set; exact Hlen|].
    intros j Hj. rewrite sumSquaredCharges_snoc.
    rewrite <- (Vec.get_of_nat (Vec.set acc (F.subset p) _) j).
    destruct (Z.eqb_spec (F.subset p) (Z.of_nat j)) as [E|NE].
    + rewrite <- E. rewrite Vec.get_set_eq by lia. f_equal. f_equal.
      rewrite E in He. rewrite Vec.get_of_nat, (Hacc j Hj) in He. congruence.
    + rewrite Vec.get_set_ne by exact NE. rewrite Vec.get_of_nat. apply Hacc. exact Hj.
Qed.

Lemma fill_particles {A} (d : A) (g : F.ParticleInfo -> A) (padded : Z)
    (ps : list F.ParticleInfo) (i : nat) p :
  Z.of_nat (length ps) <= padded -> ps !! i = Some p ->
  Vec.fill (replicate (Z.to_nat padded) d) (g <$> ps) !! i = Some (g p).
Proof.
  intros Hpad Hp.
  pose proof (lookup_lt_Some _ _ _ Hp) as Hi.
  rewrite Vec.lookup_fill.
  - rewrite list_lookup_fmap, Hp. reflexivity.
  - rewrite length_fmap, length_replicate. lia.
  - rewrite length_fmap. exact Hi.
Qed.

(** On context [0], the self-energy of every subset is the scaled sum
    of the squared charges of its particles. *)
Lemma selfEnergies_spec cu (f : F.Force) (j : Z) :
  contextIndex cu = 0 ->
  F.subsets_in_range f ->
  F.getNumParticles f <= paddedNumAtoms cu ->
  0 <= j < F.numSubsets f ->
  Vec.get
    (selfEnergies cu (F.getNumParticles f) (F.numSubsets f)
       (subsetVecOf cu f) (chargeVec cu f))
    j
  = Some (selfEnergyOf cu f j).
Proof.
  intros Hc Hsub Hpad Hj. unfold selfEnergies, F.getNumParticles, Vec.size in *.
  rewrite Hc. simpl. unfold scaleSelfEnergy, accumulateSquares.
  rewrite Nat2Z.id.
  destruct (accumulateSquares_prefix (F.particles f)
              (subsetVecOf cu f) (chargeVec cu f)
              (Z.to_nat (F.numSubsets f)) (length (F.particles f)))
    as [Hlen Hacc].
  { intros i p Hp. split; [|split].
    - apply fill_particles; assumption.
    - apply (fill_particles (rfloat r0) (fun p => rfloat (F.charge p))); assumption.
    - unfold F.subsets_in_range in Hsub. rewrite Forall_lookup in Hsub.
      specialize (Hsub _ _ Hp). simpl in Hsub. lia. }
  { lia. }
  rewrite firstn_all in Hacc.
  replace j with (Z.of_nat (Z.to_nat j)) at 1 by lia.
  rewrite Vec.get_of_nat, Vec.lookup_update_prefix by lia.
  rewrite (Hacc (Z.to_nat j)) by lia. simpl.
  unfold selfEnergyOf. rewrite Z2Nat.id by lia. reflexivity.
Qed.

(** On the other contexts the self-energies stay [0.0]. *)
Lemma selfEnergies_elsewhere cu n numSubsets subsetVec charges (j : Z) :
  contextIndex cu <> 0 -> 0 <= j < numSubsets ->
  Vec.get (selfEnergies cu n numSubsets subsetVec charges) j = Some r0.
Proof.
  intros Hc Hj. unfold selfEnergies.
  destruct (Z.eqb_spec (contextIndex cu) 0); [contradiction|].
  replace j with (Z.of_nat (Z.to_nat j)) by lia.
  rewrite Vec.get_of_nat. apply lookup_replicate_2. lia.
Qed.

(** *** [copyParametersToContext] *)

Definition pairsOf (es : list (Z * F.ExceptionInfo)) : list (Z * Z) :=
  (fun ie => pairOf (snd ie)) <$> es.

Lemma samePairs_spec : forall es pairs,
  length es = length pairs -> (samePairs pairs es = true <-> pairsOf es = pairs).
Proof.
  induction es as [|[i e] es IH]; intros [|[a b] pairs] Hl; simpl in Hl; try lia.
  - simpl. tauto.
  - change (pairsOf ((i, e) :: es)) with ((F.particle1 e, F.particle2 e) :: pairsOf es).
    simpl.
    destruct (Z.eqb_spec a (F.particle1 e)) as [->|Na]; simpl.
    + destruct (Z.eqb_spec b (F.particle2 e)) as [->|Nb]; simpl.
      * rewrite IH by lia. split; [intros ->; reflexivity|intros [= ->]; reflexivity].
      * split; [discriminate|intros [= ? ?]; congruence].
    + split; [discriminate|intros [= ? ?]; congruence].
Qed.

(** When the call fails and when it succeeds. *)
Lemma copyParametersToContext_outcome cu ks f :
  let result := copyParametersToContext cu ks f in
  (F.getNumParticles f <> numAtoms cu -> result = (ks, Some ParticlesChanged)) /\
  (F.getNumParticles f = numAtoms cu ->
   length (share cu (nonExcluded f)) <> length (exceptionPairs ks) ->
   result = (ks, Some ExceptionsChanged)) /\
  (F.getNumParticles f = numAtoms cu ->
   pairsOf (share cu (nonExcluded f)) <> exceptionPairs ks ->
   snd result = Some ExceptionsChanged) /\
  (F.getNumParticles f = numAtoms cu ->
   pairsOf (share cu (nonExcluded f)) = exceptionPairs ks ->
   snd result = None).
Proof.
  unfold copyParametersToContext, Vec.size.
  destruct (Z.eqb_spec (F.getNumParticles f) (numAtoms cu)) as [En|Nn]; simpl.
  2:{ repeat split; intros; try reflexivity; contradiction. }
  split; [intros; contradiction|].
  destruct (Z.eqb_spec (Z.of_nat (length (share cu (nonExcluded f))))
                       (Z.of_nat (length (exceptionPairs ks)))) as [El|Nl]; simpl.
  2:{ split; [reflexivity|]. split; [reflexivity|].
      intros _ E. exfalso. apply Nl. rewrite <- E. unfold pairsOf.
      rewrite length_fmap. reflexivity. }
  split; [intros _ N; exfalso; apply N; lia|].
  pose proof (samePairs_spec (share cu (nonExcluded f)) (exceptionPairs ks) ltac:(lia)) as S.
  destruct (samePairs (exceptionPairs ks) (share cu (nonExcluded f))); simpl.
  - split; [intros _ N; exfalso; apply N, S; reflexivity|reflexivity].
  - split; [reflexivity|]. intros _ E. apply S in E. discriminate.
Qed.

Lemma copyParametersToContext_fields cu ks f ks' e :
  copyParametersToContext cu ks f = (ks', e) ->
  cu_useDoublePrecision ks' = cu_useDoublePrecision ks /\
  numSubsets ks' = numSubsets ks /\
  numSlices ks' = numSlices ks /\
  hasOffsets ks' = hasOffsets ks /\
  sliceCoupParamIndex ks' = sliceCoupParamIndex ks /\
  coupParamNames ks' = coupParamNames ks /\
  coupParamValues ks' = coupParamValues ks /\
  sliceLambdaVec ks' = sliceLambdaVec ks /\
  sliceLambda ks' = sliceLambda ks /\
  exceptionPairs ks' = exceptionPairs ks /\
  pmeGrid1_isInitialized ks' = pmeGrid1_isInitialized ks /\
  (e = None ->
   recomputeParams ks' = true /\
   F.getNumParticles f = numAtoms cu /\
   pairsOf (share cu (nonExcluded f)) = exceptionPairs ks /\
   subsetSelfEnergy ks' =
     selfEnergies cu (numAtoms cu) (numSubsets ks) (subsetVecOf cu f) (chargeVec cu f)) /\
  (e <> None ->
   subsetSelfEnergy ks' = subsetSelfEnergy ks /\
   ewaldSelfEnergy ks' = ewaldSelfEnergy ks /\
   recomputeParams ks' = recomputeParams ks).
Proof.
  unfold copyParametersToContext, Vec.size.
  destruct (Z.eqb_spec (F.getNumParticles f) (numAtoms cu)) as [En|Nn]; simpl.
  2:{ intros [= <- <-]. repeat split; try reflexivity; discriminate. }
  destruct (Z.eqb_spec (Z.of_nat (length (share cu (nonExcluded f))))
                       (Z.of_nat (length (exceptionPairs ks)))) as [El|Nl]; simpl.
  2:{ intros [= <- <-]. repeat split; try reflexivity; discriminate. }
  pose proof (samePairs_spec (share cu (nonExcluded f)) (exceptionPairs ks) ltac:(lia)) as S.
  destruct (samePairs (exceptionPairs ks) (share cu (nonExcluded f))); simpl.
  - intros [= <- <-]. simpl. repeat split; try reflexivity; try congruence.
    apply S. reflexivity.
  - intros [= <- <-]. simpl. repeat split; try reflexivity; discriminate.
Qed.

Lemma copyParametersToContext_coherent cu ks f ks' e :
  coherent ks -> copyParametersToContext cu ks f = (ks', e) -> coherent ks'.
Proof.
  intros [Cv Ct Cl Ci Clam Cd Ce] Hcopy.
  destruct (copyParametersToContext_fields cu ks f ks' e Hcopy)
    as (Hdp & Hsub & Hsl & _ & Ht & Hn & Hv & Hl & Hd & _ & _ & Hok & Hfail).
  constructor; rewrite ?Hdp, ?Hsub, ?Hsl, ?Ht, ?Hn, ?Hv, ?Hl, ?Hd; try assumption.
  destruct e as [e|].
  - destruct Hfail as (Hs & He & Hr); [discriminate|]. rewrite Hs, He, Hr. exact Ce.
  - destruct Hok as (Hr & _); [reflexivity|]. left. exact Hr.
Qed.

(** *** The kernel of a context

    [serves cu f0 f ks]: [ks] is a state of the kernel that was
    initialised for the force [f0] and now holds the parameters of [f].
    The context initialises the kernel for a force with one particle
    per atom; the force it later copies parameters from is that same
    object, so its number of subsets is the one of [f0].  A failed copy
    leaves the kernel serving the force it served. *)
Inductive serves (cu : Platform) (f0 : F.Force) : F.Force -> Kernel -> Prop :=
  | serves_initialize :
      F.subsets_in_range f0 ->
      F.getNumParticles f0 = numAtoms cu ->
      numAtoms cu <= paddedNumAtoms cu ->
      serves cu f0 f0 (initialize cu f0)
  | serves_execute f ks context a b c d :
      serves cu f0 f ks ->
      serves cu f0 f (fst (execute ks context a b c d))
  | serves_copy f ks f' ks' :
      serves cu f0 f ks ->
      F.subsets_in_range f' ->
      F.numSubsets f' = F.numSubsets f0 ->
      copyParametersToContext cu ks f' = (ks', None) ->
      serves cu f0 f' ks'
  | serves_copy_failed f ks f' ks' e :
      serves cu f0 f ks ->
      copyParametersToContext cu ks f' = (ks', Some e) ->
      serves cu f0 f ks'.

Record kernelInv (cu : Platform) (f0 f : F.Force) (ks : Kernel) : Prop := {
  inv_coherent : coherent ks;
  inv_precision : cu_useDoublePrecision ks = useDoublePrecision cu;
  inv_offsets : hasOffsets ks = hasChargeOffsets f0;
  inv_numSubsets : numSubsets ks = F.numSubsets f0;
  inv_numSubsets' : F.numSubsets f = F.numSubsets f0;
  inv_numSlices : numSlices ks = SliceIndexMap.numSlices (F.numSubsets f0);
  inv_range : F.subsets_in_range f;
  inv_particles : F.getNumParticles f0 = numAtoms cu;
  inv_particles' : F.getNumParticles f = numAtoms cu;
  inv_padded : numAtoms cu <= paddedNumAtoms cu;
  inv_pairs : exceptionPairs ks = pairsOf (share cu (nonExcluded f0));
  inv_grid : pmeGrid1_isInitialized ks = (contextIndex cu =? 0);
  inv_table : sliceCoupParamIndex ks = sliceCoupParamIndex (initialize cu f0);
  inv_names : coupParamNames ks = coupParamNames (initialize cu f0);
  inv_selfEnergy :
    contextIndex cu = 0 ->
    forall j, 0 <= j < F.numSubsets f0 ->
      Vec.get (subsetSelfEnergy ks) j = Some (selfEnergyOf cu f j);
  inv_selfEnergy' :
    contextIndex cu <> 0 ->
    forall j, 0 <= j < F.numSubsets f0 ->
      Vec.get (subsetSelfEnergy ks) j = Some r0
}.

Lemma serves_kernelInv cu f0 f ks : serves cu f0 f ks -> kernelInv cu f0 f ks.
Proof.
  induction 1 as [Hr Hn Hp|f ks context a b c d _ IH|f ks f' ks' _ IH Hr Hs Hc
                 |f ks f' ks' e _ IH Hc].
  - destruct (initialize_fields cu f0)
      as (Hsub & Hsl & _ & _ & _ & _ & _ & _ & Hg & Hpairs & Hse & Hdp & Hoff).
    constructor; try assumption; try reflexivity.
    + apply initialize_coherent.
    + intros Hc j Hj. rewrite Hse. apply selfEnergies_spec; try assumption. lia.
    + intros Hc j Hj. rewrite Hse. apply selfEnergies_elsewhere; assumption.
  - destruct IH.
    destruct (execute_fields ks context a b c d)
      as (Hdp & Hsub & Hsl & Hoff & Ht & Hnm & _ & Hse & Hpairs & Hg & _).
    constructor; try assumption; try congruence.
    + apply execute_coherent. assumption.
    + intros Hc j Hj. rewrite Hse. auto.
    + intros Hc j Hj. rewrite Hse. auto.
  - destruct IH.
    destruct (copyParametersToContext_fields cu ks f' ks' None Hc)
      as (Hdp & Hsub & Hsl & Hoff & Ht & Hnm & _ & _ & _ & Hpairs & Hg & Hok & _).
    destruct (Hok eq_refl) as (_ & Hn' & _ & Hse).
    constructor; try assumption; try congruence.
    + eapply copyParametersToContext_coherent; eassumption.
    + intros Hc0 j Hj. rewrite Hse, inv_numSubsets0, <- Hs, <- Hn'.
      apply selfEnergies_spec; try assumption; lia.
    + intros Hc0 j Hj. rewrite Hse. apply selfEnergies_elsewhere; [exact Hc0|].
      rewrite inv_numSubsets0. exact Hj.
  - destruct IH.
    destruct (copyParametersToContext_fields cu ks f' ks' (Some e) Hc)
      as (Hdp & Hsub & Hsl & Hoff & Ht & Hnm & _ & _ & _ & Hpairs & Hg & _ & Hfail).
    destruct Hfail as (Hse & _); [discriminate|].
    constructor; try assumption; try congruence.
    + eapply copyParametersToContext_coherent; eassumption.
    + intros Hc0 j Hj. rewrite Hse. auto.
    + intros Hc0 j Hj. rewrite Hse. auto.
Qed.


(** *** The parameter a force binds to a slice *)

(** The switching parameter of a slice, found by its [slice] field as
    [addSwitchingParameter] looks for it, and the name of its global
    parameter as [getSwitchingParameter] reads it. *)
Definition parameterName (f : F.Force) (sp : F.SwitchingParameterInfo) : option string :=
  match Vec.get (F.globalParameters f) (F.globalParamIndex sp) with
  | Some g => Some (F.name g)
  | None => None
  end.

Definition forceBinding (f : F.Force) (slice : Z) : option string :=
  match List.find (fun sp => F.slice sp =? slice) (F.switchingParameters f) with
  | Some sp => parameterName f sp
  | None => None
  end.

(** Every switching parameter of the force was given with
    [subset1 <= subset2]. *)
Definition subsets_ordered (f : F.Force) : Prop :=
  Forall (fun sp => F.subset1 sp <= F.subset2 sp) (F.switchingParameters f).






(** *** What is reported *)









(** A sum over the first [n] indices is the sum of the terms there. *)
Lemma sumOver_ext n (term term' : Z -> real) :
  (forall j, 0 <= j < n -> term j = term' j) -> sumOver n term = sumOver n term'.
Proof.
  intros Hterm. unfold sumOver. apply fold_left_ext_in. intros acc j Hj.
  apply elem_of_seq in Hj. rewrite Hterm by lia. reflexivity.
Qed.






(** With one context the share of the kernel is the whole list. *)
Lemma share_single {A} cu (l : list A) :
  contextIndex cu = 0 -> numContexts cu = 1 -> share cu l = l.
Proof.
  intros Hc Hn. unfold share, startIndex, endIndex, Vec.size.
  rewrite Hc, Hn. rewrite !Z.quot_1_r.
  replace (0 * Z.of_nat (length l)) with 0 by lia.
  replace ((0 + 1) * Z.of_nat (length l) - 0) with (Z.of_nat (length l)) by lia.
  rewrite Nat2Z.id. change (Z.to_nat 0) with 0%nat. rewrite drop_0. apply firstn_all.
Qed.

(** C8.  [copyParametersToContext] throws when the number of particles
    of the force differs from the number at initialisation, and throws
    when the non-excluded exceptions (non-zero [chargeProd], or a charge
    offset) the kernel works on differ from those of the initialisation
    in number or in their particle pairs; when neither differs, whatever
    the charges and charge products, it returns. *)
Theorem copyParametersToContext_checks cu f0 f ks (f' : F.Force) :
  serves cu f0 f ks ->
  (F.getNumParticles f' <> F.getNumParticles f0 ->
     copyParametersToContext cu ks f' = (ks, Some ParticlesChanged)) /\
  (F.getNumParticles f' = F.getNumParticles f0 ->
   length (share cu (nonExcluded f')) <> length (share cu (nonExcluded f0)) ->
     copyParametersToContext cu ks f' = (ks, Some ExceptionsChanged)) /\
  (F.getNumParticles f' = F.getNumParticles f0 ->
   pairsOf (share cu (nonExcluded f')) <> pairsOf (share cu (nonExcluded f0)) ->
     snd (copyParametersToContext cu ks f') = Some ExceptionsChanged) /\
  (F.getNumParticles f' = F.getNumParticles f0 ->
   pairsOf (share cu (nonExcluded f')) = pairsOf (share cu (nonExcluded f0)) ->
     snd (copyParametersToContext cu ks f') = None).
Proof.
  intros Hs. pose proof (serves_kernelInv _ _ _ _ Hs) as Inv.
  destruct (copyParametersToContext_outcome cu ks f') as (H1 & H2 & H3 & H4).
  rewrite (inv_particles _ _ _ _ Inv).
  rewrite (inv_pairs _ _ _ _ Inv) in H2, H3, H4.
  unfold pairsOf in H2 at 1. rewrite length_fmap in H2.
  auto.
Qed.

(** *** Several contexts

    The shares of the contexts [0 .. numContexts-1] are consecutive
    pieces of the list, and together they are the list. *)

Definition atContext (cu : Platform) (c : Z) : Platform :=
  {| numAtoms := numAtoms cu; paddedNumAtoms := paddedNumAtoms cu;
     contextIndex := c; numContexts := numContexts cu;
     useDoublePrecision := useDoublePrecision cu;
     selfEnergyScale := selfEnergyScale cu |}.

Lemma share_start_end {A} cu (c : Z) (l : list A) :
  0 <= c -> 0 < numContexts cu ->
  0 <= startIndex (atContext cu c) (Vec.size l)
    <= endIndex (atContext cu c) (Vec.size l) /\
  endIndex (atContext cu c) (Vec.size l) = startIndex (atContext cu (c + 1)) (Vec.size l).
Proof.
  intros Hc HC. unfold startIndex, endIndex, Vec.size. simpl.
  split; [|reflexivity].
  rewrite !Z.quot_div_nonneg by nia.
  split; [apply Z.div_pos; nia|].
  apply Z.div_le_mono; nia.
Qed.

Lemma shares_concat {A} cu (l : list A) (k : nat) :
  0 < numContexts cu ->
  concat ((fun c : nat => share (atContext cu (Z.of_nat c)) l) <$> seq 0 k)
  = take (Z.to_nat (startIndex (atContext cu (Z.of_nat k)) (Vec.size l))) l.
Proof.
  intros HC. induction k as [|k IH].
  - simpl. unfold startIndex. simpl. rewrite Z.quot_0_l by lia. reflexivity.
  - rewrite seq_S, fmap_app, concat_app, IH. simpl. rewrite app_nil_r.
    destruct (share_start_end cu (Z.of_nat k) l ltac:(lia) HC) as [Hle He].
    unfold share. rewrite take_take_drop. f_equal.
    replace (Z.of_nat k + 1) with (Z.of_nat (S k)) in He by lia.
    rewrite <- He. lia.
Qed.

(** Lists with the same share on every context are the same list. *)
Lemma shares_cover {A} cu (l l' : list A) :
  0 < numContexts cu ->
  (forall c, 0 <= c < numContexts cu ->
     share (atContext cu c) l = share (atContext cu c) l') ->
  l = l'.
Proof.
  intros HC Hshares.
  assert (Hall : forall m : list A,
            concat ((fun c : nat => share (atContext cu (Z.of_nat c)) m)
                      <$> seq 0 (Z.to_nat (numContexts cu))) = m).
  { intros m. rewrite shares_concat by exact HC.
    unfold startIndex, Vec.size. simpl. rewrite Z2Nat.id by lia.
    rewrite Z.mul_comm, Z.quot_mul by lia. rewrite Nat2Z.id. apply firstn_all. }
  rewrite <- (Hall l), <- (Hall l'). f_equal.
  apply list_fmap_ext. intros i c Hc.
  apply lookup_seq in Hc as [-> Hlt]. apply Hshares. lia.
Qed.

Lemma pairsOf_share cu es : pairsOf (share cu es) = share cu (pairsOf es).
Proof.
  unfold pairsOf, share, Vec.size. rewrite fmap_take, fmap_drop, length_fmap. reflexivity.
Qed.

(** If every context finds the pairs of its share unchanged, the
    pairs of all non-excluded exceptions are unchanged: a change in
    their number or in a pair makes the copy fail on some context. *)
Lemma unchanged_on_every_context cu (f0 f' : F.Force) :
  0 < numContexts cu ->
  (forall c, 0 <= c < numContexts cu ->
     pairsOf (share (atContext cu c) (nonExcluded f'))
     = pairsOf (share (atContext cu c) (nonExcluded f0))) ->
  pairsOf (nonExcluded f') = pairsOf (nonExcluded f0).
Proof.
  intros HC Hc. apply (shares_cover cu); [exact HC|].
  intros c Hrange. rewrite <- !pairsOf_share. apply Hc. exact Hrange.
Qed.

End Kernel.

(** *** A concrete context, on integer charges *)

(** Two subsets; a particle of charge [2] in subset [0] and one of
    charge [-1] in subset [1]; [lambda] bound to the slice of subsets
    [0] and [1], [mu] to the diagonal slice of subset [1]; one exception
    between the two particles. *)
Definition f0 : @F.Force ZScalar :=
  fold_left F.perform
    [F.AddParticle (2 : @real ZScalar) 0;
     F.AddParticle (-1 : @real ZScalar) 1;
     F.AddGlobalParameter "lambda" (1 : @real ZScalar);
     F.AddGlobalParameter "mu" (1 : @real ZScalar);
     F.AddSwitchingParameter "lambda" 0 1;
     F.AddSwitchingParameter "mu" 1 1;
     F.AddException 0 1 (4 : @real ZScalar) false]
    F.two_subsets.

(** One device computing in single precision, room for 32 atoms, and
    [-3] for the self-energy scale. *)
Definition cu1 : @Platform ZScalar :=
  {| numAtoms := 2; paddedNumAtoms := 32; contextIndex := 0; numContexts := 1;
     useDoublePrecision := false;
     selfEnergyScale := (-3 : @real ZScalar) |}.

(** The context holds [lambda = 2] and [mu = 5]. *)
Definition context1 (parameter : string) : @real ZScalar :=
  if String.eqb parameter "lambda" then 2
  else if String.eqb parameter "mu" then 5 else 0.

Lemma serves_f0 : serves cu1 f0 f0 (initialize cu1 f0).
Proof.
  apply serves_initialize.
  - unfold F.subsets_in_range. simpl. repeat constructor; simpl; lia.
  - reflexivity.
  - simpl. lia.
Qed.



Example f0_bindings :
  forceBinding f0 0 = None /\ forceBinding f0 1 = Some "lambda"%string /\
  forceBinding f0 2 = Some "mu"%string.
Proof. repeat split; reflexivity. Qed.

Example f0_couplingParameters :
  couplingParameters f0 = [("lambda"%string, 0, 1); ("mu"%string, 1, 1)].
Proof. reflexivity. Qed.

Example f0_table :
  sliceCoupParamIndex (initialize cu1 f0) = [-1; 0; 1] /\
  sliceLambdaVec (initialize cu1 f0) = [1; 1; 1] /\
  subsetSelfEnergy (initialize cu1 f0) = [-12; -3].
Proof. repeat split; vm_compute; reflexivity. Qed.

Example f0_execute :
  let '(ks, energy) := execute (initialize cu1 f0) context1 true true true true in
  sliceLambdaVec ks = [1; 2; 5] /\ sliceLambda ks = [1; 2; 5] /\
  energy = 1 * (-12) + 5 * (-3).
Proof. vm_compute. repeat split; reflexivity. Qed.

Example f0_addEnergy :
  computeForceAndEnergy
    (fst (execute (initialize cu1 f0) context1 true true true true))
    0 [10; 20; 30] (0 : @real ZScalar) true true 1
  = (1 * 10 + 2 * 20 + 5 * 30, 0).
Proof. vm_compute. reflexivity. Qed.












(** [f0] with a third particle. *)
Definition f0_grown : @F.Force ZScalar :=
  F.perform f0 (F.AddParticle (1 : @real ZScalar) 0).

(** [f0] with its exception excluded: [chargeProd = 0]. *)
Definition f0_excluded : @F.Force ZScalar :=
  F.perform f0 (F.SetExceptionParameters 0 0 1 (0 : @real ZScalar)).

(** [f0] with other charges, and another charge product. *)
Definition f0_recharged : @F.Force ZScalar :=
  F.perform (F.perform f0 (F.SetParticleCharge 0 (7 : @real ZScalar)))
            (F.SetExceptionParameters 0 0 1 (9 : @real ZScalar)).

Example copy_grown :
  snd (copyParametersToContext cu1 (initialize cu1 f0) f0_grown) = Some ParticlesChanged.
Proof. vm_compute. reflexivity. Qed.

Example copy_excluded :
  snd (copyParametersToContext cu1 (initialize cu1 f0) f0_excluded) = Some ExceptionsChanged.
Proof. vm_compute. reflexivity. Qed.

Example copy_recharged :
  snd (copyParametersToContext cu1 (initialize cu1 f0) f0_recharged) = None /\
  subsetSelfEnergy (fst (copyParametersToContext cu1 (initialize cu1 f0) f0_recharged))
    = [-147; -3].
Proof. vm_compute. split; reflexivity. Qed.

Lemma copyParametersToContext_checks_witness :
  copyParametersToContext cu1 (initialize cu1 f0) f0_grown
    = (initialize cu1 f0, Some ParticlesChanged) /\
  copyParametersToContext cu1 (initialize cu1 f0) f0_excluded
    = (initialize cu1 f0, Some ExceptionsChanged) /\
  snd (copyParametersToContext cu1 (initialize cu1 f0) f0_recharged) = None.
Proof.
  split; [|split].
  - apply (proj1 (copyParametersToContext_checks cu1 f0 f0 (initialize cu1 f0) f0_grown
                    serves_f0)).
    vm_compute. discriminate.
  - apply (proj1 (proj2 (copyParametersToContext_checks cu1 f0 f0 (initialize cu1 f0)
                           f0_excluded serves_f0))).
    + reflexivity.
    + vm_compute. discriminate.
  - apply (proj2 (proj2 (proj2 (copyParametersToContext_checks cu1 f0 f0
                                  (initialize cu1 f0) f0_recharged serves_f0)))).
    + reflexivity.
    + vm_compute. reflexivity.
Defined.

(** Three subsets and a parameter bound with the subsets given as
    [(2, 0)].  The force records the slice [3] of the pair; the subsets
    are read back as they were given, and the kernel files the
    parameter under [0*(0+1)/2 + 2 = 2], the diagonal slice of subset
    [1]: after [execute] the lambda of slice [2], to which the force
    binds nothing, is the value of [p], and the lambda of slice [3] is
    [1].  (How the subsets are stored is decided by
    [SlicedPmeForce.h]; see [mkSwitchingParameterInfo].) *)
Definition f_unordered : @F.Force ZScalar :=
  match F.build 3 [F.AddGlobalParameter "p" (1 : @real ZScalar);
                   F.AddSwitchingParameter "p" 2 0] with
  | Some f => f
  | None => F.two_subsets
  end.

Example unordered_binding :
  F.slice <$> F.switchingParameters f_unordered = [3] /\
  forceBinding f_unordered 3 = Some "p"%string /\
  forceBinding f_unordered 2 = None /\
  SliceIndexMap.sliceIndex 1 1 = 2 /\
  sliceCoupParamIndex (initialize cu1 f_unordered) = [-1; -1; 0; -1; -1; -1] /\
  sliceLambdaVec (fst (execute (initialize cu1 f_unordered)
                               (fun _ => (7 : @real ZScalar)) true true true true))
    = [1; 1; 7; 1; 1; 1] /\
  ~ subsets_ordered f_unordered.
Proof.
  repeat split; try (vm_compute; reflexivity).
  intros Ho. apply Forall_cons in Ho as [Ho _]. vm_compute in Ho. apply Ho. reflexivity.
Qed.

End CudaCalcSlicedPmeForceKernel.

(** * Further properties

    The rest of this file states what else the sources show about the
    functions modelled above and about their neighbours. *)

(** ** The grid size search, continued *)

Module LegalDimension.
Import OpenCLVkFFT3D.

Lemma residue_1 mpf : residue 1 mpf = 1.
Proof. apply residue_small. lia. Qed.

Lemma residue_positive r mpf : residue r mpf = 1 -> 1 <= r.
Proof.
  intros E. destruct (Z_le_gt_dec r 0) as [Hle|Hgt]; [|lia].
  rewrite residue_small in E by lia. lia.
Qed.

(** What a returned value is, whatever the arguments: a size that the
    trial division reduces to [1]; and the [for] loop has an exit
    unless the call returned at once. *)
Lemma search_result (fuel : nat) : forall m mpf r,
  search fuel m mpf = Some r -> mpf < CInt.INT_MAX /\ residue r mpf = 1.
Proof.
  induction fuel as [|fuel IH]; intros m mpf r H; [discriminate|].
  cbn [search] in H.
  destruct (unfactoredPart m mpf) as [u|] eqn:Eu; [|discriminate].
  apply unfactoredPart_Some in Eu as [Hmpf ->].
  destruct (Z.eqb_spec (residue m mpf) 1) as [E|_].
  - injection H as <-. auto.
  - apply (IH _ _ _ H).
Qed.

Lemma findLegalDimension_Some fuel minimum mpf r :
  findLegalDimension fuel minimum mpf = Some r ->
  1 <= r /\ residue r mpf = 1 /\ (minimum < 1 /\ r = 1 \/ 1 <= minimum /\ mpf < CInt.INT_MAX).
Proof.
  unfold findLegalDimension. destruct (Z.ltb_spec minimum 1) as [Hlt|Hge].
  - intros [= <-]. split; [lia|]. split; [apply residue_1|]. left. auto.
  - intros H. apply search_result in H as [Hmpf E].
    split; [exact (residue_positive _ _ E)|]. split; [exact E|]. right. auto.
Qed.

(** X1.  From a [minimum] up to [2^30], with primes from [2] below
    [INT_MAX], the search stops below twice its starting point: between
    [minimum] and [2*minimum] there is a power of two.  So the loop
    variable never leaves the range of an [int], and the outer loop runs
    at most [minimum] times. *)
Theorem findLegalDimension_below_double (minimum maxPrimeFactor : Z) :
  1 <= minimum <= 2 ^ 30 -> 2 <= maxPrimeFactor < CInt.INT_MAX ->
  exists r,
    findLegalDimension (Z.to_nat minimum) minimum maxPrimeFactor = Some r /\
    minimum <= r < 2 * minimum /\
    CInt.in_range r.
Proof.
  intros Hmin Hmpf.
  destruct (legal_in_reach minimum maxPrimeFactor Hmin ltac:(lia)) as (T & HT & HTmax & LT).
  destruct (findLegalDimension_general minimum maxPrimeFactor ltac:(lia) ltac:(lia))
    as (r & Hr & _ & Hle & _ & Hsmall).
  { exists T. split; [lia|exact LT]. }
  pose proof (Hsmall T ltac:(lia) LT) as HrT.
  exists r. split; [apply Hr; lia|]. split; [lia|].
  unfold CInt.in_range, CInt.INT_MIN, CInt.INT_MAX in *. lia.
Qed.

Lemma findLegalDimension_below_double_witness :
  exists r,
    findLegalDimension (Z.to_nat 1000) 1000 7 = Some r /\
    1000 <= r < 2 * 1000 /\
    CInt.in_range r.
Proof.
  apply (findLegalDimension_below_double 1000 7); [|unfold CInt.INT_MAX]; lia.
Defined.

(** X2.  A returned size is a fixed point: asked for a size from the
    answer on, the search answers with it in its first round.  (A call
    with [minimum < 1] returns [1] without entering the loops; with
    [maxPrimeFactor = INT_MAX] a call from [1] on enters a [for] loop
    that does not end.) *)
Theorem findLegalDimension_fixed_point (fuel fuel' : nat) (minimum maxPrimeFactor r : Z) :
  1 <= minimum \/ maxPrimeFactor < CInt.INT_MAX ->
  findLegalDimension fuel minimum maxPrimeFactor = Some r ->
  (1 <= fuel')%nat ->
  findLegalDimension fuel' r maxPrimeFactor = Some r.
Proof.
  intros Hcase H Hfuel. apply findLegalDimension_Some in H as (H1 & H2 & H3).
  assert (Hmpf : maxPrimeFactor < CInt.INT_MAX) by (destruct Hcase, H3; lia).
  unfold findLegalDimension.
  destruct (Z.ltb_spec r 1) as [Hlt|_]; [lia|].
  destruct fuel' as [|fuel']; [lia|].
  rewrite search_round by exact Hmpf. rewrite H2. reflexivity.
Qed.

Lemma findLegalDimension_fixed_point_witness :
  findLegalDimension 1 105 7 = Some 105.
Proof.
  apply (findLegalDimension_fixed_point 5 1 101 7 105);
    [left; lia|vm_compute; reflexivity|lia].
Defined.

(** With [minimum < 1] and [maxPrimeFactor = INT_MAX] the answer [1]
    is no fixed point: the call from [1] does not return. *)
Example findLegalDimension_no_fixed_point :
  findLegalDimension 0 0 2147483647 = Some 1 /\
  forall fuel, findLegalDimension fuel 1 2147483647 = None.
Proof.
  split; [reflexivity|]. intros fuel. unfold findLegalDimension.
  destruct (Z.ltb_spec 1 1); [lia|].
  destruct fuel as [|fuel]; [reflexivity|]. cbn [search].
  rewrite unfactoredPart_no_exit; [reflexivity|]. unfold CInt.INT_MAX. lia.
Qed.

(** X3.  Among the answers of searches that did not run past
    [INT_MAX] (the answer is not below the [minimum] of the call), the
    answer grows with [minimum] and shrinks as more primes are
    allowed. *)
Theorem findLegalDimension_monotone
    (fuel fuel' : nat) (minimum minimum' maxPrimeFactor maxPrimeFactor' r r' : Z) :
  CInt.in_range minimum -> CInt.in_range minimum' ->
  findLegalDimension fuel minimum maxPrimeFactor = Some r ->
  findLegalDimension fuel' minimum' maxPrimeFactor' = Some r' ->
  (minimum <= minimum' -> maxPrimeFactor = maxPrimeFactor' -> minimum' <= r' -> r <= r') /\
  (minimum = minimum' -> maxPrimeFactor <= maxPrimeFactor' -> minimum <= r -> r' <= r).
Proof.
  intros Hm Hm' H H'.
  pose proof (findLegalDimension_Some _ _ _ _ H) as (H1 & Ht & _).
  pose proof (findLegalDimension_Some _ _ _ _ H') as (H1' & Ht' & _).
  unfold findLegalDimension in H, H'.
  split.
  - intros Hle <- Hr'.
    destruct (Z.ltb_spec minimum 1) as [Hlt|Hge]; [injection H as <-; lia|].
    destruct (search_Some _ _ _ _ H Hm) as (_ & _ & _ & [[_ Hfail]|[Hlt _]]); [|lia].
    destruct (Z_le_gt_dec r r') as [|Hgt]; [assumption|exfalso].
    apply (Hfail r'); [lia|exact Ht'].
  - intros <- Hle Hr.
    destruct (Z.ltb_spec minimum 1) as [Hlt|Hge].
    { injection H as <-. injection H' as <-. lia. }
    destruct (search_Some _ _ _ _ H' Hm') as (_ & _ & _ & [[_ Hfail]|[Hlt _]]); [|lia].
    destruct (Z_le_gt_dec r' r) as [|Hgt]; [assumption|exfalso].
    apply (Hfail r); [lia|].
    apply residue_legal; [lia|].
    apply residue_legal in Ht; [|lia].
    intros p Pp Hp. specialize (Ht p Pp Hp). lia.
Qed.

Lemma findLegalDimension_monotone_witness :
  (101 <= 106 -> 7 = 7 -> 106 <= 108 -> 105 <= 108) /\
  (101 = 101 -> 5 <= 7 -> 101 <= 108 -> 105 <= 108).
Proof.
  split.
  - apply (findLegalDimension_monotone 5 3 101 106 7 7 105 108);
      try (unfold CInt.in_range, CInt.INT_MIN, CInt.INT_MAX; lia);
      vm_compute; reflexivity.
  - apply (findLegalDimension_monotone 8 5 101 101 5 7 108 105);
      try (unfold CInt.in_range, CInt.INT_MIN, CInt.INT_MAX; lia);
      vm_compute; reflexivity.
Defined.

End LegalDimension.

(** ** The force object, continued *)

Module ForceFacts.
Import SliceIndexMap SlicedPmeForce.
Section Facts.
Context `{Scalar}.

(** *** Global parameters *)

Lemma find_index_first {A} (p : A -> bool) (v : list A) (j : nat) x :
  Z.of_nat j < Vec.find_index p v -> v !! j = Some x -> p x = false.
Proof.
  revert j. induction v as [|y v IH]; intros j Hj Hx; simpl in *; [discriminate|].
  destruct (p y) eqn:E; [lia|].
  destruct j as [|j]; simpl in Hx.
  - injection Hx as <-. exact E.
  - apply (IH j); [lia|exact Hx].
Qed.

Lemma find_index_hit {A} (p : A -> bool) (v : list A) :
  Vec.find_index p v < Z.of_nat (length v) ->
  exists x, v !! Z.to_nat (Vec.find_index p v) = Some x /\ p x = true.
Proof.
  induction v as [|x v IH]; simpl; [lia|].
  destruct (p x) eqn:E; intros Hlt.
  - exists x. auto.
  - pose proof (find_index_bounds p v).
    destruct IH as (y & Hy & Py); [lia|]. exists y. split; [|exact Py].
    replace (Z.to_nat (1 + Vec.find_index p v)) with (S (Z.to_nat (Vec.find_index p v))) by lia.
    exact Hy.
Qed.

Lemma find_index_app {A} (p : A -> bool) (v w : list A) :
  Vec.find_index p (v ++ w) =
    if Vec.find_index p v <? Z.of_nat (length v) then Vec.find_index p v
    else Z.of_nat (length v) + Vec.find_index p w.
Proof.
  induction v as [|x v IH].
  - simpl. reflexivity.
  - cbn [app Vec.find_index length]. rewrite Nat2Z.inj_succ.
    pose proof (find_index_bounds p v).
    destruct (p x).
    + destruct (Z.ltb_spec 0 (Z.succ (Z.of_nat (length v)))); [reflexivity|lia].
    + rewrite IH.
      destruct (Z.ltb_spec (Vec.find_index p v) (Z.of_nat (length v)));
        destruct (Z.ltb_spec (1 + Vec.find_index p v) (Z.succ (Z.of_nat (length v))));
        lia.
Qed.

(** X4.  [getGlobalParameterIndex] returns the index of the first global
    parameter of that name, and throws exactly when there is none. *)
Theorem getGlobalParameterIndex_first (f : Force) (parameter : string) :
  match getGlobalParameterIndex f parameter with
  | inr index =>
      (exists g, Vec.get (globalParameters f) index = Some g /\ name g = parameter) /\
      (forall j g, 0 <= j < index -> Vec.get (globalParameters f) j = Some g ->
                   name g <> parameter)
  | inl e => e = NoGlobalParameter parameter /\ ~ declared f parameter
  end.
Proof.
  unfold getGlobalParameterIndex, Vec.size.
  set (p := fun g => bool_decide (name g = parameter)).
  pose proof (find_index_bounds p (globalParameters f)) as Hb.
  destruct (Z.ltb_spec (Vec.find_index p (globalParameters f))
                       (Z.of_nat (length (globalParameters f)))) as [Hlt|Hge].
  - split.
    + destruct (find_index_hit p _ Hlt) as (g & Hg & Pg).
      exists g. split.
      * unfold Vec.get.
        assert (V : Vec.valid_index (Vec.find_index p (globalParameters f))
                      (globalParameters f) = true) by (apply Vec.valid_index_spec; lia).
        rewrite V. exact Hg.
      * unfold p in Pg. apply bool_decide_eq_true in Pg. exact Pg.
    + intros j g Hj Hg. apply Vec.get_Some in Hg as [_ Hg].
      assert (Pg : p g = false).
      { apply (find_index_first p (globalParameters f) (Z.to_nat j)); [lia|exact Hg]. }
      unfold p in Pg. apply bool_decide_eq_false in Pg. exact Pg.
  - split; [reflexivity|]. intros (g & Hin & Hn).
    apply list_elem_of_lookup in Hin as [j Hj].
    assert (Pg : p g = false).
    { apply (find_index_first p (globalParameters f) j); [|exact Hj].
      apply lookup_lt_Some in Hj. lia. }
    unfold p in Pg. apply bool_decide_eq_false in Pg. contradiction.
Qed.

(** X5.  Declaring a parameter makes its name resolvable and moves no
    index: a name that resolved before resolves to the same index, so a
    second parameter of an existing name is never the one found; a new
    name resolves to the index [addGlobalParameter] returned. *)
Theorem addGlobalParameter_then_index (f : Force) (parameter other : string) (d : real) :
  exists f', addGlobalParameter f parameter d = Returned f' (Vec.size (globalParameters f)) /\
    (forall index, getGlobalParameterIndex f other = inr index ->
                   getGlobalParameterIndex f' other = inr index) /\
    (~ declared f parameter ->
       getGlobalParameterIndex f' parameter = inr (Vec.size (globalParameters f))) /\
    (~ declared f other -> other <> parameter ->
       getGlobalParameterIndex f' other = inl (NoGlobalParameter other)).
Proof.
  eexists. split.
  { unfold addGlobalParameter. f_equal. simpl. unfold Vec.size.
    rewrite length_app. simpl. lia. }
  unfold getGlobalParameterIndex, Vec.size. simpl.
  rewrite !find_index_app, !length_app. simpl.
  split; [|split].
  - intros index.
    pose proof (find_index_bounds (fun g => bool_decide (name g = other)) (globalParameters f)).
    destruct (Z.ltb_spec (Vec.find_index (fun g => bool_decide (name g = other))
                            (globalParameters f))
                         (Z.of_nat (length (globalParameters f)))) as [Hlt|Hge];
      [|discriminate].
    intros [= <-].
    destruct (Z.ltb_spec (Vec.find_index (fun g => bool_decide (name g = other))
                            (globalParameters f))
                         (Z.of_nat (length (globalParameters f) + 1))); [reflexivity|lia].
  - intros Hnd.
    pose proof (getGlobalParameterIndex_undeclared f parameter Hnd) as E.
    unfold getGlobalParameterIndex, Vec.size in E.
    destruct (Z.ltb_spec (Vec.find_index (fun g => bool_decide (name g = parameter))
                            (globalParameters f))
                         (Z.of_nat (length (globalParameters f)))) as [Hlt|Hge];
      [discriminate|].
    rewrite bool_decide_eq_true_2 by reflexivity.
    destruct (Z.ltb_spec (Z.of_nat (length (globalParameters f)) + 0)
                         (Z.of_nat (length (globalParameters f) + 1))); [|lia].
    f_equal. lia.
  - intros Hnd Hne.
    pose proof (getGlobalParameterIndex_undeclared f other Hnd) as E.
    unfold getGlobalParameterIndex, Vec.size in E.
    destruct (Z.ltb_spec (Vec.find_index (fun g => bool_decide (name g = other))
                            (globalParameters f))
                         (Z.of_nat (length (globalParameters f)))) as [Hlt|Hge];
      [discriminate|].
    rewrite bool_decide_eq_false_2 by (simpl; congruence).
    destruct (Z.ltb_spec (Z.of_nat (length (globalParameters f)) + (1 + 0))
                         (Z.of_nat (length (globalParameters f) + 1))); [lia|reflexivity].
Qed.

(** *** Nothing is removed *)

Definition sizes (f : Force) : list Z :=
  [Vec.size (particles f); Vec.size (exceptions f); Vec.size (globalParameters f);
   Vec.size (switchingParameters f); Vec.size (switchingParameter f);
   Vec.size (particleOffsets f); Vec.size (exceptionOffsets f)].

(** X6.  No call removes a particle, an exception, a parameter or an
    offset, and none changes the number of subsets: an index that was
    valid stays valid, whatever is called and whether or not it
    throws. *)
Theorem perform_never_shrinks (f : Force) (c : call) :
  numSubsets (perform f c) = numSubsets f /\
  Forall2 Z.le (sizes f) (sizes (perform f c)).
Proof.
  assert (R : Forall2 Z.le (sizes f) (sizes f)).
  { unfold sizes. repeat constructor; lia. }
  destruct c; simpl.
  - unfold addParticle. destruct (invalid_subset f s); [auto|]. simpl.
    split; [reflexivity|]. unfold sizes. simpl. rewrite size_snoc.
    repeat constructor; lia.
  - unfold setParticleSubset. destruct (Vec.get (particles f) index); [|auto].
    destruct (invalid_subset f s); [auto|]. simpl.
    split; [reflexivity|]. unfold sizes. simpl. rewrite length_vec_set.
    repeat constructor; lia.
  - unfold setParticleCharge. destruct (Vec.get (particles f) index); [|auto]. simpl.
    split; [reflexivity|]. unfold sizes. simpl. rewrite length_vec_set.
    repeat constructor; lia.
  - unfold addException. destruct (findException f p1 p2) as [[[k1 k2] i]|].
    + destruct (negb replace); [auto|]. simpl.
      split; [reflexivity|]. unfold sizes. simpl. rewrite length_vec_set.
      repeat constructor; lia.
    + simpl. split; [reflexivity|]. unfold sizes. simpl. rewrite size_snoc.
      repeat constructor; lia.
  - unfold setExceptionParameters. destruct (Vec.get (exceptions f) index); [|auto]. simpl.
    split; [reflexivity|]. unfold sizes. simpl. rewrite length_vec_set.
    repeat constructor; lia.
  - split; [reflexivity|]. unfold sizes. simpl. rewrite size_snoc.
    repeat constructor; lia.
  - unfold addSwitchingParameter.
    destruct (invalid_subset f s1); [auto|].
    destruct (invalid_subset f s2); [auto|].
    destruct (existsb _ _); [auto|].
    destruct (getGlobalParameterIndex f parameter); [auto|]. simpl.
    split; [reflexivity|]. unfold sizes. simpl. rewrite size_snoc.
    repeat constructor; lia.
  - unfold setSwitchingParameter.
    destruct (Vec.get (switchingParameters f) index); [|auto].
    destruct (invalid_subset f s1); [auto|].
    destruct (invalid_subset f s2); [auto|].
    destruct (getGlobalParameterIndex f parameter); [auto|].
    destruct (_ && _); [auto|]. simpl.
    split; [reflexivity|]. unfold sizes. simpl. rewrite length_vec_set.
    repeat constructor; lia.
  - unfold addParticleChargeOffset.
    destruct (getGlobalParameterIndex f parameter); [auto|]. simpl.
    split; [reflexivity|]. unfold sizes. simpl. rewrite size_snoc.
    repeat constructor; lia.
  - unfold addExceptionChargeOffset.
    destruct (getGlobalParameterIndex f parameter); [auto|]. simpl.
    split; [reflexivity|]. unfold sizes. simpl. rewrite size_snoc.
    repeat constructor; lia.
Qed.

(** *** Particles: what a setter changes *)

(** X7.  After a successful [setParticleSubset(index, subset)] the particle
    reads back with the new subset and its old charge, every other
    particle is as it was, and nothing else of the force has changed. *)
Theorem setParticleSubset_then_get (f f' : Force) (index subset : Z) :
  setParticleSubset f index subset = Returned f' tt ->
  getParticleSubset f' index = Returned f' subset /\
  (exists q, getParticleCharge f index = Returned f q /\
             getParticleCharge f' index = Returned f' q) /\
  (forall j, j <> index -> Vec.get (particles f') j = Vec.get (particles f) j) /\
  f' = with_particles f (particles f').
Proof.
  unfold setParticleSubset, getParticleSubset, getParticleCharge.
  destruct (Vec.get (particles f) index) as [p|] eqn:G; [|discriminate].
  destruct (invalid_subset f subset); [discriminate|].
  intros [= <-]. simpl.
  apply Vec.get_Some in G as [Hr G].
  rewrite Vec.get_set_eq by exact Hr. simpl.
  split; [reflexivity|]. split; [exists (charge p); auto|].
  split; [|reflexivity].
  intros j Hj. apply Vec.get_set_ne. congruence.
Qed.

(** X8.  The same for the charge: [setParticleCharge] changes the charge
    of one particle and nothing else; in particular not its subset. *)
Theorem setParticleCharge_then_get (f : Force) (index : Z) (q : real) :
  match setParticleCharge f index q with
  | Returned f' _ =>
      getParticleCharge f' index = Returned f' q /\
      (exists s, getParticleSubset f index = Returned f s /\
                 getParticleSubset f' index = Returned f' s) /\
      (forall j, j <> index -> Vec.get (particles f') j = Vec.get (particles f) j)
  | Thrown f' e =>
      f' = f /\ e = IndexOutOfRange /\ ~ 0 <= index < getNumParticles f
  end.
Proof.
  unfold setParticleCharge, getParticleSubset, getParticleCharge.
  destruct (Vec.get (particles f) index) as [p|] eqn:G.
  - simpl. apply Vec.get_Some in G as [Hr G].
    rewrite Vec.get_set_eq by exact Hr. simpl.
    split; [reflexivity|]. split; [exists (subset p); auto|].
    intros j Hj. apply Vec.get_set_ne. congruence.
  - split; [reflexivity|]. split; [reflexivity|]. intros Hr.
    apply Vec.get_in_range in Hr as [x Hx]. congruence.
Qed.

(** *** Switching parameters: one per slice *)

Lemma NoDup_in_range_length (l : list Z) (n : Z) :
  NoDup l -> Forall (fun k => 0 <= k < n) l -> Z.of_nat (length l) <= Z.max 0 n.
Proof.
  intros Hnd Hr.
  assert (Hsub : l ⊆+ (Z.of_nat <$> seq 0 (Z.to_nat n))).
  { apply NoDup_submseteq; [exact Hnd|]. intros k Hk.
    rewrite Forall_forall in Hr. specialize (Hr k Hk).
    apply list_elem_of_fmap. exists (Z.to_nat k). split; [lia|].
    apply elem_of_seq. lia. }
  apply submseteq_length in Hsub. rewrite length_fmap, length_seq in Hsub. lia.
Qed.

(** X9.  In every force built through the interface the switching
    parameters have pairwise different slices, each the slice of its two
    (valid) subsets, each with a valid global parameter index.  With at
    most [46340] subsets every slice is below [numSlices], so there are
    never more switching parameters than slices. *)
Theorem reachable_switching_wf (f : Force) :
  reachable f ->
  switching_wf f /\
  (numSubsets f <= 46340 ->
   Forall (fun sp => 0 <= slice sp < numSlices (numSubsets f)) (switchingParameters f) /\
   getNumSwitchingParameters f <= numSlices (numSubsets f)).
Proof.
  intros Hr.
  pose proof (reachable_switching f Hr) as W.
  pose proof (reachable_numSubsets f Hr) as Hpos.
  split; [exact W|]. intros Hbound. destruct W as [Hnd Hok].
  assert (Hrange : Forall (fun sp => 0 <= slice sp < numSlices (numSubsets f))
                          (switchingParameters f)).
  { eapply Forall_impl; [exact Hok|].
    intros sp (S1 & S2 & -> & _). apply sliceIndex_bounds; assumption. }
  split; [exact Hrange|].
  unfold getNumSwitchingParameters, Vec.size.
  rewrite <- (length_fmap slice).
  pose proof (NoDup_in_range_length (slice <$> switchingParameters f)
                (numSlices (numSubsets f)) Hnd) as Hlen.
  rewrite Forall_fmap in Hlen. specialize (Hlen Hrange).
  assert (0 <= numSlices (numSubsets f)); [|lia].
  rewrite numSlices_exact by lia. unfold pairCount. apply Z.quot_pos; nia.
Qed.

(** *** Exceptions: what [addException] returns *)

(** Every index the registry holds is an index of the list. *)
Definition registry_in_range (f : Force) : Prop :=
  forall k index, exceptionMap f !! k = Some index ->
                  0 <= index < Vec.size (exceptions f).

Lemma registry_in_range_perform f c :
  registry_in_range f -> registry_in_range (perform f c).
Proof.
  intros R. pose proof (perform_other_exceptions f c) as E.
  destruct c;
    lazymatch type of E with
    | True => idtac
    | _ => destruct E as [E1 E2]; unfold registry_in_range; rewrite E1, E2; exact R
    end.
  - simpl. pose proof (addException_cases f p1 p2 q replace) as C.
    destruct (findException f p1 p2) as [[[k1 k2] i]|] eqn:Ef.
    + destruct replace; rewrite C; simpl; [|exact R].
      apply findException_Some in Ef as [Hm _]. pose proof (R _ _ Hm) as Hi.
      intros k index Hk. simpl in Hk |- *. rewrite length_vec_set.
      destruct (decide ((p1, p2) = k)) as [<-|Hne].
      * rewrite lookup_insert_eq in Hk. injection Hk as <-. exact Hi.
      * rewrite lookup_insert_ne in Hk by exact Hne.
        destruct (decide ((k1, k2) = k)) as [<-|Hne'].
        { rewrite lookup_delete_eq in Hk. discriminate. }
        rewrite lookup_delete_ne in Hk by exact Hne'. exact (R _ _ Hk).
    + rewrite C. simpl. intros k index Hk. simpl in Hk |- *. rewrite size_snoc.
      destruct (decide ((p1, p2) = k)) as [<-|Hne].
      * rewrite lookup_insert_eq in Hk. injection Hk as <-. unfold Vec.size. lia.
      * rewrite lookup_insert_ne in Hk by exact Hne.
        pose proof (R _ _ Hk). lia.
  - simpl. unfold setExceptionParameters.
    destruct (Vec.get (exceptions f) index); [|exact R]. simpl.
    intros k i Hk. simpl in Hk |- *. rewrite length_vec_set. exact (R _ _ Hk).
Qed.

Lemma reachable_registry_in_range f : reachable f -> registry_in_range f.
Proof.
  induction 1 as [n f Hc|f c _ IH].
  - unfold construct in Hc. destruct (n <=? 0); [discriminate|].
    injection Hc as <-. intros k index Hk. simpl in Hk.
    rewrite lookup_empty in Hk. discriminate.
  - apply registry_in_range_perform. exact IH.
Qed.

(** X10.  On a force built through the interface, when [addException]
    returns an index, [getExceptionParameters] of that index gives back
    the particles and the charge product of the call, the pair is
    registered under that index, every other exception is as it was,
    and the list has grown by one (the index is the new last one) or
    not at all (an exception was overwritten). *)
Theorem addException_then_get (f f' : Force) (p1 p2 : Z) (q : real)
    (replace : bool) (index : Z) :
  reachable f ->
  addException f p1 p2 q replace = Returned f' index ->
  getExceptionParameters f' index = Returned f' (p1, p2, q) /\
  exceptionMap f' !! (p1, p2) = Some index /\
  (forall j, j <> index -> 0 <= j < getNumExceptions f ->
             Vec.get (exceptions f') j = Vec.get (exceptions f) j) /\
  (index = getNumExceptions f /\ getNumExceptions f' = getNumExceptions f + 1 \/
   0 <= index < getNumExceptions f /\ replace = true /\
   getNumExceptions f' = getNumExceptions f).
Proof.
  intros Hr Hadd. apply reachable_registry_in_range in Hr.
  pose proof (addException_cases f p1 p2 q replace) as C.
  unfold getExceptionParameters, getNumExceptions.
  destruct (findException f p1 p2) as [[[k1 k2] i]|] eqn:Ef.
  - destruct replace; rewrite C in Hadd; [|discriminate].
    injection Hadd as <- <-. simpl.
    apply findException_Some in Ef as [Hm _]. pose proof (Hr _ _ Hm) as Hi.
    unfold Vec.size in Hi.
    rewrite Vec.get_set_eq by exact Hi. simpl.
    split; [reflexivity|]. split; [apply lookup_insert_eq|].
    split; [intros j Hj _; apply Vec.get_set_ne; congruence|].
    right. rewrite length_vec_set. unfold Vec.size. auto.
  - rewrite C in Hadd. injection Hadd as <- <-. simpl.
    unfold Vec.size. rewrite Vec.get_of_nat.
    rewrite lookup_app_r by lia. rewrite Nat.sub_diag. simpl.
    split; [reflexivity|]. split; [apply lookup_insert_eq|].
    split.
    + intros j Hj Hrange. replace j with (Z.of_nat (Z.to_nat j)) by lia.
      rewrite !Vec.get_of_nat. apply lookup_app_l. lia.
    + left. rewrite length_app. simpl. lia.
Qed.

(** *** Derivative requests

    [addSwitchingParameterDerivative], [setSwitchingParameterDerivative]
    and their readers work on the member [switchParamDerivatives], a
    vector of indices into [switchingParameters]; it is kept here
    beside the force. *)

Record Requests := {
  force : Force;
  switchParamDerivatives : list Z
}.

Inductive RequestError :=
  | NoSwitchingParameter (parameter : string)
      (* "There is no switching parameter called 'parameter'" *)
  | DerivativeAlreadyRequested
      (* "This switching parameter derivative was already requested" *)
  | RequestIndexOutOfRange.          (* ASSERT_VALID_INDEX *)

(** [globalParameters[globalParamIndex].name == parameter] *)
Definition namedBy (f : Force) (parameter : string) (sp : SwitchingParameterInfo) : bool :=
  match Vec.get (globalParameters f) (globalParamIndex sp) with
  | Some g => bool_decide (name g = parameter)
  | None => false
  end.

Definition getSwitchingParameterIndex (f : Force) (parameter : string)
    : RequestError + Z :=
  let index := Vec.find_index (namedBy f parameter) (switchingParameters f) in
  if index <? Vec.size (switchingParameters f) then inr index
  else inl (NoSwitchingParameter parameter).

(** [find(begin, end, switchParamIndex) != end] *)
Definition requested (d : Requests) (switchParamIndex : Z) : bool :=
  existsb (Z.eqb switchParamIndex) (switchParamDerivatives d).

Definition addSwitchingParameterDerivative (d : Requests) (parameter : string)
    : Requests * (RequestError + Z) :=
  match getSwitchingParameterIndex (force d) parameter with
  | inl e => (d, inl e)
  | inr switchParamIndex =>
      if requested d switchParamIndex then (d, inl DerivativeAlreadyRequested)
      else
        let v := switchParamDerivatives d ++ [switchParamIndex] in
        ({| force := force d; switchParamDerivatives := v |}, inr (Vec.size v - 1))
  end.

Definition getNumSwitchingParameterDerivatives (d : Requests) : Z :=
  Vec.size (switchParamDerivatives d).

Definition getSwitchingParameterDerivativeName (d : Requests) (index : Z)
    : RequestError + option string :=
  match Vec.get (switchParamDerivatives d) index with
  | None => inl RequestIndexOutOfRange
  | Some switchParamIndex =>
      inr (match Vec.get (switchingParameters (force d)) switchParamIndex with
           | Some sp =>
               match Vec.get (globalParameters (force d)) (globalParamIndex sp) with
               | Some g => Some (name g)
               | None => None
               end
           | None => None
           end)
  end.

Definition setSwitchingParameterDerivative (d : Requests) (index : Z) (parameter : string)
    : Requests * option RequestError :=
  match Vec.get (switchParamDerivatives d) index with
  | None => (d, Some RequestIndexOutOfRange)
  | Some current =>
      match getSwitchingParameterIndex (force d) parameter with
      | inl e => (d, Some e)
      | inr switchParamIndex =>
          if negb (current =? switchParamIndex) then
            if requested d switchParamIndex then (d, Some DerivativeAlreadyRequested)
            else ({| force := force d;
                     switchParamDerivatives :=
                       Vec.set (switchParamDerivatives d) index switchParamIndex |},
                  None)
          else (d, None)
      end
  end.

(** The requests are pairwise different indices of switching
    parameters. *)
Definition requests_wf (d : Requests) : Prop :=
  NoDup (switchParamDerivatives d) /\
  Forall (fun i => 0 <= i < Vec.size (switchingParameters (force d)))
         (switchParamDerivatives d).

Lemma requested_false d i : requested d i = false -> i ∉ switchParamDerivatives d.
Proof.
  intros Hex Hin. unfold requested in Hex.
  assert (existsb (Z.eqb i) (switchParamDerivatives d) = true); [|congruence].
  apply existsb_exists. exists i. split; [apply list_elem_of_In; exact Hin|apply Z.eqb_refl].
Qed.

Lemma requested_true d i : requested d i = true -> i ∈ switchParamDerivatives d.
Proof.
  unfold requested. intros Hex. apply existsb_exists in Hex as (x & Hin & E).
  apply Z.eqb_eq in E. subst x. apply list_elem_of_In. exact Hin.
Qed.

Lemma getSwitchingParameterIndex_inr f parameter i :
  getSwitchingParameterIndex f parameter = inr i ->
  0 <= i < Vec.size (switchingParameters f) /\
  exists sp g, Vec.get (switchingParameters f) i = Some sp /\
               Vec.get (globalParameters f) (globalParamIndex sp) = Some g /\
               name g = parameter.
Proof.
  unfold getSwitchingParameterIndex, Vec.size.
  pose proof (find_index_bounds (namedBy f parameter) (switchingParameters f)) as Hb.
  destruct (Z.ltb_spec (Vec.find_index (namedBy f parameter) (switchingParameters f))
                       (Z.of_nat (length (switchingParameters f)))) as [Hlt|Hge];
    [|discriminate].
  intros [= <-]. split; [lia|].
  destruct (find_index_hit _ _ Hlt) as (sp & Hsp & Psp).
  unfold namedBy in Psp.
  destruct (Vec.get (globalParameters f) (globalParamIndex sp)) as [g|] eqn:G;
    [|discriminate].
  apply bool_decide_eq_true in Psp.
  exists sp, g. split; [|auto].
  unfold Vec.get.
  assert (V : Vec.valid_index (Vec.find_index (namedBy f parameter) (switchingParameters f))
                (switchingParameters f) = true) by (apply Vec.valid_index_spec; lia).
  rewrite V. exact Hsp.
Qed.

(** X11.  Requesting a derivative: the call throws when no switching
    parameter uses a global parameter of that name and when the
    derivative was already requested, and then changes nothing;
    otherwise it appends one request, under which
    [getSwitchingParameterDerivativeName] reads the name back, and the
    requests stay pairwise different. *)
Theorem addSwitchingParameterDerivative_spec (d : Requests) (parameter : string) :
  requests_wf d ->
  match addSwitchingParameterDerivative d parameter with
  | (d', inl e) =>
      d' = d /\
      (e = NoSwitchingParameter parameter /\
       (forall sp, sp ∈ switchingParameters (force d) ->
                   namedBy (force d) parameter sp = false) \/
       e = DerivativeAlreadyRequested /\
       exists i, getSwitchingParameterIndex (force d) parameter = inr i /\
                 i ∈ switchParamDerivatives d)
  | (d', inr index) =>
      index = getNumSwitchingParameterDerivatives d /\
      getNumSwitchingParameterDerivatives d' = index + 1 /\
      force d' = force d /\
      getSwitchingParameterDerivativeName d' index = inr (Some parameter) /\
      requests_wf d' /\
      fst (addSwitchingParameterDerivative d' parameter) = d' /\
      snd (addSwitchingParameterDerivative d' parameter) = inl DerivativeAlreadyRequested
  end.
Proof.
  intros [Hnd Hr]. unfold addSwitchingParameterDerivative.
  destruct (getSwitchingParameterIndex (force d) parameter) as [e|i] eqn:G.
  - split; [reflexivity|]. left.
    unfold getSwitchingParameterIndex, Vec.size in G.
    destruct (Z.ltb_spec (Vec.find_index (namedBy (force d) parameter)
                            (switchingParameters (force d)))
                         (Z.of_nat (length (switchingParameters (force d)))))
      as [Hlt|Hge]; [discriminate|].
    injection G as <-. split; [reflexivity|].
    intros sp Hin. apply list_elem_of_lookup in Hin as [j Hj].
    apply (find_index_first (namedBy (force d) parameter)
             (switchingParameters (force d)) j sp); [|exact Hj].
    apply lookup_lt_Some in Hj. lia.
  - destruct (requested d i) eqn:Rq.
    + split; [reflexivity|]. right. split; [reflexivity|].
      exists i. split; [reflexivity|]. apply requested_true. exact Rq.
    + destruct (getSwitchingParameterIndex_inr _ _ _ G) as (Hi & sp & g & Hsp & Hg & Hn).
      unfold getNumSwitchingParameterDerivatives, getSwitchingParameterDerivativeName.
      cbn [force switchParamDerivatives fst snd].
      rewrite size_snoc.
      split; [lia|]. split; [lia|]. split; [reflexivity|].
      replace (Vec.size (switchParamDerivatives d) + 1 - 1)
        with (Z.of_nat (length (switchParamDerivatives d))) by (unfold Vec.size; lia).
      split; [|split; [|split]].
      * rewrite Vec.get_of_nat, lookup_app_r by lia.
        rewrite Nat.sub_diag. simpl. rewrite Hsp, Hg, Hn. reflexivity.
      * split.
        -- apply NoDup_app. split; [exact Hnd|]. split; [|apply NoDup_singleton].
           intros x Hx Hx'. apply list_elem_of_singleton in Hx'. subst x.
           apply (requested_false d i Rq). exact Hx.
        -- cbn [force switchParamDerivatives]. apply Forall_app. split; [exact Hr|].
           constructor; [exact Hi|constructor].
      * rewrite G. unfold requested. cbn [switchParamDerivatives].
        rewrite existsb_app. simpl. rewrite Z.eqb_refl, orb_true_r. reflexivity.
      * rewrite G. unfold requested. cbn [switchParamDerivatives].
        rewrite existsb_app. simpl. rewrite Z.eqb_refl, orb_true_r. reflexivity.
Qed.

(** X12.  [setSwitchingParameterDerivative] keeps the requests pairwise
    different, leaves everything as it was when it throws, and accepts
    the parameter a request already stands for. *)
Theorem setSwitchingParameterDerivative_keeps (d : Requests) (index : Z) (parameter : string) :
  requests_wf d ->
  let '(d', r) := setSwitchingParameterDerivative d index parameter in
  requests_wf d' /\ force d' = force d /\
  getNumSwitchingParameterDerivatives d' = getNumSwitchingParameterDerivatives d /\
  (forall e, r = Some e -> d' = d) /\
  (r = None -> getSwitchingParameterDerivativeName d' index = inr (Some parameter)).
Proof.
  intros [Hnd Hr]. unfold setSwitchingParameterDerivative.
  destruct (Vec.get (switchParamDerivatives d) index) as [current|] eqn:Gc.
  2:{ repeat split; auto; discriminate. }
  destruct (getSwitchingParameterIndex (force d) parameter) as [e|i] eqn:G.
  { repeat split; auto; discriminate. }
  destruct (getSwitchingParameterIndex_inr _ _ _ G) as (Hi & sp & g & Hsp & Hg & Hn).
  pose proof Gc as Gc'. apply Vec.get_Some in Gc' as [Hrange Gl].
  destruct (Z.eqb_spec current i) as [->|Hne]; simpl.
  - split; [split; assumption|]. split; [reflexivity|]. split; [reflexivity|].
    split; [discriminate|]. intros _.
    unfold getSwitchingParameterDerivativeName. rewrite Gc, Hsp, Hg, Hn. reflexivity.
  - destruct (requested d i) eqn:Rq.
    { repeat split; auto; discriminate. }
    assert (V : Vec.valid_index index (switchParamDerivatives d) = true)
      by (apply Vec.valid_index_spec; exact Hrange).
    split; [|split; [reflexivity|split; [|split; [discriminate|]]]].
    + split; cbn [force switchParamDerivatives]; unfold Vec.set; rewrite V.
      * apply NoDup_insert_fresh; [exact Hnd|]. apply requested_false. exact Rq.
      * apply Forall_insert; [exact Hr|exact Hi].
    + unfold getNumSwitchingParameterDerivatives. cbn [switchParamDerivatives].
      apply length_vec_set.
    + intros _. unfold getSwitchingParameterDerivativeName.
      cbn [force switchParamDerivatives].
      rewrite Vec.get_set_eq by exact Hrange. rewrite Hsp, Hg, Hn. reflexivity.
Qed.

(** *** Exceptions from bonds ([createExceptionsFromBonds]) *)

Section Bonds.

(** The value [addException] takes for [replace] when a call leaves it
    out, as the three calls of [createExceptionsFromBonds] do. *)
Variable replace : bool.

(** A [std::set<int>]: its elements in increasing order, each once. *)
Fixpoint set_insert (x : Z) (s : list Z) : list Z :=
  match s with
  | [] => [x]
  | y :: s' =>
      if x <? y then x :: s
      else if x =? y then s
      else y :: set_insert x s'
  end.

(** [s.find(x) != s.end()] *)
Definition set_find (s : list Z) (x : Z) : bool := existsb (Z.eqb x) s.

(** [v[index]] of a [vector<set<int> >] *)
Definition at_index (v : list (list Z)) (index : Z) : list Z :=
  match Vec.get v index with
  | Some s => s
  | None => []
  end.

(** [v[index].insert(x)] *)
Definition insert_into (v : list (list Z)) (index x : Z) : list (list Z) :=
  Vec.set v index (set_insert x (at_index v index)).

(**   for (int i : bonded12[fromParticle]) {
          if (i != baseParticle)
              exclusions.insert(i);
          if (currentLevel > 0)
              addExclusionsToSet(bonded12, exclusions, baseParticle, i, currentLevel-1);
      }

    with the level, which the callers start at [2] and at [1], counted
    down as a natural number. *)
Fixpoint addExclusionsToSet (bonded12 : list (list Z)) (exclusions : list Z)
    (baseParticle fromParticle : Z) (currentLevel : nat) : list Z :=
  fold_left
    (fun exclusions i =>
       let exclusions' :=
         if negb (i =? baseParticle) then set_insert i exclusions else exclusions in
       match currentLevel with
       | S level => addExclusionsToSet bonded12 exclusions' baseParticle i level
       | O => exclusions'
       end)
    (at_index bonded12 fromParticle) exclusions.

Inductive BondsError :=
  | IllegalParticleIndex
      (* "createExceptionsFromBonds: Illegal particle index in list of bonds" *)
  | FromAddException (e : Error).

Definition illegal (f : Force) (bond : Z * Z) : bool :=
  (bond.1 <? 0) || (bond.2 <? 0) ||
  (Vec.size (particles f) <=? bond.1) || (Vec.size (particles f) <=? bond.2).

(** [bonded12[bond.first].insert(bond.second);
     bonded12[bond.second].insert(bond.first);] *)
Definition insert_bond (bonded12 : list (list Z)) (bond : Z * Z) : list (list Z) :=
  insert_into (insert_into bonded12 bond.1 bond.2) bond.2 bond.1.

(** [particles[index].charge] *)
Definition chargeOf (f : Force) (index : Z) : real :=
  match Vec.get (particles f) index with
  | Some p => charge p
  | None => r0
  end.

(** The charge product of the exception between [j] and [i]:
    [coulomb14Scale*particle1.charge*particle2.charge] for a 1-4 pair,
    [0.0] for a pair within two bonds. *)
Definition exceptionCharge (f : Force) (bonded13 : list Z) (coulomb14Scale : real)
    (j i : Z) : real :=
  if negb (set_find bonded13 j)
  then rmul (rmul coulomb14Scale (chargeOf f j)) (chargeOf f i)
  else r0.

(** The loop [for (int j : exclusions[i])] *)
Fixpoint exceptionsOfParticle (f : Force) (bonded13 : list Z) (coulomb14Scale : real)
    (i : Z) (js : list Z) : Force * option BondsError :=
  match js with
  | [] => (f, None)
  | j :: js' =>
      if j <? i then
        match addException f j i (exceptionCharge f bonded13 coulomb14Scale j i) replace with
        | Thrown f' e => (f', Some (FromAddException e))
        | Returned f' _ => exceptionsOfParticle f' bonded13 coulomb14Scale i js'
        end
      else exceptionsOfParticle f bonded13 coulomb14Scale i js'
  end.

(** The second loop [for (int i = 0; i < (int) exclusions.size(); ++i)] *)
Fixpoint exceptionsOfParticles (f : Force) (bonded12 exclusions : list (list Z))
    (coulomb14Scale : real) (indices : list nat) : Force * option BondsError :=
  match indices with
  | [] => (f, None)
  | i :: rest =>
      let bonded13 := addExclusionsToSet bonded12 [] (Z.of_nat i) (Z.of_nat i) 1 in
      match exceptionsOfParticle f bonded13 coulomb14Scale (Z.of_nat i)
              (at_index exclusions (Z.of_nat i)) with
      | (f', Some e) => (f', Some e)
      | (f', None) => exceptionsOfParticles f' bonded12 exclusions coulomb14Scale rest
      end
  end.

Definition createExceptionsFromBonds (f : Force) (bonds : list (Z * Z))
    (coulomb14Scale lj14Scale : real) : Force * option BondsError :=
  if existsb (illegal f) bonds then (f, Some IllegalParticleIndex)
  else
    let size := length (particles f) in
    let bonded12 := fold_left insert_bond bonds (replicate size []) in
    let exclusions :=
      imap (fun i s => addExclusionsToSet bonded12 s (Z.of_nat i) (Z.of_nat i) 2)
           (replicate size []) in
    exceptionsOfParticles f bonded12 exclusions coulomb14Scale (seq 0 size).

(** Two particles are bonded when a bond names them, in either order;
    a walk of [m] bonds leads from one particle to another. *)
Definition bonded (bonds : list (Z * Z)) (a b : Z) : Prop :=
  (a, b) ∈ bonds \/ (b, a) ∈ bonds.

Fixpoint walk (adj : Z -> Z -> Prop) (m : nat) (a b : Z) : Prop :=
  match m with
  | O => a = b
  | S m' => exists x, adj a x /\ walk adj m' x b
  end.

Definition within (bonds : list (Z * Z)) (k : nat) (a b : Z) : Prop :=
  exists m, (1 <= m <= k)%nat /\ walk (bonded bonds) m a b.

Fixpoint increasing (s : list Z) : Prop :=
  match s with
  | [] => True
  | x :: s' => (forall y, y ∈ s' -> x < y) /\ increasing s'
  end.

Lemma elem_of_set_insert x y s : y ∈ set_insert x s <-> y = x \/ y ∈ s.
Proof.
  induction s as [|z s IH]; simpl.
  - rewrite list_elem_of_singleton, elem_of_nil. tauto.
  - destruct (Z.ltb_spec x z).
    + rewrite elem_of_cons. tauto.
    + destruct (Z.eqb_spec x z) as [->|Hne].
      * rewrite elem_of_cons. tauto.
      * rewrite !elem_of_cons, IH. tauto.
Qed.

Lemma increasing_set_insert x s : increasing s -> increasing (set_insert x s).
Proof.
  induction s as [|z s IH]; simpl.
  - intros _. split; [|exact I]. intros y Hy. apply elem_of_nil in Hy. contradiction.
  - intros [Hz Hs]. destruct (Z.ltb_spec x z).
    + simpl. split; [|auto]. intros y Hy. apply elem_of_cons in Hy as [->|Hy]; [lia|].
      specialize (Hz y Hy). lia.
    + destruct (Z.eqb_spec x z) as [->|Hne]; simpl; [auto|].
      split; [|auto]. intros y Hy. apply elem_of_set_insert in Hy as [->|Hy]; [lia|auto].
Qed.

Lemma increasing_NoDup s : increasing s -> NoDup s.
Proof.
  induction s as [|x s IH]; simpl; [intros _; constructor|].
  intros [Hx Hs]. apply NoDup_cons. split; [|auto].
  intros Hin. specialize (Hx x Hin). lia.
Qed.

Lemma set_find_spec s x : set_find s x = true <-> x ∈ s.
Proof.
  unfold set_find. rewrite existsb_exists. split.
  - intros (y & Hin & E). apply Z.eqb_eq in E. subst y. apply list_elem_of_In. exact Hin.
  - intros Hin. exists x. split; [apply list_elem_of_In; exact Hin|apply Z.eqb_refl].
Qed.

Lemma fold_left_collect {B} (g : list Z -> B -> list Z) (C : B -> Z -> Prop) :
  (forall s i x, x ∈ g s i <-> x ∈ s \/ C i x) ->
  forall l s x, x ∈ fold_left g l s <-> x ∈ s \/ exists i, i ∈ l /\ C i x.
Proof.
  intros Hg. induction l as [|i l IH]; intros s x; simpl.
  - split; [auto|]. intros [Hx|(i & Hi & _)]; [exact Hx|].
    apply elem_of_nil in Hi. contradiction.
  - rewrite IH, Hg. split.
    + intros [[Hx|Hc]|(k & Hk & Hc)]; [auto| |].
      * right. exists i. split; [apply elem_of_cons; auto|exact Hc].
      * right. exists k. split; [apply elem_of_cons; auto|exact Hc].
    + intros [Hx|(k & Hk & Hc)]; [auto|].
      apply elem_of_cons in Hk as [->|Hk]; [auto|].
      right. exists k. auto.
Qed.

Lemma fold_left_keeps {S B} (P : S -> Prop) (g : S -> B -> S) :
  (forall s i, P s -> P (g s i)) -> forall l s, P s -> P (fold_left g l s).
Proof. intros Hg. induction l as [|i l IH]; intros s Hs; simpl; auto. Qed.

Lemma elem_of_guarded_insert s i baseParticle y :
  y ∈ (if negb (i =? baseParticle) then set_insert i s else s) <->
  y ∈ s \/ (y <> baseParticle /\ y = i).
Proof.
  destruct (Z.eqb_spec i baseParticle) as [->|Hne]; simpl.
  - split; [auto|]. intros [Hy|[Hy ->]]; [exact Hy|contradiction].
  - rewrite elem_of_set_insert. split.
    + intros [->|Hy]; auto.
    + intros [Hy|[_ ->]]; auto.
Qed.

(** What [addExclusionsToSet] adds: every particle other than the base
    particle that a walk of at most [currentLevel + 1] steps reaches. *)
Lemma elem_of_addExclusionsToSet bonded12 level :
  forall exclusions baseParticle fromParticle x,
  x ∈ addExclusionsToSet bonded12 exclusions baseParticle fromParticle level <->
  x ∈ exclusions \/
  (x <> baseParticle /\
   exists m, (1 <= m <= S level)%nat /\
             walk (fun a y => y ∈ at_index bonded12 a) m fromParticle x).
Proof.
  induction level as [|level IH]; intros exclusions baseParticle fromParticle x.
  - cbn [addExclusionsToSet].
    rewrite (fold_left_collect _ (fun i x => x <> baseParticle /\ x = i)).
    + split; (intros [Hx|Hx]; [auto|right]).
      * destruct Hx as (i & Hi & Hne & ->). split; [exact Hne|].
        exists 1%nat. split; [lia|]. simpl. eauto.
      * destruct Hx as (Hne & m & Hm & Hw).
        assert (m = 1%nat) as -> by lia. simpl in Hw.
        destruct Hw as (i & Hi & <-). eauto.
    + intros s i y. cbv zeta. apply elem_of_guarded_insert.
  - cbn [addExclusionsToSet].
    rewrite (fold_left_collect _
      (fun i x => x <> baseParticle /\
                  exists m, (m <= S level)%nat /\
                            walk (fun a y => y ∈ at_index bonded12 a) m i x)).
    + split; (intros [Hx|Hx]; [auto|right]).
      * destruct Hx as (i & Hi & Hne & m & Hm & Hw). split; [exact Hne|].
        exists (S m). split; [lia|]. simpl. eauto.
      * destruct Hx as (Hne & m & Hm & Hw).
        destruct m as [|m]; [lia|]. simpl in Hw. destruct Hw as (i & Hi & Hw).
        exists i. split; [exact Hi|]. split; [exact Hne|].
        exists m. split; [lia|exact Hw].
    + intros s i y. cbv zeta. rewrite IH.
      rewrite elem_of_guarded_insert. split.
      * intros [[Hy|[Hne ->]]|(Hne & m & Hm & Hw)]; [auto| |].
        -- right. split; [exact Hne|]. exists 0%nat. split; [lia|reflexivity].
        -- right. split; [exact Hne|]. exists m. split; [lia|exact Hw].
      * intros [Hy|(Hne & m & Hm & Hw)]; [auto|].
        destruct m as [|m].
        -- simpl in Hw. subst y. auto.
        -- right. split; [exact Hne|]. exists (S m). split; [lia|exact Hw].
Qed.

Lemma increasing_addExclusionsToSet bonded12 level :
  forall exclusions baseParticle fromParticle,
  increasing exclusions ->
  increasing (addExclusionsToSet bonded12 exclusions baseParticle fromParticle level).
Proof.
  induction level as [|level IH]; intros exclusions baseParticle fromParticle Hs;
    cbn [addExclusionsToSet]; apply fold_left_keeps; try exact Hs;
    intros s i Hi; cbv zeta.
  - destruct (negb (i =? baseParticle)); [apply increasing_set_insert|]; exact Hi.
  - apply IH. destruct (negb (i =? baseParticle)); [apply increasing_set_insert|]; exact Hi.
Qed.


Lemma at_index_replicate n index : at_index (replicate n []) index = [].
Proof.
  unfold at_index. destruct (Vec.get (replicate n []) index) as [s|] eqn:E; [|reflexivity].
  apply Vec.get_Some in E as [_ E]. apply lookup_replicate in E as [-> _]. reflexivity.
Qed.

Lemma length_insert_into v index x : length (insert_into v index x) = length v.
Proof. apply Vec.length_set. Qed.

Lemma at_index_insert_into v index x a y :
  0 <= index < Z.of_nat (length v) ->
  y ∈ at_index (insert_into v index x) a <-> y ∈ at_index v a \/ (a = index /\ y = x).
Proof.
  intros Hi. unfold insert_into. destruct (Z.eq_dec a index) as [->|Hne].
  - unfold at_index at 1. rewrite Vec.get_set_eq by exact Hi.
    rewrite elem_of_set_insert. tauto.
  - unfold at_index at 1. rewrite Vec.get_set_ne by auto.
    fold (at_index v a). tauto.
Qed.

Definition legalBond (size : nat) (bond : Z * Z) : Prop :=
  0 <= bond.1 < Z.of_nat size /\ 0 <= bond.2 < Z.of_nat size.

Lemma illegal_false f bond : illegal f bond = false <-> legalBond (length (particles f)) bond.
Proof.
  unfold illegal, legalBond, Vec.size. rewrite !orb_false_iff, !Z.ltb_ge, !Z.leb_gt. tauto.
Qed.

Lemma at_index_bonded12 bonds :
  forall v, (forall bond, bond ∈ bonds -> legalBond (length v) bond) ->
  forall a y, y ∈ at_index (fold_left insert_bond bonds v) a <->
              y ∈ at_index v a \/ bonded bonds a y.
Proof.
  unfold bonded. induction bonds as [|[p q] bonds IH]; intros v Hl a y; simpl.
  - rewrite !elem_of_nil. tauto.
  - destruct (Hl (p, q)) as [Hp Hq]; [apply elem_of_cons; auto|]. simpl in Hp, Hq.
    rewrite IH.
    + unfold insert_bond. simpl.
      rewrite at_index_insert_into by (rewrite length_insert_into; exact Hq).
      rewrite at_index_insert_into by exact Hp.
      rewrite !elem_of_cons.
      split.
      * intros [[[Hy|[-> ->]]|[-> ->]]|[Hb|Hb]]; auto.
      * intros [Hy|[[E|Hb]|[E|Hb]]]; auto.
        -- injection E as -> ->. auto.
        -- injection E as -> ->. auto.
    + intros bond Hb. unfold insert_bond. rewrite !length_insert_into.
      apply Hl. apply elem_of_cons. auto.
Qed.

Lemma walk_ext (adj adj' : Z -> Z -> Prop) :
  (forall a y, adj a y <-> adj' a y) ->
  forall m a b, walk adj m a b <-> walk adj' m a b.
Proof.
  intros He. induction m as [|m IH]; intros a b; simpl; [tauto|].
  split; intros (x & Hx & Hw); exists x; (split; [apply He; exact Hx|apply IH; exact Hw]).
Qed.

Lemma bonded_legal bonds size a b :
  (forall bond, bond ∈ bonds -> legalBond size bond) -> bonded bonds a b ->
  0 <= a < Z.of_nat size /\ 0 <= b < Z.of_nat size.
Proof.
  intros Hl [Hb|Hb]; destruct (Hl _ Hb) as [H1 H2]; simpl in *; auto.
Qed.

Lemma walk_legal bonds size :
  (forall bond, bond ∈ bonds -> legalBond size bond) ->
  forall m a b, walk (bonded bonds) (S m) a b ->
  0 <= a < Z.of_nat size /\ 0 <= b < Z.of_nat size.
Proof.
  intros Hl. induction m as [|m IH]; intros a b (x & Hx & Hw).
  - simpl in Hw. subst x. eapply bonded_legal; eauto.
  - destruct (IH _ _ Hw) as [_ Hb]. destruct (bonded_legal _ _ _ _ Hl Hx) as [Ha _]. auto.
Qed.

(** The exceptions the loop over [js] adds for the particle [i], with
    the charge products [q]. *)
Fixpoint newExceptions (q : Z -> Z -> real) (i : Z) (js : list Z) : list ExceptionInfo :=
  match js with
  | [] => []
  | j :: js' =>
      if j <? i
      then {| particle1 := j; particle2 := i; chargeProd := q j i |} :: newExceptions q i js'
      else newExceptions q i js'
  end.

Fixpoint allNewExceptions (f : Force) (bonded12 exclusions : list (list Z))
    (coulomb14Scale : real) (indices : list nat) : list ExceptionInfo :=
  match indices with
  | [] => []
  | i :: rest =>
      newExceptions
        (exceptionCharge f (addExclusionsToSet bonded12 [] (Z.of_nat i) (Z.of_nat i) 1)
           coulomb14Scale)
        (Z.of_nat i) (at_index exclusions (Z.of_nat i))
      ++ allNewExceptions f bonded12 exclusions coulomb14Scale rest
  end.

Lemma elem_of_newExceptions q i js e :
  e ∈ newExceptions q i js <->
  exists j, j ∈ js /\ j < i /\ e = {| particle1 := j; particle2 := i; chargeProd := q j i |}.
Proof.
  induction js as [|j js IH]; simpl.
  - rewrite elem_of_nil. split; [contradiction|]. intros (j & Hj & _).
    apply elem_of_nil in Hj. contradiction.
  - destruct (Z.ltb_spec j i) as [Hlt|Hge].
    + rewrite elem_of_cons, IH. split.
      * intros [->|(k & Hk & Hki & ->)].
        -- exists j. rewrite elem_of_cons. auto.
        -- exists k. rewrite elem_of_cons. auto.
      * intros (k & Hk & Hki & ->). apply elem_of_cons in Hk as [->|Hk]; [auto|].
        right. exists k. auto.
    + rewrite IH. split.
      * intros (k & Hk & Hki & ->). exists k. rewrite elem_of_cons. auto.
      * intros (k & Hk & Hki & ->). apply elem_of_cons in Hk as [->|Hk]; [lia|].
        exists k. auto.
Qed.

Lemma elem_of_allNewExceptions f bonded12 exclusions c indices e :
  e ∈ allNewExceptions f bonded12 exclusions c indices <->
  exists i, i ∈ indices /\
    e ∈ newExceptions
          (exceptionCharge f (addExclusionsToSet bonded12 [] (Z.of_nat i) (Z.of_nat i) 1) c)
          (Z.of_nat i) (at_index exclusions (Z.of_nat i)).
Proof.
  induction indices as [|i rest IH]; simpl.
  - rewrite elem_of_nil. split; [contradiction|]. intros (i & Hi & _).
    apply elem_of_nil in Hi. contradiction.
  - rewrite elem_of_app, IH. split.
    + intros [He|(k & Hk & He)].
      * exists i. rewrite elem_of_cons. auto.
      * exists k. rewrite elem_of_cons. auto.
    + intros (k & Hk & He). apply elem_of_cons in Hk as [->|Hk]; [auto|].
      right. exists k. auto.
Qed.

Definition particlesOf (e : ExceptionInfo) : Z * Z := (particle1 e, particle2 e).

Lemma NoDup_newExceptions q i js : NoDup js -> NoDup (particlesOf <$> newExceptions q i js).
Proof.
  induction js as [|j js IH]; simpl; [intros _; constructor|].
  intros Hnd. apply NoDup_cons in Hnd as [Hj Hnd].
  destruct (j <? i); [|auto].
  rewrite fmap_cons. apply NoDup_cons. split; [|auto].
  intros Hin. apply list_elem_of_fmap in Hin as (e & He & Hin).
  apply elem_of_newExceptions in Hin as (k & Hk & _ & ->).
  unfold particlesOf in He. simpl in He. injection He as ->. contradiction.
Qed.

Lemma NoDup_allNewExceptions f bonded12 exclusions c indices :
  NoDup indices ->
  (forall i, i ∈ indices -> NoDup (at_index exclusions (Z.of_nat i))) ->
  NoDup (particlesOf <$> allNewExceptions f bonded12 exclusions c indices).
Proof.
  induction indices as [|i rest IH]; simpl; [intros _ _; constructor|].
  intros Hnd Hs. apply NoDup_cons in Hnd as [Hi Hnd].
  rewrite fmap_app. apply NoDup_app. split; [|split].
  - apply NoDup_newExceptions. apply Hs. apply elem_of_cons. auto.
  - intros p Hp Hp'.
    apply list_elem_of_fmap in Hp as (e & -> & He).
    apply elem_of_newExceptions in He as (j & _ & _ & ->).
    apply list_elem_of_fmap in Hp' as (e' & E & He').
    apply elem_of_allNewExceptions in He' as (k & Hk & He').
    apply elem_of_newExceptions in He' as (j' & _ & _ & ->).
    unfold particlesOf in E. simpl in E. injection E as _ E.
    apply Nat2Z.inj in E. subst k. contradiction.
  - apply IH; [exact Hnd|]. intros k Hk. apply Hs. apply elem_of_cons. auto.
Qed.

Lemma exceptionCharge_particles f f' bonded13 c j i :
  particles f' = particles f ->
  exceptionCharge f' bonded13 c j i = exceptionCharge f bonded13 c j i.
Proof. intros E. unfold exceptionCharge, chargeOf. rewrite E. reflexivity. Qed.

Lemma newExceptions_ext q q' i js :
  (forall j, q j i = q' j i) -> newExceptions q i js = newExceptions q' i js.
Proof.
  intros E. induction js as [|j js IH]; simpl; [reflexivity|].
  rewrite IH, E. reflexivity.
Qed.

Lemma allNewExceptions_particles f f' bonded12 exclusions c indices :
  particles f' = particles f ->
  allNewExceptions f' bonded12 exclusions c indices =
  allNewExceptions f bonded12 exclusions c indices.
Proof.
  intros E. induction indices as [|i rest IH]; simpl; [reflexivity|].
  rewrite IH. f_equal. apply newExceptions_ext. intros j.
  apply exceptionCharge_particles. exact E.
Qed.

(** The loop over [js] for the particle [i], on a force with no
    exception on record for any of the pairs. *)
Lemma exceptionsOfParticle_spec bonded13 c i :
  forall js f,
  NoDup js ->
  (forall j, j ∈ js -> j < i ->
             exceptionMap f !! (j, i) = None /\ exceptionMap f !! (i, j) = None) ->
  exists f',
    exceptionsOfParticle f bonded13 c i js = (f', None) /\
    particles f' = particles f /\
    exceptions f' =
      exceptions f ++ newExceptions (exceptionCharge f bonded13 c) i js /\
    (forall a b, exceptionMap f !! (a, b) = None -> ~ (b = i /\ a < i) ->
                 exceptionMap f' !! (a, b) = None).
Proof.
  induction js as [|j js IH]; intros f Hnd Hmap; simpl.
  - exists f. rewrite app_nil_r. auto.
  - apply NoDup_cons in Hnd as [Hj Hnd].
    destruct (Z.ltb_spec j i) as [Hlt|Hge].
    + destruct (Hmap j) as [M1 M2]; [apply elem_of_cons; auto|exact Hlt|].
      pose proof (addException_cases f j i (exceptionCharge f bonded13 c j i) replace) as Hc.
      assert (Hf : findException f j i = None).
      { unfold findException. rewrite M1, M2. reflexivity. }
      rewrite Hf in Hc. rewrite Hc.
      match goal with |- context [exceptionsOfParticle ?g _ _ _ _] => set (f1 := g) end.
      destruct (IH f1 Hnd) as (f' & Hr & Hp & He & Hm).
      { intros k Hk Hki.
        destruct (Hmap k) as [K1 K2]; [apply elem_of_cons; auto|exact Hki|].
        subst f1. simpl. rewrite !lookup_insert_ne; [auto| |].
        - intros [= -> ->]. lia.
        - intros [= ->]. contradiction. }
      exists f'. split; [exact Hr|]. split; [rewrite Hp; reflexivity|].
      split.
      * rewrite He. subst f1. simpl. rewrite <- app_assoc. simpl. do 2 f_equal;
          apply newExceptions_ext; intros k; apply exceptionCharge_particles; reflexivity.
      * intros a b Hab Hn. apply Hm; [|exact Hn].
        subst f1. simpl. rewrite lookup_insert_ne; [exact Hab|].
        intros [= -> ->]. apply Hn. auto.
    + apply IH; [exact Hnd|]. intros k Hk. apply Hmap. apply elem_of_cons. auto.
Qed.

Lemma exceptionsOfParticles_spec bonded12 exclusions c :
  forall indices f,
  NoDup indices ->
  (forall i, i ∈ indices -> NoDup (at_index exclusions (Z.of_nat i))) ->
  (forall i j, i ∈ indices -> j ∈ at_index exclusions (Z.of_nat i) -> j < Z.of_nat i ->
     exceptionMap f !! (j, Z.of_nat i) = None /\ exceptionMap f !! (Z.of_nat i, j) = None) ->
  exists f',
    exceptionsOfParticles f bonded12 exclusions c indices = (f', None) /\
    particles f' = particles f /\
    exceptions f' = exceptions f ++ allNewExceptions f bonded12 exclusions c indices.
Proof.
  induction indices as [|i rest IH]; intros f Hnd Hs Hmap;
    cbn [exceptionsOfParticles allNewExceptions]; cbv zeta.
  - exists f. rewrite app_nil_r. auto.
  - apply NoDup_cons in Hnd as [Hi Hnd].
    destruct (exceptionsOfParticle_spec
                (addExclusionsToSet bonded12 [] (Z.of_nat i) (Z.of_nat i) 1) c (Z.of_nat i)
                (at_index exclusions (Z.of_nat i)) f)
      as (f1 & Hr1 & Hp1 & He1 & Hm1).
    { apply Hs. apply elem_of_cons. auto. }
    { intros j Hj Hji. apply Hmap; [apply elem_of_cons; auto|exact Hj|exact Hji]. }
    rewrite Hr1.
    destruct (IH f1 Hnd) as (f' & Hr & Hp & He).
    { intros k Hk. apply Hs. apply elem_of_cons. auto. }
    { intros k j Hk Hj Hjk.
      destruct (Hmap k j) as [K1 K2]; [apply elem_of_cons; auto|exact Hj|exact Hjk|].
      assert (k <> i) by (intros ->; contradiction).
      split; apply Hm1; auto; lia. }
    exists f'. split; [exact Hr|]. split; [congruence|].
    rewrite He, He1, <- app_assoc. do 2 f_equal.
    apply allNewExceptions_particles. exact Hp1.
Qed.

Lemma existsb_illegal f bonds :
  existsb (illegal f) bonds = false <-> forall bond, bond ∈ bonds -> illegal f bond = false.
Proof.
  split.
  - intros Hex bond Hin. destruct (illegal f bond) eqn:E; [|reflexivity].
    rewrite <- Hex. symmetry. apply existsb_exists. exists bond.
    split; [apply list_elem_of_In; exact Hin|exact E].
  - intros Hl. destruct (existsb (illegal f) bonds) eqn:E; [|reflexivity].
    apply existsb_exists in E as (bond & Hin & Hb). apply list_elem_of_In in Hin.
    rewrite (Hl bond Hin) in Hb. discriminate.
Qed.

(** X13.  A bond that names a particle the force does not have makes
    [createExceptionsFromBonds] throw before it adds any exception,
    wherever in the list the bond stands. *)
Theorem createExceptionsFromBonds_illegal (f : Force) (bonds : list (Z * Z))
    (coulomb14Scale lj14Scale : real) (first second : Z) :
  (first, second) ∈ bonds ->
  ~ (0 <= first < getNumParticles f /\ 0 <= second < getNumParticles f) ->
  createExceptionsFromBonds f bonds coulomb14Scale lj14Scale =
    (f, Some IllegalParticleIndex).
Proof.
  intros Hin Hbad. unfold createExceptionsFromBonds.
  destruct (existsb (illegal f) bonds) eqn:E; [reflexivity|exfalso].
  apply Hbad. pose proof (proj1 (existsb_illegal f bonds) E _ Hin) as Hl.
  apply illegal_false in Hl. exact Hl.
Qed.

(** X14.  With bonds between particles of the force, on a force that has
    no exception on record for a pair of particles within three bonds
    of each other, [createExceptionsFromBonds] does not throw; it leaves
    the particles and the exceptions there were as they are and appends
    one exception for each pair of different particles joined by a walk
    of one, two or three bonds, the lower index first: with charge
    product [0.0] when a walk of at most two bonds joins them, and with
    [coulomb14Scale*charge1*charge2] otherwise. *)
Theorem createExceptionsFromBonds_spec (f : Force) (bonds : list (Z * Z))
    (coulomb14Scale lj14Scale : real) :
  (forall bond, bond ∈ bonds -> illegal f bond = false) ->
  (forall a b, within bonds 3 a b -> findException f a b = None) ->
  exists f' added,
    createExceptionsFromBonds f bonds coulomb14Scale lj14Scale = (f', None) /\
    particles f' = particles f /\
    exceptions f' = exceptions f ++ added /\
    NoDup (particlesOf <$> added) /\
    (forall e, e ∈ added ->
       0 <= particle1 e < getNumParticles f /\ 0 <= particle2 e < getNumParticles f) /\
    (forall e, e ∈ added <->
       particle1 e < particle2 e /\
       within bonds 3 (particle2 e) (particle1 e) /\
       (within bonds 2 (particle2 e) (particle1 e) -> chargeProd e = r0) /\
       (~ within bonds 2 (particle2 e) (particle1 e) ->
        chargeProd e =
          rmul (rmul coulomb14Scale (chargeOf f (particle1 e)))
               (chargeOf f (particle2 e)))).
Proof.
  intros Hlegal Hnone. unfold createExceptionsFromBonds.
  rewrite (proj2 (existsb_illegal f bonds) Hlegal). cbv zeta.
  set (size := length (particles f)).
  set (bonded12 := fold_left insert_bond bonds (replicate size [])).
  set (exclusions := imap _ _).
  assert (Hl : forall bond, bond ∈ bonds -> legalBond size bond).
  { intros bond Hin. apply illegal_false. auto. }
  assert (Hadj : forall a y, y ∈ at_index bonded12 a <-> bonded bonds a y).
  { intros a y. subst bonded12. rewrite at_index_bonded12.
    - rewrite at_index_replicate, elem_of_nil. tauto.
    - rewrite length_replicate. exact Hl. }
  assert (Hset : forall level base x,
             x ∈ addExclusionsToSet bonded12 [] base base level <->
             x <> base /\ within bonds (S level) base x).
  { intros level base x. rewrite elem_of_addExclusionsToSet, elem_of_nil.
    unfold within. split.
    - intros [[]|(Hne & m & Hm & Hw)]. split; [exact Hne|].
      exists m. split; [exact Hm|]. apply (walk_ext _ _ Hadj). exact Hw.
    - intros (Hne & m & Hm & Hw). right. split; [exact Hne|].
      exists m. split; [exact Hm|]. apply (walk_ext _ _ Hadj). exact Hw. }
  assert (Hexcl : forall i, (i < size)%nat ->
             at_index exclusions (Z.of_nat i) =
             addExclusionsToSet bonded12 [] (Z.of_nat i) (Z.of_nat i) 2).
  { intros i Hi. unfold at_index. rewrite Vec.get_of_nat. subst exclusions.
    rewrite list_lookup_imap, lookup_replicate_2 by exact Hi. reflexivity. }
  assert (Hrange : forall k a b, within bonds k a b ->
             0 <= a < Z.of_nat size /\ 0 <= b < Z.of_nat size).
  { intros k a b (m & Hm & Hw). destruct m as [|m]; [lia|].
    apply (walk_legal bonds size Hl m). exact Hw. }
  destruct (exceptionsOfParticles_spec bonded12 exclusions coulomb14Scale (seq 0 size) f)
    as (f' & Hr & Hp & He).
  { apply NoDup_seq. }
  { intros i Hi. apply elem_of_seq in Hi. rewrite Hexcl by lia.
    apply increasing_NoDup, increasing_addExclusionsToSet. exact I. }
  { intros i j Hi Hj Hji. apply elem_of_seq in Hi. rewrite Hexcl in Hj by lia.
    apply Hset in Hj as [_ Hw].
    destruct (findException_None f (Z.of_nat i) j (Hnone _ _ Hw)). auto. }
  exists f', (allNewExceptions f bonded12 exclusions coulomb14Scale (seq 0 size)).
  split; [exact Hr|]. split; [exact Hp|]. split; [exact He|].
  split.
  { apply NoDup_allNewExceptions; [apply NoDup_seq|].
    intros i Hi. apply elem_of_seq in Hi. rewrite Hexcl by lia.
    apply increasing_NoDup, increasing_addExclusionsToSet. exact I. }
  assert (Hchar : forall e,
            e ∈ allNewExceptions f bonded12 exclusions coulomb14Scale (seq 0 size) <->
            particle1 e < particle2 e /\
            within bonds 3 (particle2 e) (particle1 e) /\
            (within bonds 2 (particle2 e) (particle1 e) -> chargeProd e = r0) /\
            (~ within bonds 2 (particle2 e) (particle1 e) ->
             chargeProd e =
               rmul (rmul coulomb14Scale (chargeOf f (particle1 e)))
                    (chargeOf f (particle2 e)))).
  { intros e. rewrite elem_of_allNewExceptions. split.
    - intros (i & Hi & Hin). apply elem_of_seq in Hi.
      apply elem_of_newExceptions in Hin as (j & Hj & Hji & ->).
      rewrite Hexcl in Hj by lia. apply Hset in Hj as [Hne Hw].
      cbn [particle1 particle2 chargeProd].
      split; [exact Hji|]. split; [exact Hw|].
      unfold exceptionCharge.
      destruct (set_find (addExclusionsToSet bonded12 [] (Z.of_nat i) (Z.of_nat i) 1) j)
        eqn:Hfind; cbn [negb].
      + split; [reflexivity|]. intros Hn. exfalso. apply Hn.
        apply set_find_spec, Hset in Hfind as [_ Hw2]. exact Hw2.
      + split; [|reflexivity]. intros Hw2. exfalso.
        assert (Ht : set_find (addExclusionsToSet bonded12 [] (Z.of_nat i) (Z.of_nat i) 1) j
                     = true).
        { apply set_find_spec, Hset. auto. }
        congruence.
    - destruct e as [p1 p2 q]. cbn [particle1 particle2 chargeProd].
      intros (Hlt & Hw & Hq0 & Hq).
      destruct (Hrange _ _ _ Hw) as [Hp2 _].
      exists (Z.to_nat p2). rewrite Z2Nat.id by lia.
      split; [apply elem_of_seq; lia|].
      apply elem_of_newExceptions. exists p1.
      split; [|split; [exact Hlt|]].
      + replace p2 with (Z.of_nat (Z.to_nat p2)) at 1 by lia.
        rewrite Hexcl by lia. rewrite Z2Nat.id by lia.
        apply Hset. split; [lia|exact Hw].
      + f_equal. unfold exceptionCharge.
        destruct (set_find (addExclusionsToSet bonded12 [] p2 p2 1) p1) eqn:Hfind;
          cbn [negb].
        * apply Hq0. apply set_find_spec, Hset in Hfind as [_ Hw2]. exact Hw2.
        * apply Hq. intros Hw2.
          assert (Ht : set_find (addExclusionsToSet bonded12 [] p2 p2 1) p1 = true).
          { apply set_find_spec, Hset. split; [lia|exact Hw2]. }
          congruence. }
  split; [|exact Hchar].
  intros e Hin. apply Hchar in Hin as (_ & Hw & _).
  destruct (Hrange _ _ _ Hw). unfold getNumParticles, Vec.size. fold size. lia.
Qed.
End Bonds.
End Facts.

(** Concrete runs, on exact integers. *)

Lemma addGlobalParameter_then_index_witness :
  exists f', addGlobalParameter bound_force "lambda" (2 : @real ZScalar) = Returned f' 1 /\
             getGlobalParameterIndex f' "lambda" = inr 0 /\
             getGlobalParameterIndex f' "mu" = inl (NoGlobalParameter "mu").
Proof.
  destruct (addGlobalParameter_then_index bound_force "lambda" "mu" (2 : @real ZScalar))
    as (f' & Hadd & _ & _ & Hother).
  destruct (addGlobalParameter_then_index bound_force "lambda" "lambda" (2 : @real ZScalar))
    as (f'' & Hadd' & Hkeep & _).
  exists f'. split; [exact Hadd|]. split.
  - assert (f'' = f') as <- by congruence. apply Hkeep. reflexivity.
  - apply Hother; [|discriminate].
    unfold declared. simpl. intros (g & Hg & Hname).
    apply list_elem_of_singleton in Hg. subst g. discriminate.
Defined.

Lemma setParticleSubset_then_get_witness :
  setParticleSubset one_particle 0 0 =
    Returned (perform one_particle (SetParticleSubset 0 0)) tt /\
  getParticleSubset (perform one_particle (SetParticleSubset 0 0)) 0 =
    Returned (perform one_particle (SetParticleSubset 0 0)) 0.
Proof.
  split; [reflexivity|].
  apply (proj1 (setParticleSubset_then_get one_particle _ 0 0 eq_refl)).
Defined.

Lemma reachable_bound_force : reachable bound_force.
Proof. do 2 apply reachable_call. apply (reachable_construct 2). reflexivity. Qed.

Lemma reachable_switching_wf_witness :
  reachable bound_force /\ switching_wf bound_force /\
  Forall (fun sp => 0 <= slice sp < numSlices (numSubsets bound_force))
         (switchingParameters bound_force) /\
  getNumSwitchingParameters bound_force <= numSlices (numSubsets bound_force).
Proof.
  split; [exact reachable_bound_force|].
  destruct (reachable_switching_wf bound_force reachable_bound_force) as [W Hsmall].
  split; [exact W|]. apply Hsmall. vm_compute. discriminate.
Defined.

Lemma addException_then_get_witness :
  reachable bound_force /\
  addException bound_force 0 1 (3 : @real ZScalar) false =
    Returned (perform bound_force (AddException 0 1 (3 : @real ZScalar) false)) 0 /\
  getExceptionParameters (perform bound_force (AddException 0 1 (3 : @real ZScalar) false)) 0 =
    Returned (perform bound_force (AddException 0 1 (3 : @real ZScalar) false))
             (0, 1, (3 : @real ZScalar)).
Proof.
  split; [exact reachable_bound_force|]. split; [reflexivity|].
  apply (proj1 (addException_then_get bound_force _ 0 1 (3 : @real ZScalar) false 0
                  reachable_bound_force eq_refl)).
Defined.

Definition no_requests : @Requests ZScalar :=
  {| force := bound_force; switchParamDerivatives := [] |}.

Definition one_request : @Requests ZScalar :=
  {| force := bound_force; switchParamDerivatives := [0] |}.

Example addSwitchingParameterDerivative_lambda :
  addSwitchingParameterDerivative no_requests "lambda" = (one_request, inr 0).
Proof. reflexivity. Qed.

Lemma requests_wf_no_requests : requests_wf no_requests.
Proof. split; constructor. Qed.

Lemma addSwitchingParameterDerivative_spec_witness :
  requests_wf no_requests /\
  getSwitchingParameterDerivativeName one_request 0 = inr (Some "lambda") /\
  requests_wf one_request /\
  addSwitchingParameterDerivative one_request "lambda" =
    (one_request, inl DerivativeAlreadyRequested).
Proof.
  split; [exact requests_wf_no_requests|].
  pose proof (addSwitchingParameterDerivative_spec no_requests "lambda"
                requests_wf_no_requests) as T.
  change (addSwitchingParameterDerivative no_requests "lambda")
    with (one_request, (inr 0 : RequestError + Z)) in T.
  destruct T as (_ & _ & _ & Hname & Hwf & Hfst & Hsnd).
  split; [exact Hname|]. split; [exact Hwf|].
  destruct (addSwitchingParameterDerivative one_request "lambda") as [d r].
  simpl in Hfst, Hsnd. congruence.
Defined.

Lemma setSwitchingParameterDerivative_keeps_witness :
  requests_wf one_request /\
  setSwitchingParameterDerivative one_request 0 "lambda" = (one_request, None) /\
  getSwitchingParameterDerivativeName one_request 0 = inr (Some "lambda").
Proof.
  assert (Hwf : requests_wf one_request).
  { split; [apply NoDup_singleton|]. constructor; [|constructor].
    unfold Vec.size. simpl. lia. }
  split; [exact Hwf|]. split; [reflexivity|].
  pose proof (setSwitchingParameterDerivative_keeps one_request 0 "lambda" Hwf) as T.
  change (setSwitchingParameterDerivative one_request 0 "lambda")
    with (one_request, (None : option RequestError)) in T.
  destruct T as (_ & _ & _ & _ & Hname). apply Hname. reflexivity.
Defined.

(** A chain of five particles 0-1-2-3-4 with charges 1 to 5. *)
Definition chain : @Force ZScalar :=
  fold_left perform
    [AddParticle (1 : @real ZScalar) 0; AddParticle (2 : @real ZScalar) 0;
     AddParticle (3 : @real ZScalar) 0; AddParticle (4 : @real ZScalar) 1;
     AddParticle (5 : @real ZScalar) 1]
    two_subsets.

Definition chain_bonds : list (Z * Z) := [(0, 1); (1, 2); (3, 2); (3, 4)].

Example createExceptionsFromBonds_chain :
  let r := createExceptionsFromBonds false chain chain_bonds
             (2 : @real ZScalar) (1 : @real ZScalar) in
  snd r = None /\
  (fun e => (particle1 e, particle2 e, chargeProd e)) <$> exceptions (fst r) =
    [(0, 1, 0); (0, 2, 0); (1, 2, 0); (0, 3, 8); (1, 3, 0); (2, 3, 0);
     (1, 4, 20); (2, 4, 0); (3, 4, 0)].
Proof. vm_compute. split; reflexivity. Qed.

Lemma createExceptionsFromBonds_illegal_witness :
  (3, 5) ∈ chain_bonds ++ [(3, 5)] /\
  ~ (0 <= 3 < getNumParticles chain /\ 0 <= 5 < getNumParticles chain) /\
  createExceptionsFromBonds false chain (chain_bonds ++ [(3, 5)])
      (2 : @real ZScalar) (1 : @real ZScalar)
    = (chain, Some IllegalParticleIndex).
Proof.
  assert (Hin : (3, 5) ∈ chain_bonds ++ [(3, 5)]).
  { apply elem_of_app. right. apply list_elem_of_singleton. reflexivity. }
  assert (Hbad : ~ (0 <= 3 < getNumParticles chain /\ 0 <= 5 < getNumParticles chain)).
  { change (getNumParticles chain) with 5. lia. }
  split; [exact Hin|]. split; [exact Hbad|].
  apply (createExceptionsFromBonds_illegal false chain _ 2 1 3 5 Hin Hbad).
Defined.

Lemma createExceptionsFromBonds_spec_witness :
  (forall bond, bond ∈ chain_bonds -> illegal chain bond = false) /\
  (forall a b, within chain_bonds 3 a b -> findException chain a b = None) /\
  exists f' added,
    createExceptionsFromBonds false chain chain_bonds (2 : @real ZScalar) (1 : @real ZScalar)
      = (f', None) /\
    particles f' = particles chain /\
    exceptions f' = exceptions chain ++ added /\
    NoDup (particlesOf <$> added).
Proof.
  assert (Hl : forall bond, bond ∈ chain_bonds -> illegal chain bond = false).
  { intros bond Hin. unfold chain_bonds in Hin.
    repeat (apply elem_of_cons in Hin as [->|Hin]; [reflexivity|]).
    apply elem_of_nil in Hin. contradiction. }
  assert (Hn : forall a b, within chain_bonds 3 a b -> findException chain a b = None).
  { intros a b _. unfold findException. change (exceptionMap chain) with (∅ : gmap (Z * Z) Z).
    rewrite !lookup_empty. reflexivity. }
  split; [exact Hl|]. split; [exact Hn|].
  destruct (createExceptionsFromBonds_spec false chain chain_bonds 2 1 Hl Hn)
    as (f' & added & Hr & Hp & He & Hnd & _).
  exists f', added. auto.
Defined.
End ForceFacts.

(** ** More on the CUDA kernel *)

Module KernelFacts.
Import CudaCalcSlicedPmeForceKernel.
Section Facts.
Context `{Scalar}.

(** *** Calling [execute] again *)

Lemma refresh_settled context names :
  (forall n, n ∈ names -> rneq (context n) (context n) = false) ->
  forall values,
  refresh context names (fst (refresh context names values)) =
    (fst (refresh context names values), false).
Proof.
  induction names as [|n names IH]; intros Hrefl [|v values]; try reflexivity.
  cbn [refresh].
  assert (IH' := IH (fun m Hm => Hrefl m (proj2 (elem_of_cons _ _ _) (or_intror Hm))) values).
  destruct (refresh context names values) as [rest changed]. cbn [fst] in IH'.
  destruct (rneq (context n) v) eqn:R; cbn [fst refresh]; rewrite IH'.
  - rewrite (Hrefl n) by (apply elem_of_cons; auto). reflexivity.
  - rewrite R. reflexivity.
Qed.

Lemma with_coupling_same ks :
  with_coupling ks (coupParamValues ks) (sliceLambdaVec ks) (sliceLambda ks)
    (ewaldSelfEnergy ks) = ks.
Proof. destruct ks. reflexivity. Qed.

Lemma with_params_same ks :
  recomputeParams ks = false ->
  with_params ks (paramValues ks) false (ewaldSelfEnergy ks) = ks.
Proof. destruct ks. simpl. intros ->. reflexivity. Qed.

Lemma execute_caches ks context a b c d :
  let ks' := fst (execute ks context a b c d) in
  coupParamNames ks' = coupParamNames ks /\
  paramNames ks' = paramNames ks /\
  coupParamValues ks' = fst (refresh context (coupParamNames ks) (coupParamValues ks)) /\
  paramValues ks' = fst (refresh context (paramNames ks) (paramValues ks)) /\
  recomputeParams ks' = false.
Proof.
  unfold execute, updateParams, updateCoupling. simpl.
  destruct (refresh context (coupParamNames ks) (coupParamValues ks)) as [values changed].
  destruct changed; simpl;
    destruct (refresh context (paramNames ks) (paramValues ks)) as [values' changed'];
    destruct changed'; simpl;
    try destruct (recomputeParams ks); simpl; repeat split; reflexivity.
Qed.

(** X15.  A second [execute] under the same parameter values finds nothing
    changed: it leaves every table and cached value of the kernel as the
    first call left them, and with the same flags it returns the same
    energy.  The parameter values must compare equal to themselves,
    which a NaN does not. *)
Theorem execute_twice (ks : Kernel) (context : string -> real)
    (a b c d a' b' c' d' : bool) :
  (forall p, p ∈ coupParamNames ks ++ paramNames ks ->
             rneq (context p) (context p) = false) ->
  let ks' := fst (execute ks context a b c d) in
  fst (execute ks' context a' b' c' d') = ks' /\
  snd (execute ks' context a b c d) = snd (execute ks context a b c d).
Proof.
  intros Hrefl ks'.
  destruct (execute_caches ks context a b c d) as (Hcn & Hpn & Hcv & Hpv & Hre).
  fold ks' in Hcn, Hpn, Hcv, Hpv, Hre.
  assert (Hc : updateCoupling ks' context = ks').
  { unfold updateCoupling. rewrite Hcn, Hcv, refresh_settled.
    - cbv beta iota zeta. rewrite <- Hcv. apply with_coupling_same.
    - intros n Hn. apply Hrefl. apply elem_of_app. auto. }
  assert (Hp : updateParams ks' context = ks').
  { unfold updateParams. rewrite Hpn, Hpv, refresh_settled.
    - rewrite Hre. cbv beta iota zeta. rewrite <- Hpv. apply with_params_same. exact Hre.
    - intros n Hn. apply Hrefl. apply elem_of_app. auto. }
  assert (He : forall x y z w, fst (execute ks' context x y z w) = ks').
  { intros x y z w. unfold execute. cbn [fst]. rewrite Hc, Hp. reflexivity. }
  split; [apply He|].
  unfold execute at 1. cbn [snd]. rewrite Hc, Hp.
  unfold ks', execute. reflexivity.
Qed.

(** *** A copy that fails *)

Lemma with_particles_same ks : with_particles ks (baseParticleCharges ks) (subsets ks) = ks.
Proof. destruct ks. reflexivity. Qed.

Lemma execute_with_particles ks charges subsetVec context a b c d :
  execute (with_particles ks charges subsetVec) context a b c d =
    (with_particles (fst (execute ks context a b c d)) charges subsetVec,
     snd (execute ks context a b c d)).
Proof.
  unfold execute, updateParams, updateCoupling. simpl.
  destruct (refresh context (coupParamNames ks) (coupParamValues ks)) as [values changed].
  destruct changed; simpl;
    destruct (refresh context (paramNames ks) (paramValues ks)) as [values' changed'];
    destruct changed'; simpl;
    try destruct (recomputeParams ks); simpl; reflexivity.
Qed.

(** X16.  When [copyParametersToContext] throws, the host tables, the
    lambdas and the self-energies are those of before, so [execute]
    returns what it would have returned without the call.  The kernel is
    not always left as it was, though: when the exceptions are found to
    differ only in the comparison of the pairs, the charges of the
    rejected force, narrowed to [float], and its subsets have been
    uploaded already. *)
Theorem copyParametersToContext_throws (cu : Platform) (ks ks' : Kernel) (f' : F.Force)
    (e : KernelError) :
  copyParametersToContext cu ks f' = (ks', Some e) ->
  ks' = with_particles ks (baseParticleCharges ks') (subsets ks') /\
  (forall context a b c d,
     snd (execute ks' context a b c d) = snd (execute ks context a b c d) /\
     sliceLambda (fst (execute ks' context a b c d)) =
       sliceLambda (fst (execute ks context a b c d))) /\
  (ks' = ks \/
   e = ExceptionsChanged /\
   length (share cu (nonExcluded f')) = length (exceptionPairs ks) /\
   baseParticleCharges ks' =
     Vec.fill (replicate (Z.to_nat (paddedNumAtoms cu)) (rfloat r0))
              ((fun p => rfloat (F.charge p)) <$> F.particles f') /\
   subsets ks' =
     Vec.fill (replicate (Z.to_nat (paddedNumAtoms cu)) 0) (F.subset <$> F.particles f')).
Proof.
  intros Hc.
  assert (Hcases :
    ks' = ks \/
    e = ExceptionsChanged /\
    length (share cu (nonExcluded f')) = length (exceptionPairs ks) /\
    ks' = with_particles ks (chargeVec cu f') (subsetVecOf cu f')).
  { unfold copyParametersToContext in Hc.
    destruct (negb (F.getNumParticles f' =? numAtoms cu)); [left; congruence|].
    cbv zeta in Hc.
    destruct (Z.eqb_spec (Vec.size (share cu (nonExcluded f'))) (Vec.size (exceptionPairs ks)))
      as [Hsize|Hsize]; cbn [negb] in Hc; [|left; congruence].
    destruct (negb (samePairs (exceptionPairs ks) (share cu (nonExcluded f'))));
      [|discriminate].
    right. injection Hc as <- <-. unfold Vec.size in Hsize.
    split; [reflexivity|]. split; [lia|reflexivity]. }
  assert (Hpart : ks' = with_particles ks (baseParticleCharges ks') (subsets ks')).
  { destruct Hcases as [->|(_ & _ & ->)].
    - symmetry. apply with_particles_same.
    - reflexivity. }
  split; [exact Hpart|]. split.
  - intros context a b c d. rewrite Hpart, execute_with_particles. cbn [fst snd].
    split; reflexivity.
  - destruct Hcases as [->|(He & Hlen & ->)]; [left; reflexivity|right].
    split; [exact He|]. split; [exact Hlen|]. split; reflexivity.
Qed.

(** *** The shares of the contexts *)

(** X17.  The shares of the contexts [0 .. numContexts-1] are consecutive
    pieces of the list: in the order of the contexts they make up the
    list, so every exception is the work of exactly one context, and no
    share is longer than the list. *)
Theorem shares_partition {A} (cu : Platform) (l : list A) :
  0 < numContexts cu ->
  concat ((fun c : nat => share (atContext cu (Z.of_nat c)) l)
            <$> seq 0 (Z.to_nat (numContexts cu))) = l /\
  forall c, 0 <= c < numContexts cu ->
    share (atContext cu c) l =
      take (Z.to_nat (startIndex (atContext cu (c + 1)) (Vec.size l))
            - Z.to_nat (startIndex (atContext cu c) (Vec.size l)))
           (drop (Z.to_nat (startIndex (atContext cu c) (Vec.size l))) l).
Proof.
  intros HC. split.
  - rewrite shares_concat by exact HC.
    unfold startIndex, Vec.size. simpl. rewrite Z2Nat.id by lia.
    rewrite Z.mul_comm, Z.quot_mul by lia. rewrite Nat2Z.id. apply firstn_all.
  - intros c Hc. destruct (share_start_end cu c l ltac:(lia) HC) as [Hle He].
    unfold share. rewrite He. f_equal. lia.
Qed.


(** *** The slices of the exceptions *)

(** [i > j ? i*(i+1)/2+j : j*(j+1)/2+i], on [int]s. *)
Definition pairSlice (i j : Z) : Z :=
  if j <? i then CInt.wrap (Z.quot (CInt.wrap (i * CInt.wrap (i + 1))) 2 + j)
  else CInt.wrap (Z.quot (CInt.wrap (j * CInt.wrap (j + 1))) 2 + i).

(** One round of the loop that fills [exceptionSlicesVec]:

      int i = subsetVec[atom1];
      int j = subsetVec[atom2];
      exceptionSlicesVec[k] = i > j ? i*(i+1)/2+j : j*(j+1)/2+i;

    with [None] where an atom is no index of [subsetVec]. *)
Definition exceptionSlice (subsetVec : list Z) (e : F.ExceptionInfo) : option Z :=
  match Vec.get subsetVec (F.particle1 e), Vec.get subsetVec (F.particle2 e) with
  | Some i, Some j => Some (pairSlice i j)
  | _, _ => None
  end.

Definition exceptionSlices (cu : Platform) (f : F.Force) : list (option Z) :=
  let subsetVec := subsetVecOf cu f in
  (fun ie => exceptionSlice subsetVec (snd ie)) <$> share cu (nonExcluded f).

Lemma pairSlice_sliceIndex i j : pairSlice i j = SliceIndexMap.sliceIndex i j.
Proof.
  unfold pairSlice, SliceIndexMap.sliceIndex.
  destruct (Z.ltb_spec j i).
  - rewrite Z.min_r, Z.max_l by lia. reflexivity.
  - rewrite Z.min_l, Z.max_r by lia. reflexivity.
Qed.

Lemma elem_of_nonExcludedFrom offsets es : forall i ie,
  ie ∈ nonExcludedFrom offsets i es -> snd ie ∈ es.
Proof.
  induction es as [|e es IH]; intros i ie Hin; simpl in Hin.
  - apply elem_of_nil in Hin. contradiction.
  - destruct (rneq (F.chargeProd e) r0 || bool_decide (i ∈ offsets)).
    + apply elem_of_cons in Hin as [->|Hin]; [apply elem_of_cons; auto|].
      apply elem_of_cons. right. apply (IH _ _ Hin).
    + apply elem_of_cons. right. apply (IH _ _ Hin).
Qed.

Lemma lookup_share {A} cu (l : list A) (k : nat) x :
  share cu l !! k = Some x -> x ∈ l.
Proof.
  unfold share. cbv zeta. intros Hk.
  apply lookup_take_Some in Hk as [Hk _]. rewrite lookup_drop in Hk.
  apply list_elem_of_lookup_2 in Hk. exact Hk.
Qed.

(** X18.  The slice the kernel gives an exception is the slice
    [SliceIndexMap.sliceIndex] of the subsets of its two particles,
    whichever of the two is named first, and, in a force with at most
    [46340] subsets, a valid index of the lambdas; the particles of the
    exceptions must be particles of the force. *)
Theorem exceptionSlices_valid (cu : Platform) (f : F.Force) :
  F.subsets_in_range f ->
  F.getNumParticles f <= paddedNumAtoms cu ->
  (forall e, e ∈ F.exceptions f ->
     0 <= F.particle1 e < F.getNumParticles f /\
     0 <= F.particle2 e < F.getNumParticles f) ->
  length (exceptionSlices cu f) = length (share cu (nonExcluded f)) /\
  forall (k : nat) ie, share cu (nonExcluded f) !! k = Some ie ->
    exists p1 p2,
      Vec.get (F.particles f) (F.particle1 (snd ie)) = Some p1 /\
      Vec.get (F.particles f) (F.particle2 (snd ie)) = Some p2 /\
      exceptionSlices cu f !! k =
        Some (Some (SliceIndexMap.sliceIndex (F.subset p1) (F.subset p2))) /\
      SliceIndexMap.sliceIndex (F.subset p1) (F.subset p2) =
        SliceIndexMap.sliceIndex (F.subset p2) (F.subset p1) /\
      (F.numSubsets f <= 46340 ->
       0 <= SliceIndexMap.sliceIndex (F.subset p1) (F.subset p2)
         < SliceIndexMap.numSlices (F.numSubsets f)).
Proof.
  intros Hrange Hpad Hvalid. unfold exceptionSlices. cbv zeta.
  split; [apply length_fmap|].
  intros k ie Hk. rewrite list_lookup_fmap, Hk. cbn [fmap option_fmap option_map].
  assert (He : snd ie ∈ F.exceptions f).
  { apply lookup_share in Hk. apply elem_of_nonExcludedFrom in Hk. exact Hk. }
  destruct (Hvalid _ He) as [H1 H2]. unfold F.getNumParticles, Vec.size in H1, H2, Hpad.
  destruct (Vec.get_in_range (F.particles f) (F.particle1 (snd ie)) H1) as [p1 G1].
  destruct (Vec.get_in_range (F.particles f) (F.particle2 (snd ie)) H2) as [p2 G2].
  exists p1, p2. split; [exact G1|]. split; [exact G2|].
  assert (Hsub : forall a p, 0 <= a < Z.of_nat (length (F.particles f)) ->
            Vec.get (F.particles f) a = Some p ->
            Vec.get (subsetVecOf cu f) a = Some (F.subset p) /\
            0 <= F.subset p < F.numSubsets f).
  { intros a p Ha G. apply Vec.get_Some in G as [_ G]. split.
    - replace a with (Z.of_nat (Z.to_nat a)) at 1 by lia. rewrite Vec.get_of_nat.
      apply fill_particles; [lia|exact G].
    - unfold F.subsets_in_range in Hrange. rewrite Forall_forall in Hrange.
      apply Hrange. apply list_elem_of_lookup_2 in G. exact G. }
  destruct (Hsub _ _ H1 G1) as [S1 R1]. destruct (Hsub _ _ H2 G2) as [S2 R2].
  split; [|split].
  - unfold exceptionSlice. rewrite S1, S2, pairSlice_sliceIndex. reflexivity.
  - apply SliceIndexMap.sliceIndex_sym.
  - intros Hbound. apply SliceIndexMap.sliceIndex_bounds; assumption.
Qed.

(** *** The names of the parameters *)

Lemma find_index_absent {A} (p : A -> bool) (v : list A) x :
  Vec.find_index p v = Z.of_nat (length v) -> x ∈ v -> p x = false.
Proof.
  intros E Hx. apply list_elem_of_lookup_1 in Hx as [j Hj].
  apply (ForceFacts.find_index_first p v j x); [|exact Hj].
  apply lookup_lt_Some in Hj. lia.
Qed.

Lemma NoDup_addParamName names param : NoDup names -> NoDup (addParamName names param).
Proof.
  intros Hnd. unfold addParamName, Vec.size.
  destruct (Z.eqb_spec (Vec.find_index (String.eqb param) names) (Z.of_nat (length names)))
    as [E|_]; [|exact Hnd].
  apply NoDup_app. split; [exact Hnd|]. split; [|apply NoDup_singleton].
  intros x Hx Hx'. apply list_elem_of_singleton in Hx'. subst x.
  pose proof (find_index_absent _ _ _ E Hx) as Hp.
  rewrite String.eqb_refl in Hp. discriminate.
Qed.

Lemma NoDup_offsetParamNames cu f : NoDup (offsetParamNames cu f).
Proof.
  unfold offsetParamNames. cbv zeta.
  apply ForceFacts.fold_left_keeps.
  - intros names o Hnd.
    destruct ((exceptionIndex f (F.eo_exception o) <? startIndex cu (Vec.size (nonExcluded f)))
              || (endIndex cu (Vec.size (nonExcluded f)) <=? exceptionIndex f (F.eo_exception o)));
      [exact Hnd|apply NoDup_addParamName; exact Hnd].
  - apply ForceFacts.fold_left_keeps; [|constructor].
    intros names o Hnd. apply NoDup_addParamName. exact Hnd.
Qed.

Definition namesOf (acc : list string * list real * list Z) : list string := fst (fst acc).

Lemma NoDup_bindCoupling (cps : list (string * Z * Z)) : forall acc,
  NoDup (namesOf acc) ->
  NoDup (namesOf (fold_left bindCoupling cps acc)) /\
  forall n, n ∈ namesOf (fold_left bindCoupling cps acc) ->
            n ∈ namesOf acc \/ exists s1 s2, (n, s1, s2) ∈ cps.
Proof.
  induction cps as [|[[param s1] s2] cps IH]; intros [[names values] table] Hnd.
  - simpl. auto.
  - cbn [fold_left].
    destruct (bindCoupling (names, values, table) (param, s1, s2))
      as [[names' values'] table'] eqn:E.
    assert (Hstep : NoDup names' /\ forall n, n ∈ names' -> n ∈ names \/ n = param).
    { unfold bindCoupling in E. unfold Vec.size in E.
      destruct (Z.eqb_spec (Vec.find_index (String.eqb param) names)
                           (Z.of_nat (length names))) as [Ei|_];
        injection E as <- _ _.
      - split.
        + apply NoDup_app. split; [exact Hnd|]. split; [|apply NoDup_singleton].
          intros x Hx Hx'. apply list_elem_of_singleton in Hx'. subst x.
          pose proof (find_index_absent _ _ _ Ei Hx) as Hp.
          rewrite String.eqb_refl in Hp. discriminate.
        + intros n Hn. apply elem_of_app in Hn as [Hn|Hn]; [auto|].
          apply list_elem_of_singleton in Hn. auto.
      - split; [exact Hnd|auto]. }
    destruct Hstep as [Hnd' Hsub].
    destruct (IH (names', values', table') Hnd') as [Hnd'' Hsub''].
    split; [exact Hnd''|].
    intros n Hn. destruct (Hsub'' n Hn) as [Hn'|(t1 & t2 & Hc)].
    + destruct (Hsub n Hn') as [Hn''| ->]; [left; exact Hn''|].
      right. exists s1, s2. apply elem_of_cons. auto.
    + right. exists t1, t2. apply elem_of_cons. auto.
Qed.

Lemma copyParametersToContext_names cu ks f ks' e :
  copyParametersToContext cu ks f = (ks', e) ->
  coupParamNames ks' = coupParamNames ks /\ paramNames ks' = paramNames ks.
Proof.
  unfold copyParametersToContext.
  destruct (negb (F.getNumParticles f =? numAtoms cu)); [intros [= <- _]; auto|].
  cbv zeta.
  destruct (negb (Vec.size (share cu (nonExcluded f)) =? Vec.size (exceptionPairs ks)));
    [intros [= <- _]; auto|].
  destruct (negb (samePairs (exceptionPairs ks) (share cu (nonExcluded f))));
    intros [= <- _]; auto.
Qed.

(** X19.  In every state of a kernel, each parameter name is held once,
    in the list of the coupling parameters and in the list of the offset
    parameters, however many slices or offsets use it; and a coupling
    name is the parameter of one of the force's switching
    parameters. *)
Theorem names_held_once (cu : Platform) (f0 f : F.Force) (ks : Kernel) :
  serves cu f0 f ks ->
  NoDup (coupParamNames ks) /\
  NoDup (paramNames ks) /\
  forall n, n ∈ coupParamNames ks ->
    exists s1 s2, (n, s1, s2) ∈ couplingParameters f0.
Proof.
  intros Hs.
  assert (Hn : coupParamNames ks = coupParamNames (initialize cu f0) /\
               paramNames ks = paramNames (initialize cu f0)).
  { induction Hs as [Hr Hn Hp|f ks context a b c d _ IH|f ks f' ks' _ IH Hr Hsub Hc
                    |f ks f' ks' e _ IH Hc].
    - auto.
    - destruct (execute_caches ks context a b c d) as (E1 & E2 & _).
      destruct IH. split; congruence.
    - destruct (copyParametersToContext_names _ _ _ _ _ Hc). destruct IH. split; congruence.
    - destruct (copyParametersToContext_names _ _ _ _ _ Hc). destruct IH. split; congruence. }
  destruct Hn as [-> ->].
  destruct (initialize_fields cu f0) as (_ & _ & Hnames & _).
  destruct (NoDup_bindCoupling (couplingParameters f0)
              ([], [], replicate (Z.to_nat (SliceIndexMap.numSlices (F.getNumSubsets f0))) (-1)))
    as [Hnd Hsub]; [constructor|].
  split; [|split].
  - rewrite Hnames. exact Hnd.
  - assert (E : paramNames (initialize cu f0) = offsetParamNames cu f0).
    { unfold initialize. cbv zeta. destruct (fold_left bindCoupling _ _) as [[? ?] ?].
      reflexivity. }
    rewrite E. apply NoDup_offsetParamNames.
  - intros n Hin. rewrite Hnames in Hin. destruct (Hsub n Hin) as [Hn|Hn]; [|exact Hn].
    apply elem_of_nil in Hn. contradiction.
Qed.

(** *** The charge offsets of the particles *)

(** One round of the loop over the particle charge offsets:

      auto paramPos = find(paramNames.begin(), paramNames.end(), param);
      int paramIndex;
      if (paramPos == paramNames.end()) {
          paramIndex = paramNames.size();
          paramNames.push_back(param);
      }
      else
          paramIndex = paramPos-paramNames.begin();
      particleOffsetVec[particle].push_back(make_float2(charge, paramIndex)); *)
Definition addParticleOffset (f : F.Force)
    (acc : list string * list (list (real * real))) (o : F.ParticleOffsetInfo)
    : list string * list (list (real * real)) :=
  let '(names, vec) := acc in
  let param := offsetParameterName f (F.po_parameter o) in
  let paramIndex := Vec.find_index (String.eqb param) names in
  (addParamName names param,
   match Vec.get vec (F.po_particle o) with
   | Some v =>
       Vec.set vec (F.po_particle o)
               (v ++ [(rfloat (F.po_chargeScale o), rofint paramIndex)])
   | None => vec
   end).

Definition particleOffsetVec (f : F.Force) : list (list (real * real)) :=
  snd (fold_left (addParticleOffset f) (F.particleOffsets f)
         ([], replicate (Z.to_nat (F.getNumParticles f)) [])).

(** [particleOffsetIndicesVec.push_back(p.size());
     for (j ...) p.push_back(particleOffsetVec[i][j]);] *)
Definition appendOffsets {X} (acc : list Z * list X) (v : list X) : list Z * list X :=
  (fst acc ++ [Vec.size (snd acc)], snd acc ++ v).

(** [particleOffsetIndicesVec] and [p]; the indices are filled up with
    [p.size()] to the size [paddedNumAtoms+1] of the device array. *)
Definition particleOffsetArrays (cu : Platform) (f : F.Force)
    : list Z * list (real * real) :=
  let '(indices, p) := fold_left appendOffsets (particleOffsetVec f) ([], []) in
  (indices ++ replicate (Z.to_nat (paddedNumAtoms cu + 1) - length indices) (Vec.size p), p).

(** An entry stands for an offset: a [float2] of the offset's charge
    scale and of the index of the offset's parameter in a list of names,
    both converted to [float]. *)
Definition placed (f : F.Force) (names : list string) (o : F.ParticleOffsetInfo)
    (entry : real * real) : Prop :=
  fst entry = rfloat (F.po_chargeScale o) /\
  exists paramIndex : Z,
    snd entry = rofint paramIndex /\
    Vec.get names paramIndex = Some (offsetParameterName f (F.po_parameter o)).

Lemma get_of_lookup {A} (v : list A) index x :
  0 <= index -> v !! Z.to_nat index = Some x -> Vec.get v index = Some x.
Proof.
  intros Hi Hx. replace index with (Z.of_nat (Z.to_nat index)) by lia.
  rewrite Vec.get_of_nat. exact Hx.
Qed.

Lemma get_prefix {A} (v w : list A) index x :
  v `prefix_of` w -> Vec.get v index = Some x -> Vec.get w index = Some x.
Proof.
  intros Hp G. apply Vec.get_Some in G as [Hr G].
  apply get_of_lookup; [lia|]. eapply prefix_lookup_Some; eauto.
Qed.

Lemma addParamName_prefix names param :
  names `prefix_of` addParamName names param /\
  Vec.get (addParamName names param) (Vec.find_index (String.eqb param) names) = Some param.
Proof.
  unfold addParamName, Vec.size.
  pose proof (find_index_range (String.eqb param) names) as Hr.
  destruct (Z.eqb_spec (Vec.find_index (String.eqb param) names) (Z.of_nat (length names)))
    as [E|NE].
  - split; [exists [param]; reflexivity|].
    rewrite E, Vec.get_of_nat, lookup_app_r by lia. rewrite Nat.sub_diag. reflexivity.
  - split; [reflexivity|].
    destruct (find_index_found (String.eqb param) names) as (x & Hx & Px); [lia|].
    apply String.eqb_eq in Px. subst x. apply get_of_lookup; [lia|exact Hx].
Qed.

Lemma placed_prefix f names names' o entry :
  names `prefix_of` names' -> placed f names o entry -> placed f names' o entry.
Proof.
  intros Hp (Hc & k & Hk & Hn). split; [exact Hc|].
  exists k. split; [exact Hk|]. eapply get_prefix; eauto.
Qed.

Lemma addParticleOffset_fold f (n : nat) : forall os names vec,
  length vec = n ->
  (forall o, o ∈ os -> 0 <= F.po_particle o < Z.of_nat n) ->
  exists vec',
    fold_left (addParticleOffset f) os (names, vec) =
      (fold_left (fun names o => addParamName names (offsetParameterName f (F.po_parameter o)))
                 os names, vec') /\
    names `prefix_of`
      fold_left (fun names o => addParamName names (offsetParameterName f (F.po_parameter o)))
                os names /\
    length vec' = n /\
    forall (i : nat) v, vec !! i = Some v ->
      exists new, vec' !! i = Some (v ++ new) /\
        Forall2 (placed f
                   (fold_left (fun names o =>
                                 addParamName names (offsetParameterName f (F.po_parameter o)))
                              os names))
                (filter (fun o => F.po_particle o = Z.of_nat i) os) new.
Proof.
  induction os as [|o os IH]; intros names vec Hlen Hvalid.
  - exists vec. cbn [fold_left]. split; [reflexivity|]. split; [reflexivity|].
    split; [exact Hlen|]. intros i v Hv. exists []. rewrite app_nil_r.
    split; [exact Hv|constructor].
  - cbn [fold_left]. unfold addParticleOffset at 2. cbv zeta.
    destruct (Hvalid o) as [Hp1 Hp2]; [apply elem_of_cons; auto|].
    destruct (Vec.get_in_range vec (F.po_particle o)) as [v0 G]; [lia|].
    rewrite G.
    set (param := offsetParameterName f (F.po_parameter o)).
    set (paramIndex := Vec.find_index (String.eqb param) names).
    destruct (addParamName_prefix names param) as [Hpre Hget]. fold paramIndex in Hget.
    destruct (IH (addParamName names param)
                 (Vec.set vec (F.po_particle o)
                    (v0 ++ [(rfloat (F.po_chargeScale o), rofint paramIndex)])))
      as (vec' & Hfold & Hpre' & Hlen' & Hnew).
    { rewrite Vec.length_set. exact Hlen. }
    { intros o' Ho'. apply Hvalid. apply elem_of_cons. auto. }
    exists vec'. split; [exact Hfold|]. split; [etransitivity; eassumption|].
    split; [exact Hlen'|].
    intros i v Hv.
    destruct (decide (F.po_particle o = Z.of_nat i)) as [Ei|Ni].
    + rewrite filter_cons_True by exact Ei.
      assert (v0 = v) as ->.
      { rewrite Ei, Vec.get_of_nat in G. congruence. }
      destruct (Hnew i (v ++ [(rfloat (F.po_chargeScale o), rofint paramIndex)]))
        as (new & Hl & Hf).
      { rewrite <- Vec.get_of_nat, <- Ei. apply Vec.get_set_eq. lia. }
      exists ((rfloat (F.po_chargeScale o), rofint paramIndex) :: new).
      split; [rewrite Hl, <- app_assoc; reflexivity|].
      constructor; [|exact Hf].
      apply (placed_prefix f (addParamName names param)); [exact Hpre'|].
      split; [reflexivity|]. exists paramIndex. split; [reflexivity|exact Hget].
    + rewrite filter_cons_False by exact Ni.
      apply Hnew. rewrite <- Vec.get_of_nat, Vec.get_set_ne by exact Ni.
      rewrite Vec.get_of_nat. exact Hv.
Qed.

Lemma appendOffsets_fold {X} (vs : list (list X)) : forall indices p,
  fold_left appendOffsets vs (indices, p) =
    (indices ++ ((fun k : nat => Z.of_nat (length p + length (concat (take k vs))))
                   <$> seq 0 (length vs)),
     p ++ concat vs).
Proof.
  induction vs as [|v vs IH]; intros indices p.
  - simpl. rewrite !app_nil_r. reflexivity.
  - cbn [fold_left]. unfold appendOffsets at 2. cbn [fst snd]. rewrite IH.
    cbn [length concat]. rewrite <- !app_assoc. f_equal. f_equal.
    cbn [seq fmap list_fmap app take concat length]. f_equal.
    + unfold Vec.size. f_equal. lia.
    + rewrite <- fmap_S_seq, <- list_fmap_compose. apply list_fmap_ext.
      intros i k Hk. cbn [compose take concat]. rewrite !length_app. f_equal. lia.
Qed.

Lemma concat_take_S {X} (vs : list (list X)) (i : nat) v :
  vs !! i = Some v -> concat (take (S i) vs) = concat (take i vs) ++ v.
Proof.
  intros Hv. rewrite (take_S_r _ _ _ Hv), concat_app. simpl.
  rewrite app_nil_r. reflexivity.
Qed.

Lemma concat_piece {X} (vs : list (list X)) (i : nat) v :
  vs !! i = Some v ->
  take (length v) (drop (length (concat (take i vs))) (concat vs)) = v.
Proof.
  intros Hv. rewrite <- (take_drop_middle _ _ _ Hv) at 2.
  rewrite concat_app, drop_app_length. simpl. apply take_app_length.
Qed.

Lemma initialize_paramNames cu f : paramNames (initialize cu f) = offsetParamNames cu f.
Proof.
  unfold initialize. cbv zeta. destruct (fold_left bindCoupling _ _) as [[? ?] ?].
  reflexivity.
Qed.

Lemma offsetParamNames_prefix cu f :
  fold_left (fun names o => addParamName names (offsetParameterName f (F.po_parameter o)))
            (F.particleOffsets f) []
    `prefix_of` offsetParamNames cu f.
Proof.
  unfold offsetParamNames. cbv zeta.
  apply (ForceFacts.fold_left_keeps
           (fun names =>
              fold_left (fun names o =>
                           addParamName names (offsetParameterName f (F.po_parameter o)))
                        (F.particleOffsets f) [] `prefix_of` names)); [|reflexivity].
  intros names o Hp.
  destruct ((exceptionIndex f (F.eo_exception o) <? startIndex cu (Vec.size (nonExcluded f)))
            || (endIndex cu (Vec.size (nonExcluded f)) <=? exceptionIndex f (F.eo_exception o)));
    [exact Hp|].
  etransitivity; [exact Hp|]. apply addParamName_prefix.
Qed.

(** X20.  The charge offsets of the particles are laid out particle by
    particle: the entries of [p] from [indices[i]] up to [indices[i+1]]
    stand for the offsets of particle [i], in the order the force has
    them, each a [float2] of its charge scale and of the index at which
    [paramNames] holds the name of its parameter, both converted to
    [float]; [indices] has an entry for every padded atom and one more.
    The offsets must name particles of the force. *)
Theorem particle_offsets_layout (cu : Platform) (f : F.Force) :
  F.getNumParticles f <= paddedNumAtoms cu ->
  (forall o, o ∈ F.particleOffsets f -> 0 <= F.po_particle o < F.getNumParticles f) ->
  length (fst (particleOffsetArrays cu f)) = Z.to_nat (paddedNumAtoms cu + 1) /\
  forall i : nat, Z.of_nat i < F.getNumParticles f ->
    exists a b : nat,
      fst (particleOffsetArrays cu f) !! i = Some (Z.of_nat a) /\
      fst (particleOffsetArrays cu f) !! S i = Some (Z.of_nat b) /\
      (a <= b <= length (snd (particleOffsetArrays cu f)))%nat /\
      Forall2 (placed f (paramNames (initialize cu f)))
        (filter (fun o => F.po_particle o = Z.of_nat i) (F.particleOffsets f))
        (take (b - a) (drop a (snd (particleOffsetArrays cu f)))).
Proof.
  intros Hpad Hvalid. unfold F.getNumParticles, Vec.size in *.
  set (n := length (F.particles f)) in *.
  destruct (addParticleOffset_fold f n (F.particleOffsets f) [] (replicate n []))
    as (vec & Hfold & _ & Hlen & Hnew).
  { apply length_replicate. }
  { intros o Ho. apply Hvalid. exact Ho. }
  assert (Hvec : particleOffsetVec f = vec).
  { unfold particleOffsetVec, F.getNumParticles, Vec.size. fold n.
    rewrite Nat2Z.id, Hfold. reflexivity. }
  unfold particleOffsetArrays. rewrite Hvec, appendOffsets_fold.
  cbn [app length fst snd Nat.add]. rewrite Hlen.
  set (ends := (fun k : nat => Z.of_nat (length (concat (take k vec)))) <$> seq 0 n).
  assert (Hends : length ends = n) by (unfold ends; rewrite length_fmap, length_seq; reflexivity).
  rewrite Hends.
  split.
  { rewrite length_app, length_replicate, Hends. lia. }
  intros i Hi.
  assert (Hin : (i < n)%nat) by lia.
  destruct (Hnew i []) as (new & Hl & Hf); [apply lookup_replicate_2; exact Hin|].
  cbn [app] in Hl.
  exists (length (concat (take i vec))), (length (concat (take (S i) vec))).
  split; [|split; [|split]].
  - rewrite lookup_app_l by lia. unfold ends.
    rewrite list_lookup_fmap, lookup_seq_lt by exact Hin. reflexivity.
  - destruct (decide (S i < n)%nat) as [Hlt|Hge].
    + rewrite lookup_app_l by lia. unfold ends.
      rewrite list_lookup_fmap, lookup_seq_lt by exact Hlt. reflexivity.
    + rewrite lookup_app_r by lia. rewrite lookup_replicate_2 by lia.
      unfold Vec.size. rewrite (take_ge vec (S i)) by lia. reflexivity.
  - rewrite (concat_take_S _ _ _ Hl), length_app. split; [lia|].
    rewrite <- (take_drop (S i) vec) at 2.
    rewrite concat_app, length_app, (concat_take_S _ _ _ Hl), length_app. lia.
  - rewrite (concat_take_S _ _ _ Hl), length_app.
    replace (length (concat (take i vec)) + length new - length (concat (take i vec)))%nat
      with (length new) by lia.
    rewrite (concat_piece _ _ _ Hl).
    eapply Forall2_impl; [exact Hf|].
    intros o entry Hplaced. rewrite initialize_paramNames.
    eapply placed_prefix; [apply offsetParamNames_prefix|exact Hplaced].
Qed.

(** *** The exclusions *)

(** [v[index].push_back(x)] *)
Definition push_into (v : list (list Z)) (index x : Z) : list (list Z) :=
  Vec.set v index (ForceFacts.at_index v index ++ [x]).

(** [exclusionList]: every particle excludes itself, and every
    exception, whatever its charge product, excludes its two particles
    from each other:

      for (int i = 0; i < numParticles; i++) {
          ...
          exclusionList[i].push_back(i);
      }
      for (auto exclusion : exclusions) {
          exclusionList[exclusion.first].push_back(exclusion.second);
          exclusionList[exclusion.second].push_back(exclusion.first);
      }                                                                *)
Definition addExclusion (v : list (list Z)) (e : F.ExceptionInfo) : list (list Z) :=
  push_into (push_into v (F.particle1 e) (F.particle2 e)) (F.particle2 e) (F.particle1 e).

Definition exclusionList (f : F.Force) : list (list Z) :=
  fold_left addExclusion (F.exceptions f)
    ((fun i : nat => [Z.of_nat i]) <$> seq 0 (Z.to_nat (F.getNumParticles f))).

(** An exception joins [i] and [j]. *)
Definition joined (es : list F.ExceptionInfo) (i j : Z) : Prop :=
  exists e, e ∈ es /\
    (F.particle1 e = i /\ F.particle2 e = j \/ F.particle1 e = j /\ F.particle2 e = i).

Lemma at_index_push_into v index x a y :
  0 <= index < Z.of_nat (length v) ->
  y ∈ ForceFacts.at_index (push_into v index x) a <->
  y ∈ ForceFacts.at_index v a \/ (a = index /\ y = x).
Proof.
  intros Hi. unfold push_into. destruct (Z.eq_dec a index) as [->|Hne].
  - unfold ForceFacts.at_index at 1. rewrite Vec.get_set_eq by exact Hi.
    rewrite elem_of_app, list_elem_of_singleton. tauto.
  - unfold ForceFacts.at_index at 1. rewrite Vec.get_set_ne by auto.
    fold (ForceFacts.at_index v a). tauto.
Qed.

Lemma addExclusion_fold (n : nat) es : forall v,
  length v = n ->
  (forall e, e ∈ es -> 0 <= F.particle1 e < Z.of_nat n /\ 0 <= F.particle2 e < Z.of_nat n) ->
  length (fold_left addExclusion es v) = n /\
  forall a y, y ∈ ForceFacts.at_index (fold_left addExclusion es v) a <->
              y ∈ ForceFacts.at_index v a \/ joined es a y.
Proof.
  unfold joined. induction es as [|e es IH]; intros v Hlen Hvalid.
  - cbn [fold_left]. split; [exact Hlen|]. intros a y. split; [auto|].
    intros [Hy|(e & He & _)]; [exact Hy|]. apply elem_of_nil in He. contradiction.
  - cbn [fold_left].
    destruct (Hvalid e) as [H1 H2]; [apply elem_of_cons; auto|].
    destruct (IH (addExclusion v e)) as [Hlen' Hmem].
    { unfold addExclusion, push_into. rewrite !Vec.length_set. exact Hlen. }
    { intros e' He'. apply Hvalid. apply elem_of_cons. auto. }
    split; [exact Hlen'|]. intros a y. rewrite Hmem.
    unfold addExclusion.
    rewrite at_index_push_into
      by (unfold push_into; rewrite Vec.length_set, Hlen; exact H2).
    rewrite at_index_push_into by (rewrite Hlen; exact H1).
    split.
    + intros [[[Hy|[-> ->]]|[-> ->]]|(e' & He' & Hj)].
      * auto.
      * right. exists e. split; [apply elem_of_cons; auto|auto].
      * right. exists e. split; [apply elem_of_cons; auto|auto].
      * right. exists e'. split; [apply elem_of_cons; auto|exact Hj].
    + intros [Hy|(e' & He' & Hj)]; [auto|].
      apply elem_of_cons in He' as [->|He'].
      * left. destruct Hj as [[<- <-]|[<- <-]]; auto.
      * right. exists e'. auto.
Qed.

(** X22.  When the exceptions name particles of the force, the kernel's
    exclusion list has one entry per particle; on the list of a particle
    stand the particle itself and the particles an exception joins it
    to, whatever the charge product of the exception, and no others; so
    the list is symmetric. *)
Theorem exclusionList_symmetric (f : F.Force) :
  (forall e, e ∈ F.exceptions f ->
     0 <= F.particle1 e < F.getNumParticles f /\
     0 <= F.particle2 e < F.getNumParticles f) ->
  Vec.size (exclusionList f) = F.getNumParticles f /\
  (forall i j, 0 <= i < F.getNumParticles f ->
     (j ∈ ForceFacts.at_index (exclusionList f) i <-> j = i \/ joined (F.exceptions f) i j)) /\
  (forall i j, 0 <= i < F.getNumParticles f -> 0 <= j < F.getNumParticles f ->
     (j ∈ ForceFacts.at_index (exclusionList f) i <->
      i ∈ ForceFacts.at_index (exclusionList f) j)).
Proof.
  intros Hvalid. unfold F.getNumParticles, Vec.size in *.
  set (n := length (F.particles f)) in *.
  destruct (addExclusion_fold n (F.exceptions f)
              ((fun i : nat => [Z.of_nat i]) <$> seq 0 n)) as [Hlen Hmem].
  { rewrite length_fmap, length_seq. reflexivity. }
  { exact Hvalid. }
  assert (Hlist : exclusionList f = fold_left addExclusion (F.exceptions f)
                                      ((fun i : nat => [Z.of_nat i]) <$> seq 0 n)).
  { unfold exclusionList, F.getNumParticles, Vec.size. fold n. rewrite Nat2Z.id. reflexivity. }
  assert (Hself : forall i j, 0 <= i < Z.of_nat n ->
            (j ∈ ForceFacts.at_index ((fun i : nat => [Z.of_nat i]) <$> seq 0 n) i <-> j = i)).
  { intros i j Hi. unfold ForceFacts.at_index.
    replace i with (Z.of_nat (Z.to_nat i)) at 1 by lia.
    rewrite Vec.get_of_nat, list_lookup_fmap, lookup_seq_lt by lia.
    cbn [fmap option_fmap option_map Nat.add]. rewrite list_elem_of_singleton. lia. }
  assert (Hchar : forall i j, 0 <= i < Z.of_nat n ->
            (j ∈ ForceFacts.at_index (exclusionList f) i <->
             j = i \/ joined (F.exceptions f) i j)).
  { intros i j Hi. rewrite Hlist, Hmem, (Hself i j Hi). reflexivity. }
  split; [rewrite Hlist, Hlen; reflexivity|]. split; [exact Hchar|].
  intros i j Hi Hj. rewrite (Hchar i j Hi), (Hchar j i Hj).
  unfold joined. split.
  - intros [->|(e & He & Hij)]; [auto|right]. exists e. tauto.
  - intros [->|(e & He & Hij)]; [auto|right]. exists e. tauto.
Qed.

(** *** [ForceInfo] *)

(** [areParticlesIdentical]: [charge1 == charge2] of the two charges
    [getParticleCharge] returns; [None] when [getParticleCharge]
    throws. *)
Definition areParticlesIdentical (f : F.Force) (particle1 particle2 : Z) : option bool :=
  match F.getParticleCharge f particle1, F.getParticleCharge f particle2 with
  | F.Returned _ charge1, F.Returned _ charge2 => Some (negb (rneq charge1 charge2))
  | _, _ => None
  end.

(** [areGroupsIdentical]: [chargeProd1 == chargeProd2] of two
    exceptions. *)
Definition areGroupsIdentical (f : F.Force) (group1 group2 : Z) : option bool :=
  match F.getExceptionParameters f group1, F.getExceptionParameters f group2 with
  | F.Returned _ (_, _, chargeProd1), F.Returned _ (_, _, chargeProd2) =>
      Some (negb (rneq chargeProd1 chargeProd2))
  | _, _ => None
  end.

Lemma getParticleCharge_setParticleSubset f f' index subset j :
  F.setParticleSubset f index subset = F.Returned f' tt ->
  match F.getParticleCharge f j, F.getParticleCharge f' j with
  | F.Returned _ q, F.Returned _ q' => q = q'
  | F.Thrown _ _, F.Thrown _ _ => True
  | _, _ => False
  end.
Proof.
  unfold F.setParticleSubset, F.getParticleCharge.
  destruct (Vec.get (F.particles f) index) as [p|] eqn:G; [|discriminate].
  destruct (F.invalid_subset f subset); [discriminate|].
  intros [= <-]. cbn [F.particles F.with_particles].
  apply Vec.get_Some in G as [Hr G].
  destruct (Z.eq_dec index j) as [<-|Hne].
  - rewrite Vec.get_set_eq by exact Hr.
    unfold Vec.get. rewrite (proj2 (Vec.valid_index_spec _ _) Hr), G. reflexivity.
  - rewrite Vec.get_set_ne by exact Hne.
    destruct (Vec.get (F.particles f) j); [reflexivity|exact I].
Qed.

(** X21.  The kernel's test for identical particles looks at the charges
    alone: moving a particle to another subset never changes its
    verdict, so two particles of equal charge in different subsets are
    identical to it. *)
Theorem areParticlesIdentical_ignores_subsets (f f' : F.Force) (index subset : Z)
    (particle1 particle2 : Z) :
  F.setParticleSubset f index subset = F.Returned f' tt ->
  areParticlesIdentical f' particle1 particle2 = areParticlesIdentical f particle1 particle2.
Proof.
  intros Hset. unfold areParticlesIdentical.
  pose proof (getParticleCharge_setParticleSubset f f' index subset particle1 Hset) as H1.
  pose proof (getParticleCharge_setParticleSubset f f' index subset particle2 Hset) as H2.
  destruct (F.getParticleCharge f particle1), (F.getParticleCharge f' particle1);
    try contradiction; [subst|reflexivity].
  destruct (F.getParticleCharge f particle2), (F.getParticleCharge f' particle2);
    try contradiction; [subst|]; reflexivity.
Qed.
End Facts.

(** Concrete runs, on the context [cu1] and the force [f0]. *)

Lemma execute_twice_witness :
  (forall p, p ∈ coupParamNames (initialize cu1 f0) ++ paramNames (initialize cu1 f0) ->
             @rneq ZScalar (context1 p) (context1 p) = false) /\
  fst (execute (fst (execute (initialize cu1 f0) context1 true true true true))
         context1 true false true true)
    = fst (execute (initialize cu1 f0) context1 true true true true).
Proof.
  assert (Hrefl : forall p,
            p ∈ coupParamNames (initialize cu1 f0) ++ paramNames (initialize cu1 f0) ->
            @rneq ZScalar (context1 p) (context1 p) = false).
  { intros p _. simpl. rewrite Z.eqb_refl. reflexivity. }
  split; [exact Hrefl|].
  apply (proj1 (execute_twice (initialize cu1 f0) context1 true true true true
                  true false true true Hrefl)).
Defined.

(** [f0] with another charge and with the particles of its exception
    named the other way round. *)
Definition f0_swapped : @F.Force ZScalar :=
  F.perform (F.perform f0 (F.SetParticleCharge 0 (7 : @real ZScalar)))
            (F.SetExceptionParameters 0 1 0 (4 : @real ZScalar)).

Example copy_swapped :
  snd (copyParametersToContext cu1 (initialize cu1 f0) f0_swapped) = Some ExceptionsChanged /\
  take 2 (baseParticleCharges (initialize cu1 f0)) = [2; -1] /\
  take 2 (baseParticleCharges
            (fst (copyParametersToContext cu1 (initialize cu1 f0) f0_swapped))) = [7; -1] /\
  subsetSelfEnergy (fst (copyParametersToContext cu1 (initialize cu1 f0) f0_swapped))
    = [-12; -3].
Proof. vm_compute. repeat split; reflexivity. Qed.

Lemma copyParametersToContext_throws_witness :
  copyParametersToContext cu1 (initialize cu1 f0) f0_swapped =
    (fst (copyParametersToContext cu1 (initialize cu1 f0) f0_swapped),
     Some ExceptionsChanged) /\
  forall context a b c d,
    snd (execute (fst (copyParametersToContext cu1 (initialize cu1 f0) f0_swapped))
           context a b c d)
    = snd (execute (initialize cu1 f0) context a b c d).
Proof.
  assert (Hc : copyParametersToContext cu1 (initialize cu1 f0) f0_swapped =
               (fst (copyParametersToContext cu1 (initialize cu1 f0) f0_swapped),
                Some ExceptionsChanged)).
  { vm_compute. reflexivity. }
  split; [exact Hc|].
  intros context a b c d.
  apply (proj1 (proj2 (copyParametersToContext_throws cu1 (initialize cu1 f0) _ f0_swapped
                         ExceptionsChanged Hc)) context a b c d).
Defined.

(** Three contexts. *)
Definition cu3 : @Platform ZScalar :=
  {| numAtoms := 2; paddedNumAtoms := 32; contextIndex := 0; numContexts := 3;
     useDoublePrecision := false;
     selfEnergyScale := (-3 : @real ZScalar) |}.

Example shares_of_five :
  (fun c : nat => share (atContext cu3 (Z.of_nat c)) [10; 20; 30; 40; 50]) <$> seq 0 3
  = [[10]; [20; 30]; [40; 50]].
Proof. reflexivity. Qed.

Lemma shares_partition_witness :
  0 < numContexts cu3 /\
  concat ((fun c : nat => share (atContext cu3 (Z.of_nat c)) [10; 20; 30; 40; 50])
            <$> seq 0 (Z.to_nat (numContexts cu3))) = [10; 20; 30; 40; 50].
Proof.
  assert (HC : 0 < numContexts cu3) by (simpl; lia).
  split; [exact HC|].
  apply (proj1 (shares_partition cu3 [10; 20; 30; 40; 50] HC)).
Defined.

Lemma subsets_in_range_f0 : F.subsets_in_range f0.
Proof. unfold F.subsets_in_range. simpl. repeat constructor; simpl; lia. Qed.

Lemma exceptions_of_f0 :
  forall e, e ∈ F.exceptions f0 ->
    0 <= F.particle1 e < F.getNumParticles f0 /\
    0 <= F.particle2 e < F.getNumParticles f0.
Proof.
  intros e He. change (F.getNumParticles f0) with 2.
  change (F.exceptions f0)
    with [{| F.particle1 := 0; F.particle2 := 1; F.chargeProd := (4 : @real ZScalar) |}]
    in He.
  apply list_elem_of_singleton in He. subst e. simpl. lia.
Qed.

Example exceptionSlices_f0 : exceptionSlices cu1 f0 = [Some 1].
Proof. vm_compute. reflexivity. Qed.

Lemma exceptionSlices_valid_witness :
  F.subsets_in_range f0 /\
  F.getNumParticles f0 <= paddedNumAtoms cu1 /\
  (forall e, e ∈ F.exceptions f0 ->
     0 <= F.particle1 e < F.getNumParticles f0 /\
     0 <= F.particle2 e < F.getNumParticles f0) /\
  length (exceptionSlices cu1 f0) = length (share cu1 (nonExcluded f0)).
Proof.
  assert (Hpad : F.getNumParticles f0 <= paddedNumAtoms cu1).
  { change (F.getNumParticles f0) with 2. simpl. lia. }
  split; [exact subsets_in_range_f0|]. split; [exact Hpad|].
  split; [exact exceptions_of_f0|].
  apply (proj1 (exceptionSlices_valid cu1 f0 subsets_in_range_f0 Hpad exceptions_of_f0)).
Defined.

Example exclusionList_f0 : exclusionList f0 = [[0; 1]; [1; 0]].
Proof. vm_compute. reflexivity. Qed.

Lemma exclusionList_symmetric_witness :
  (forall e, e ∈ F.exceptions f0 ->
     0 <= F.particle1 e < F.getNumParticles f0 /\
     0 <= F.particle2 e < F.getNumParticles f0) /\
  Vec.size (exclusionList f0) = F.getNumParticles f0.
Proof.
  split; [exact exceptions_of_f0|].
  apply (proj1 (exclusionList_symmetric f0 exceptions_of_f0)).
Defined.

Lemma names_held_once_witness :
  serves cu1 f0 f0 (initialize cu1 f0) /\
  NoDup (coupParamNames (initialize cu1 f0)) /\
  NoDup (paramNames (initialize cu1 f0)).
Proof.
  split; [exact serves_f0|].
  destruct (names_held_once cu1 f0 f0 (initialize cu1 f0) serves_f0) as (H1 & H2 & _).
  split; assumption.
Defined.

(** [f0] with three charge offsets: two on particle [1], bound to
    [mu] and to [lambda], and one on particle [0], bound to [mu]. *)
Definition f0_offsets : @F.Force ZScalar :=
  fold_left F.perform
    [F.AddParticleChargeOffset "mu" 1 (3 : @real ZScalar);
     F.AddParticleChargeOffset "mu" 0 (5 : @real ZScalar);
     F.AddParticleChargeOffset "lambda" 1 (7 : @real ZScalar)]
    f0.

Example particleOffsetArrays_f0_offsets :
  take 4 (fst (particleOffsetArrays cu1 f0_offsets)) = [0; 1; 3; 3] /\
  length (fst (particleOffsetArrays cu1 f0_offsets)) = 33%nat /\
  snd (particleOffsetArrays cu1 f0_offsets) = [(5, 0); (3, 0); (7, 1)] /\
  paramNames (initialize cu1 f0_offsets) = ["mu"%string; "lambda"%string].
Proof. vm_compute. repeat split; reflexivity. Qed.

Lemma particle_offsets_layout_witness :
  F.getNumParticles f0_offsets <= paddedNumAtoms cu1 /\
  (forall o, o ∈ F.particleOffsets f0_offsets ->
     0 <= F.po_particle o < F.getNumParticles f0_offsets) /\
  length (fst (particleOffsetArrays cu1 f0_offsets)) = Z.to_nat (paddedNumAtoms cu1 + 1).
Proof.
  assert (Hpad : F.getNumParticles f0_offsets <= paddedNumAtoms cu1).
  { change (F.getNumParticles f0_offsets) with 2. simpl. lia. }
  assert (Hvalid : forall o, o ∈ F.particleOffsets f0_offsets ->
            0 <= F.po_particle o < F.getNumParticles f0_offsets).
  { intros o Ho. change (F.getNumParticles f0_offsets) with 2.
    change (F.particleOffsets f0_offsets)
      with [{| F.po_parameter := 1; F.po_particle := 1;
               F.po_chargeScale := (3 : @real ZScalar) |};
            {| F.po_parameter := 1; F.po_particle := 0;
               F.po_chargeScale := (5 : @real ZScalar) |};
            {| F.po_parameter := 0; F.po_particle := 1;
               F.po_chargeScale := (7 : @real ZScalar) |}] in Ho.
    repeat (apply elem_of_cons in Ho as [->|Ho]; [simpl; lia|]).
    apply elem_of_nil in Ho. contradiction. }
  split; [exact Hpad|]. split; [exact Hvalid|].
  apply (proj1 (particle_offsets_layout cu1 f0_offsets Hpad Hvalid)).
Defined.

(** Two particles of charge [2], the second moved to subset [1]. *)
Definition twins : @F.Force ZScalar :=
  fold_left F.perform
    [F.AddParticle (2 : @real ZScalar) 0; F.AddParticle (2 : @real ZScalar) 0]
    F.two_subsets.

Lemma areParticlesIdentical_ignores_subsets_witness :
  F.setParticleSubset twins 1 1 = F.Returned (F.perform twins (F.SetParticleSubset 1 1)) tt /\
  F.subset <$> F.particles (F.perform twins (F.SetParticleSubset 1 1)) = [0; 1] /\
  areParticlesIdentical (F.perform twins (F.SetParticleSubset 1 1)) 0 1 = Some true.
Proof.
  split; [reflexivity|]. split; [reflexivity|].
  etransitivity.
  - apply (areParticlesIdentical_ignores_subsets twins
             (F.perform twins (F.SetParticleSubset 1 1)) 1 1 0 1).
    reflexivity.
  - reflexivity.
Defined.
End KernelFacts.
